(** * Reed-Muller codes (sage/coding/reed_muller_code.py)

    A shallow embedding of the Reed-Muller code classes, of their two
    encoders and of the recursive multivariate interpolation, followed
    by the properties proved about them.

    Sage's integers are modelled by [Z], Sage's rationals (the results of
    [/] on integers) by normalised [Q], finite fields by a record of
    operations together with the list returned by [base_field.list()]. *)

From Stdlib Require Import ZArith QArith Qround List Bool Lia Arith.
From Stdlib Require Import Ring Field Permutation.
Import ListNotations.

Local Open Scope Z_scope.

(** ** Finite fields *)

(** The capability surface the code uses of a Sage finite field: its
    arithmetic, equality test, and [elements], the list returned by
    [base_field.list()]. *)
Record FiniteField : Type := {
  carrier : Type;
  fzero : carrier;
  fone : carrier;
  fadd : carrier -> carrier -> carrier;
  fmul : carrier -> carrier -> carrier;
  fopp : carrier -> carrier;
  finv : carrier -> carrier;
  feqb : carrier -> carrier -> bool;
  elements : list carrier
}.

Definition fsub (K : FiniteField) (x y : carrier K) : carrier K :=
  fadd K x (fopp K y).

Definition fdiv (K : FiniteField) (x y : carrier K) : carrier K :=
  fmul K x (finv K y).

(** [base_field.cardinality()] *)
Definition cardinality (K : FiniteField) : Z :=
  Z.of_nat (length (elements K)).

(** What makes the record a finite field: the field axioms, a correct
    equality test, and an element list without repetition that contains
    every element. *)
Record field_laws (K : FiniteField) : Prop := {
  fl_field : field_theory (fzero K) (fone K) (fadd K) (fmul K)
               (fsub K) (fopp K) (fdiv K) (finv K) eq;
  fl_eqb : forall x y, feqb K x y = true <-> x = y;
  fl_nodup : NoDup (elements K);
  fl_all : forall x, In x (elements K)
}.

Arguments fl_field {K} f.
Arguments fl_eqb {K} f x y.
Arguments fl_nodup {K} f.
Arguments fl_all {K} f x.

(** Modelled from the spec: the field's "first/last/next-successor
    operations" ([base_field.first()], [.last()], [.next(x)]), which Sage
    derives from the same iteration order as [base_field.list()]. *)
Definition first (K : FiniteField) : option (carrier K) :=
  hd_error (elements K).

Definition last (K : FiniteField) : option (carrier K) :=
  hd_error (rev (elements K)).

Fixpoint next_in {A : Type} (eqb : A -> A -> bool) (l : list A) (x : A)
  : option A :=
  match l with
  | [] => None
  | y :: l' => if eqb y x then hd_error l' else next_in eqb l' x
  end.

Definition next (K : FiniteField) (x : carrier K) : option (carrier K) :=
  next_in (feqb K) (elements K) x.

(** *** GF(2) and GF(3) *)

Inductive F2 : Type := F2_0 | F2_1.

Definition F2_add (x y : F2) : F2 :=
  match x, y with
  | F2_0, b => b
  | F2_1, F2_0 => F2_1
  | F2_1, F2_1 => F2_0
  end.

Definition F2_mul (x y : F2) : F2 :=
  match x with F2_0 => F2_0 | F2_1 => y end.

Definition F2_eqb (x y : F2) : bool :=
  match x, y with
  | F2_0, F2_0 | F2_1, F2_1 => true
  | _, _ => false
  end.

Definition GF2 : FiniteField := {|
  carrier := F2; fzero := F2_0; fone := F2_1;
  fadd := F2_add; fmul := F2_mul;
  fopp := fun x => x; finv := fun x => x;
  feqb := F2_eqb;
  elements := [F2_0; F2_1]
|}.

Inductive F3 : Type := F3_0 | F3_1 | F3_2.

Definition F3_add (x y : F3) : F3 :=
  match x, y with
  | F3_0, b => b
  | a, F3_0 => a
  | F3_1, F3_1 => F3_2
  | F3_1, F3_2 => F3_0
  | F3_2, F3_1 => F3_0
  | F3_2, F3_2 => F3_1
  end.

Definition F3_mul (x y : F3) : F3 :=
  match x, y with
  | F3_0, _ => F3_0
  | _, F3_0 => F3_0
  | F3_1, b => b
  | a, F3_1 => a
  | F3_2, F3_2 => F3_1
  end.

Definition F3_opp (x : F3) : F3 :=
  match x with F3_0 => F3_0 | F3_1 => F3_2 | F3_2 => F3_1 end.

Definition F3_eqb (x y : F3) : bool :=
  match x, y with
  | F3_0, F3_0 | F3_1, F3_1 | F3_2, F3_2 => true
  | _, _ => false
  end.

Definition GF3 : FiniteField := {|
  carrier := F3; fzero := F3_0; fone := F3_1;
  fadd := F3_add; fmul := F3_mul;
  fopp := F3_opp; finv := fun x => x;
  feqb := F3_eqb;
  elements := [F3_0; F3_1; F3_2]
|}.

(** ** Numbers *)

(** Modelled from the spec: Sage's [binomial(n, k)] on integers, the
    binomial coefficient "C(n, k)"; it is [0] for a negative [k]. *)
Fixpoint choose (n k : nat) {struct n} : nat :=
  match k, n with
  | O, _ => 1%nat
  | S _, O => 0%nat
  | S k', S n' => (choose n' k' + choose n' k)%nat
  end.

Definition binomial (n k : Z) : Z :=
  if k <? 0 then 0
  else if 0 <=? n then Z.of_nat (choose (Z.to_nat n) (Z.to_nat k))
  else (if Z.even k then 1 else -1)
       * Z.of_nat (choose (Z.to_nat (k - n - 1)) (Z.to_nat k)).

(** [a / b] on Sage integers and rationals is exact division, and its
    result is a rational number in lowest terms. *)
Definition sage_div (a b : Q) : Q := Qred (a / b)%Q.

(** [range(k)] *)
Definition range (k : Z) : list Z := map Z.of_nat (seq 0 (Z.to_nat k)).

(** [_binomial_sum(n, k)]: the loop body updates [(nCi, s)]. *)
Definition _binomial_sum (n k : Z) : Q :=
  snd (fold_left
         (fun (st : Q * Q) (i : Z) =>
            let (nCi, s) := st in
            let nCi := sage_div (inject_Z (n - i) * nCi)%Q (inject_Z (i + 1)) in
            (nCi, Qred (nCi + s)%Q))
         (range k) (1%Q, 1%Q)).

(** [b ** e] on Sage integers: an integer for [0 <= e], the rational
    [1 / b^(-e)] otherwise. *)
Definition sage_pow (b e : Z) : Q :=
  if 0 <=? e then inject_Z (b ^ e) else sage_div 1 (inject_Z (b ^ (- e))).

(** ** The code classes *)

(** An argument given for [order] or [num_of_var]: a Sage [Integer], or
    an object of any other type (such as the [1.1] of the doctests). *)
Inductive pyarg : Type :=
| Integer (z : Z)
| NotInteger.

(** An argument given for [base_field]: a finite field, or an object that
    is not an instance of [FiniteField] (such as [QQ]). *)
Inductive field_arg : Type :=
| IsFiniteField (K : FiniteField)
| NotFiniteField.

Inductive param_name : Type := POrder | PNumOfVar.

(** The [ValueError]s of the module, named as in the spec's taxonomy:
    - [InvalidField]: "the input `base_field` must be a FiniteField"
      (in [ReedMullerCode]: "The parameter `base_field` must be a finite");
    - [InvalidParameter POrder]: "The order of the code must be an integer";
    - [InvalidParameter PNumOfVar]: "The number of variables must be an
      integer";
    - [OrderTooLarge b]: "The order must be less than b" (q-ary, [b = q]),
      "The order must be less than or equal to b" (binary, [b = num_of_var]);
    - [InvalidLength]: raised by the base class for a length that is not
      an integer;
    - [NotReedMuller]: "the code has to be a Reed Muller code";
    - [DomainMismatch]: "The Polynomial ring should be on ... and should
      have ... variables";
    - [WrongDomain]: "The value to encode must be in ...";
    - [DegreeTooHigh r]: "The polynomial to encode must have degree at
      most r".
    The remaining constructors stand for the exceptions of the Python
    run time and of the Sage library that the module does not raise
    itself: an index out of a list's range ([IndexError]), a call with
    the wrong number of arguments ([TypeError]), [first]/[next] asked
    of a field without elements or of its last element
    ([NoSuchElement]), an interpolation through repeated x-values
    ([NotDistinct]), the [next] of an enumerated set asked for the
    successor of its last element ([StopIteration]). *)
Inductive error : Type :=
| InvalidField
| InvalidParameter (which : param_name)
| OrderTooLarge (bound : Z)
| InvalidLength
| NotReedMuller
| DomainMismatch
| WrongDomain
| DegreeTooHigh (bound : Z)
| IndexError
| TypeError
| NoSuchElement
| NotDistinct
| StopIteration.

Inductive result (A : Type) : Type :=
| Ok (a : A)
| Raise (e : error).

Arguments Ok {A} a.
Arguments Raise {A} e.

Definition bind {A B : Type} (r : result A) (f : A -> result B) : result B :=
  match r with
  | Ok a => f a
  | Raise e => Raise e
  end.

Notation "x <- r ;; k" := (bind r (fun x => k))
  (at level 61, r at next level, right associativity).

Inductive code_class : Type := QAry | Binary.

(** A constructed code: its class, and the attributes set by [__init__]
    and by the base class ([base_field], [length]). *)
Record Code : Type := {
  cls : code_class;
  base_field : FiniteField;
  length_ : Z;
  _order : Z;
  _num_of_var : Z;
  _dimension : Q
}.

Module AbstractLinearCode.

(** Modelled from the spec: [AbstractLinearCode.__init__] of the generic
    linear-code container (not part of these sources), which keeps the
    base field and a length that has to be an integer ("length = q^m"). *)
Definition __init__ (length : Q) : result Z :=
  if (Qden length =? 1)%positive then Ok (Qnum length)
  else Raise InvalidLength.

(** The accessors the code classes inherit. *)
Definition length (self : Code) : Z := length_ self.

Definition dimension (self : Code) : Q := _dimension self.

End AbstractLinearCode.

Module QAryReedMullerCode.

Definition __init__ (base_field : field_arg) (order num_of_var : pyarg)
  : result Code :=
  match base_field with
  | NotFiniteField => Raise InvalidField
  | IsFiniteField K =>
    match order with
    | NotInteger => Raise (InvalidParameter POrder)
    | Integer order =>
      match num_of_var with
      | NotInteger => Raise (InvalidParameter PNumOfVar)
      | Integer num_of_var =>
        let q := cardinality K in
        if q <=? order then Raise (OrderTooLarge q)
        else
          length <- AbstractLinearCode.__init__ (sage_pow q num_of_var) ;;
          Ok {| cls := QAry; base_field := K; length_ := length;
                _order := order; _num_of_var := num_of_var;
                _dimension :=
                  inject_Z (binomial (num_of_var + order) order) |}
      end
    end
  end.

Definition order (self : Code) : Z := _order self.

Definition number_of_variables (self : Code) : Z := _num_of_var self.

Definition minimum_distance (self : Code) : Q :=
  let d := order self in
  let q := cardinality (base_field self) in
  let n := AbstractLinearCode.length self in
  sage_div (inject_Z ((q - d) * n)) (inject_Z q).

Definition __eq__ (self other : Code) : bool :=
  match cls other with
  | QAry =>
      (cardinality (base_field self) =? cardinality (base_field other))
      && (order self =? order other)
      && (number_of_variables self =? number_of_variables other)
  | Binary => false
  end.

End QAryReedMullerCode.

Module BinaryReedMullerCode.

Definition __init__ (order num_of_var : pyarg) : result Code :=
  match order with
  | NotInteger => Raise (InvalidParameter POrder)
  | Integer order =>
    match num_of_var with
    | NotInteger => Raise (InvalidParameter PNumOfVar)
    | Integer num_of_var =>
      if num_of_var <? order then Raise (OrderTooLarge num_of_var)
      else
        length <- AbstractLinearCode.__init__ (sage_pow 2 num_of_var) ;;
        Ok {| cls := Binary; base_field := GF2; length_ := length;
              _order := order; _num_of_var := num_of_var;
              _dimension := _binomial_sum num_of_var order |}
    end
  end.

Definition order (self : Code) : Z := _order self.

Definition number_of_variables (self : Code) : Z := _num_of_var self.

Definition minimum_distance (self : Code) : Q :=
  sage_pow 2 (number_of_variables self - order self).

Definition __eq__ (self other : Code) : bool :=
  match cls other with
  | Binary =>
      (order self =? order other)
      && (number_of_variables self =? number_of_variables other)
  | QAry => false
  end.

End BinaryReedMullerCode.

(** [ReedMullerCode(base_field, order, num_of_var)] *)
Definition ReedMullerCode (base_field : field_arg) (order num_of_var : pyarg)
  : result Code :=
  match base_field with
  | NotFiniteField => Raise InvalidField
  | IsFiniteField K =>
      if cardinality K =? 2
      then BinaryReedMullerCode.__init__ order num_of_var
      else QAryReedMullerCode.__init__ base_field order num_of_var
  end.

(** Method dispatch on the class of [self]. *)
Definition minimum_distance (self : Code) : Q :=
  match cls self with
  | QAry => QAryReedMullerCode.minimum_distance self
  | Binary => BinaryReedMullerCode.minimum_distance self
  end.

(** [C1 == C2] on two codes: the [__eq__] of the class of [C1]. *)
Definition code_eq (C1 C2 : Code) : bool :=
  match cls C1 with
  | QAry => QAryReedMullerCode.__eq__ C1 C2
  | Binary => BinaryReedMullerCode.__eq__ C1 C2
  end.

Definition order (self : Code) : Z :=
  match cls self with
  | QAry => QAryReedMullerCode.order self
  | Binary => BinaryReedMullerCode.order self
  end.

Definition number_of_variables (self : Code) : Z :=
  match cls self with
  | QAry => QAryReedMullerCode.number_of_variables self
  | Binary => BinaryReedMullerCode.number_of_variables self
  end.

(** ** Lists as Python uses them *)

(** [l[i]] for a non-negative index. *)
Definition index {A : Type} (l : list A) (i : Z) : result A :=
  if i <? 0 then Raise IndexError
  else match nth_error l (Z.to_nat i) with
       | Some a => Ok a
       | None => Raise IndexError
       end.

(** [[f(x) for x in l]], stopping at the first exception. *)
Fixpoint mapM {A B : Type} (f : A -> result B) (l : list A) : result (list B) :=
  match l with
  | [] => Ok []
  | a :: l' => b <- f a ;; bs <- mapM f l' ;; Ok (b :: bs)
  end.

(** A [for] loop over [l] that updates the state [s]. *)
Fixpoint foldM {A St : Type} (f : St -> A -> result St) (l : list A) (s : St)
  : result St :=
  match l with
  | [] => Ok s
  | a :: l' => s' <- f s a ;; foldM f l' s'
  end.

Definition of_option {A : Type} (e : error) (o : option A) : result A :=
  match o with
  | Some a => Ok a
  | None => Raise e
  end.

(** Modelled from the spec: [Tuples(S, k)], the "ordered Cartesian
    product" of [k] copies of [S]; as in the matrices and codewords of
    the doctests, the first coordinate varies fastest. *)
Fixpoint Tuples {A : Type} (l : list A) (k : nat) : list (list A) :=
  match k with
  | O => [[]]
  | S k' => flat_map (fun s => map (fun x => x ++ [s]) (Tuples l k')) l
  end.

(** Modelled from the spec: the "Monomial Enumerator",
    [Subsets(range(m) * c, submultiset=True)]: the sub-multisets of the
    multiset holding each variable index [0..m-1] [c] times, "grouped by
    ascending total degree", within a degree in "lexicographic order of
    the slot sequence".  [int_vectors m c k] lists the multiplicity
    vectors of the sub-multisets of size [k]; [expand] turns such a
    vector into the sorted list of variable indices. *)
Fixpoint int_vectors (m c k : nat) : list (list nat) :=
  match m with
  | O => match k with O => [[]] | _ => [] end
  | S m' =>
      flat_map (fun a => map (cons a) (int_vectors m' c (k - a)))
               (rev (seq 0 (Nat.min c k + 1)))
  end.

Fixpoint expand_from (j : nat) (v : list nat) : list nat :=
  match v with
  | [] => []
  | a :: v' => repeat j a ++ expand_from (S j) v'
  end.

Definition expand (v : list nat) : list nat := expand_from 0 v.

Definition Subsets (m c : nat) : list (list nat) :=
  flat_map (fun k => map expand (int_vectors m c k)) (seq 0 (m * c + 1)).

Fixpoint list_nat_eqb (a b : list nat) : bool :=
  match a, b with
  | [], [] => true
  | x :: a', y :: b' => (x =? y)%nat && list_nat_eqb a' b'
  | _, _ => false
  end.

(** [exponents.first()] and [exponents.next(e)], read off the iteration
    order.  The library's [next] walks the iterator of the enumeration up
    to [e] and returns the element after it: asked for the successor of
    the last element, it finds the iterator exhausted, and
    [StopIteration] is raised. *)
Definition Subsets_first (exponents : list (list nat)) : result (list nat) :=
  of_option NoSuchElement (hd_error exponents).

Definition Subsets_next (exponents : list (list nat)) (e : list nat)
  : result (list nat) :=
  of_option StopIteration (next_in list_nat_eqb exponents e).

(** ** Polynomials over a finite field *)

Declare Scope field_scope.
Delimit Scope field_scope with F.

(** Exponent vectors, univariate polynomials (lists of coefficients) and
    multivariate polynomials (lists of terms). *)
Abbreviation monomial := (list nat).

Abbreviation upoly K := (list (carrier K)).

Abbreviation mpoly K := (list (monomial * carrier K)).

Section Polynomials.

Variable K : FiniteField.

Local Abbreviation F := (carrier K).
Local Notation "0" := (fzero K) : field_scope.
Local Notation "1" := (fone K) : field_scope.
Local Infix "+" := (fadd K) : field_scope.
Local Infix "*" := (fmul K) : field_scope.
Local Infix "-" := (fsub K) : field_scope.
Local Infix "/" := (fdiv K) : field_scope.

Fixpoint fpow (x : F) (n : nat) : F :=
  match n with
  | O => 1%F
  | S n' => (x * fpow x n')%F
  end.

(** *** Univariate polynomials

    Modelled from the spec: the univariate ring
    [PolynomialRing(base_field, 'x')] with its "univariate Lagrange
    interpolation".  A polynomial is the list of its coefficients,
    constant term first; [coefficients(sparse=False)] is that list
    without trailing zeros. *)

Fixpoint ueval (p : upoly K) (x : F) : F :=
  match p with
  | [] => 0%F
  | c :: p' => (c + x * ueval p' x)%F
  end.

Fixpoint uadd (p q : upoly K) : upoly K :=
  match p, q with
  | [], _ => q
  | _, [] => p
  | a :: p', b :: q' => (a + b)%F :: uadd p' q'
  end.

Definition uscale (c : F) (p : upoly K) : upoly K := map (fmul K c) p.

(** [p * (x - a)] *)
Definition umul_linear (p : upoly K) (a : F) : upoly K :=
  uadd (uscale (fopp K a) p) (0%F :: p).

Fixpoint coefficients (p : upoly K) : list F :=
  match p with
  | [] => []
  | c :: p' =>
      match coefficients p' with
      | [] => if feqb K c 0%F then [] else [c]
      | cs => c :: cs
      end
  end.

(** Newton's form of the interpolating polynomial: [acc] passes through
    the points seen so far, [nodal] is the product of the [(x - x_j)]
    over them. *)
Fixpoint newton (points : list (F * F)) (acc nodal : upoly K) : result (upoly K) :=
  match points with
  | [] => Ok acc
  | (x, y) :: rest =>
      let w := ueval nodal x in
      if feqb K w 0%F then Raise NotDistinct
      else newton rest
             (uadd acc (uscale ((y - ueval acc x) / w)%F nodal))
             (umul_linear nodal x)
  end.

Definition lagrange_polynomial (points : list (F * F)) : result (upoly K) :=
  newton points [] [1%F].

(** *** Multivariate polynomials

    Modelled from the spec: the "polynomial-domain abstraction (degree,
    evaluation, coefficient extraction, membership testing)".  A
    polynomial of a ring with [n] variables is a list of terms, each an
    exponent vector of length [n] with its coefficient; the coefficient
    of a monomial is the sum of the coefficients of its terms, and two
    polynomials are equal when all their coefficients are. *)

Definition mp_coeff (p : mpoly K) (e : monomial) : F :=
  fold_right
    (fun t acc => if list_nat_eqb (fst t) e then (snd t + acc)%F else acc)
    0%F p.

Definition mp_eq (p p' : mpoly K) : Prop :=
  forall e, mp_coeff p e = mp_coeff p' e.

(** [p in R] for a list of terms [p] and the ring [R] with [n]
    variables. *)
Definition in_ring (n : nat) (p : mpoly K) : bool :=
  forallb (fun t => (List.length (fst t) =? n)%nat) p.

(** [R.zero()], the coercion of a field element into [R], [R.gen(i)]. *)
Definition mp_zero : mpoly K := [].

Definition mp_const (n : nat) (c : F) : mpoly K := [(repeat O n, c)].

Definition unit_vector (n i : nat) : monomial :=
  map (fun j => if (j =? i)%nat then 1%nat else 0%nat) (seq 0 n).

Definition mp_gen (n : nat) (i : Z) : result (mpoly K) :=
  if (0 <=? i) && (i <? Z.of_nat n)
  then Ok [(unit_vector n (Z.to_nat i), 1%F)]
  else Raise IndexError.

Fixpoint monomial_mul (e e' : monomial) : monomial :=
  match e, e' with
  | [], _ => e'
  | _, [] => e
  | a :: e1, b :: e1' => (a + b)%nat :: monomial_mul e1 e1'
  end.

Definition mp_add (p p' : mpoly K) : mpoly K := p ++ p'.

Definition mp_scale (c : F) (p : mpoly K) : mpoly K :=
  map (fun t => (fst t, (c * snd t)%F)) p.

Definition mp_mul (p p' : mpoly K) : mpoly K :=
  flat_map
    (fun t => map (fun t' => (monomial_mul (fst t) (fst t'),
                              (snd t * snd t')%F)) p')
    p.

(** The value of a monomial and of a polynomial at a point. *)
Fixpoint monomial_eval (e : monomial) (x : list F) : F :=
  match e with
  | [] => 1%F
  | a :: e' => (fpow (hd 0%F x) a * monomial_eval e' (tl x))%F
  end.

Definition mp_eval (p : mpoly K) (x : list F) : F :=
  fold_right (fun t acc => (snd t * monomial_eval (fst t) x + acc)%F) 0%F p.

(** [p(x)] for [p] in the ring with [n] variables and a tuple [x]. *)
Definition mp_call (n : nat) (p : mpoly K) (x : list F) : result F :=
  if (List.length x =? n)%nat then Ok (mp_eval p x) else Raise TypeError.

(** [p.degree()], the total degree; [-1] for the zero polynomial. *)
Definition mp_degree (p : mpoly K) : Z :=
  fold_right
    (fun t acc =>
       if feqb K (mp_coeff p (fst t)) 0%F then acc
       else Z.max (Z.of_nat (list_sum (fst t))) acc)
    (-1) p.

(** What the interpolation returns: an element of the base field, or
    an element of the polynomial ring. *)
Inductive value : Type :=
| Scalar (c : F)
| Polynomial (p : mpoly K).

(** The coercion of a value into the ring with [n] variables. *)
Definition to_poly (n : nat) (v : value) : mpoly K :=
  match v with
  | Scalar c => mp_const n c
  | Polynomial p => p
  end.

(** The multiplier [z] of the interpolation: the Python integer [1],
    then powers of a generator. *)
Inductive multiplier : Type :=
| PyOne
| Power (p : mpoly K).

(** [z * v] *)
Definition multiplier_mul (z : multiplier) (v : value) : value :=
  match z, v with
  | PyOne, _ => v
  | Power zp, Scalar c => Polynomial (mp_scale c zp)
  | Power zp, Polynomial p => Polynomial (mp_mul zp p)
  end.

(** [z * x] *)
Definition multiplier_step (z : multiplier) (x : mpoly K) : multiplier :=
  match z with
  | PyOne => Power x
  | Power zp => Power (mp_mul zp x)
  end.

(** [poly + v] *)
Definition mp_add_value (n : nat) (poly : mpoly K) (v : value) : mpoly K :=
  mp_add poly (to_poly n v).

End Polynomials.

(** ** The interpolation engine *)

Section Interpolation.

Variable K : FiniteField.

Local Abbreviation F := (carrier K).

(** The inner loop of the interpolation: the [d] points
    [(xcordinate, evaluation[k + i * n_by_q])], the x-coordinate moving
    to its successor until it is the field's last element.
    [gather_step] is the body of the loop. *)
Definition gather_step (evaluation : list F) (k n_by_q : Z)
    (st : F * list (F * F)) (i : Z) : result (F * list (F * F)) :=
  let (xcordinate, points) := st in
  v <- index evaluation (k + i * n_by_q) ;;
  let points := points ++ [(xcordinate, v)] in
  lst <- of_option NoSuchElement (last K) ;;
  if negb (feqb K xcordinate lst)
  then xcordinate <- of_option NoSuchElement (next K xcordinate) ;;
       Ok (xcordinate, points)
  else Ok (xcordinate, points).

Definition gather_points (evaluation : list F) (k n_by_q d : Z)
  : result (list (F * F)) :=
  xcordinate <- of_option NoSuchElement (first K) ;;
  st <- foldM (gather_step evaluation k n_by_q) (range d) (xcordinate, []) ;;
  Ok (snd st).

(** One entry of [multipoint_evaluation_list]: the coefficients of the
    interpolating polynomial, padded with zeros to length [d]. *)
Definition slice_coefficients (evaluation : list F) (n_by_q d k : Z)
  : result (list F) :=
  points <- gather_points evaluation k n_by_q d ;;
  p <- lagrange_polynomial K points ;;
  let polyVector := coefficients K p in
  if Z.of_nat (List.length polyVector) <? d
  then Ok (polyVector
           ++ map (fun _ => fzero K)
                  (range (d - Z.of_nat (List.length polyVector))))
  else Ok polyVector.

(** The body of the second loop: the recursive call on the column [k] of
    [multipoint_evaluation_list], whose result is multiplied by [z] and
    added to [poly]; [interpolate column order'] stands for the recursive
    call with one variable less. *)
Definition combine_step (interpolate : list F -> Z -> result (value K))
    (multipoint_evaluation_list : list (list F)) (n_by_q order : Z)
    (polynomial_ring : nat) (x : mpoly K)
    (st : mpoly K * multiplier K) (k : Z)
  : result (mpoly K * multiplier K) :=
  let (poly, z) := st in
  column <- mapM (fun i => row <- index multipoint_evaluation_list i ;;
                           index row k)
                 (range n_by_q) ;;
  r <- interpolate column (order - k) ;;
  Ok (mp_add_value K polynomial_ring poly (multiplier_mul K z r),
      multiplier_step K z x).

(** [_multivariate_polynomial_interpolation(evaluation, num_of_var,
    order, polynomial_ring)], for the numbers of variables that codes
    have ([0 <= num_of_var]); the ring is given by its number of
    generators. *)
Fixpoint _multivariate_polynomial_interpolation
    (evaluation : list F) (num_of_var : nat) (order : Z)
    (polynomial_ring : nat) {struct num_of_var} : result (value K) :=
  match num_of_var with
  | O => c <- index evaluation 0 ;; Ok (Scalar K c)
  | S num_of_var' =>
    if order =? 0 then c <- index evaluation 0 ;; Ok (Scalar K c)
    else
      let q := cardinality K in
      let n_by_q := q ^ Z.of_nat num_of_var' in
      let d := Z.min (order + 1) q in
      multipoint_evaluation_list <-
        mapM (slice_coefficients evaluation n_by_q d) (range n_by_q) ;;
      let poly := mp_zero K in
      let z := PyOne K in
      x <- mp_gen K polynomial_ring (Z.of_nat num_of_var') ;;
      st <- foldM
              (combine_step
                 (fun column order' =>
                    _multivariate_polynomial_interpolation
                      column num_of_var' order' polynomial_ring)
                 multipoint_evaluation_list n_by_q order polynomial_ring x)
              (range d) (poly, z) ;;
      Ok (Polynomial K (fst st))
  end.

End Interpolation.

(** ** The encoders *)

(** An argument given for [code]: a Reed-Muller code of one of the two
    classes, or any other object. *)
Inductive code_arg : Type :=
| IsReedMuller (C : Code)
| NotACode.

Definition matrix (K : FiniteField) : Type := list (list (carrier K)).

(** The matrices allocated so far, each under its identity. *)
Record store (K : FiniteField) : Type := {
  next_id : nat;
  objects : list (nat * matrix K)
}.

Arguments next_id {K} s.
Arguments objects {K} s.

Definition lookup {K : FiniteField} (st : store K) (id : nat)
  : option (matrix K) :=
  option_map snd (find (fun o => (fst o =? id)%nat) (objects st)).

Module ReedMullerVectorEncoder.

(** An encoder: its code, and the cache that [@cached_method] keeps for
    [generator_matrix] (the identity of the stored matrix, once
    computed). *)
Record t : Type := {
  code_ : Code;
  cache : option nat
}.

Definition __init__ (code : code_arg) : result t :=
  match code with
  | NotACode => Raise NotReedMuller
  | IsReedMuller C => Ok {| code_ := C; cache := None |}
  end.

Definition code (self : t) : Code := code_ self.

Definition __eq__ (self other : t) : bool := code_eq (code self) (code other).

(** The body of the loop of [generator_matrix]: the row of the current
    [exponent], and the step to the next one, which the loop takes after
    every row, the last one too. *)
Definition generator_matrix_step (K : FiniteField)
    (base_field_tuple : list (list (carrier K))) (exponents : list (list nat))
    (st : matrix K * list nat) (_ : Z)
  : result (matrix K * list nat) :=
  let (matrix_list, exponent) := st in
  row <- mapM
           (fun x =>
              xs <- mapM (fun i => index x (Z.of_nat i)) exponent ;;
              Ok (fold_left (fmul K) xs (fone K)))
           base_field_tuple ;;
  exponent <- Subsets_next exponents exponent ;;
  Ok (matrix_list ++ [row], exponent).

(** The body of [generator_matrix]. *)
Definition generator_matrix_body (C : Code) : result (matrix (base_field C)) :=
  let base_field := base_field C in
  let order := order C in
  let num_of_var := number_of_variables C in
  let q := cardinality base_field in
  let dimension := AbstractLinearCode.dimension C in
  let base_field_tuple := Tuples (elements base_field) (Z.to_nat num_of_var) in
  let exponents :=
    Subsets (Z.to_nat num_of_var) (Z.to_nat (Z.min order (q - 1))) in
  exponent <- Subsets_first exponents ;;
  st <- foldM (generator_matrix_step base_field base_field_tuple exponents)
              (range (Qfloor dimension)) ([], exponent) ;;
  Ok (fst st).

(** [generator_matrix()] with its cache: the first call computes the
    matrix and stores it, later calls return the stored object. *)
Definition generator_matrix (self : t) (st : store (base_field (code self)))
  : result (nat * t * store (base_field (code self))) :=
  match cache self with
  | Some id => Ok (id, self, st)
  | None =>
      m <- generator_matrix_body (code self) ;;
      let id := next_id st in
      Ok (id,
          {| code_ := code_ self; cache := Some id |},
          {| next_id := S id; objects := (id, m) :: objects st |})
  end.

End ReedMullerVectorEncoder.

(** An argument given for [polynomial_ring]: the default, or a ring, of
    which the constructor looks at whether its base ring is the code's
    field and at the number of its variable names. *)
Inductive ring_arg : Type :=
| DefaultRing
| GivenRing (base_ring_is_code_field : bool) (variable_names : nat).

(** A Python object that is no element of the encoder's polynomial ring
    (a polynomial of another ring, a number, ...), as [encode] sees it.
    The three operations that [encode] applies to its argument belong to
    the library and to the class of the object, not to this module:
    - [in_message_space] is the answer of the membership test [p in M]
      for the ring [M] of the encoder, which Sage decides up to
      conversion: it is [True] when [M(p)] can be built and [M(p) == p];
    - [object_degree] is [p.degree()];
    - [object_call x] is [p(x)] for a tuple [x] of field elements;
    the last two may raise the exceptions of the object's class. *)
Record other_object (K : FiniteField) : Type := {
  in_message_space : bool;
  object_degree : result Z;
  object_call : list (carrier K) -> result (carrier K)
}.

Arguments in_message_space {K} o.
Arguments object_degree {K} o.
Arguments object_call {K} o x.

(** An argument given to the [encode] of an encoder whose polynomial
    ring [M] has [M] variables over the field [K].  [Poly p in_M] is an
    element of that ring, given by its terms [p], whose exponent vectors
    have [M] entries ([in_M]).  [OtherObject o] is any other object. *)
Inductive message (K : FiniteField) (M : nat) : Type :=
| Poly (p : mpoly K) (in_M : in_ring K M p = true)
| OtherObject (o : other_object K).

Arguments Poly {K M} p in_M.
Arguments OtherObject {K M} o.

(** [p in M]: an element of [M] is in [M]; for another object the
    library decides. *)
Definition contains {K : FiniteField} {M : nat} (p : message K M) : bool :=
  match p with
  | Poly _ _ => true
  | OtherObject o => in_message_space o
  end.

(** [p.degree()] *)
Definition degree {K : FiniteField} {M : nat} (p : message K M) : result Z :=
  match p with
  | Poly p _ => Ok (mp_degree K p)
  | OtherObject o => object_degree o
  end.

(** [p(x)] *)
Definition call {K : FiniteField} {M : nat} (p : message K M)
    (x : list (carrier K)) : result (carrier K) :=
  match p with
  | Poly p _ => mp_call K M p x
  | OtherObject o => object_call o x
  end.

Module ReedMullerPolynomialEncoder.

(** An encoder: its code and its polynomial ring, a ring over the
    code's field given by its number of variables. *)
Record t : Type := {
  code_ : Code;
  _polynomial_ring : nat
}.

Definition __init__ (code : code_arg) (polynomial_ring : ring_arg)
  : result t :=
  match code with
  | NotACode => Raise NotReedMuller
  | IsReedMuller C =>
      match polynomial_ring with
      | DefaultRing =>
          Ok {| code_ := C;
                _polynomial_ring := Z.to_nat (number_of_variables C) |}
      | GivenRing same_field names =>
          if same_field && (Z.of_nat names =? number_of_variables C)
          then Ok {| code_ := C; _polynomial_ring := names |}
          else Raise DomainMismatch
      end
  end.

Definition code (self : t) : Code := code_ self.

Definition __eq__ (self other : t) : bool := code_eq (code self) (code other).

Definition message_space (self : t) : nat := _polynomial_ring self.

Definition polynomial_ring (self : t) : nat := _polynomial_ring self.

(** [encode(p)]: the membership test, the test of the degree and the
    evaluation on the grid, each with the operation that [p] has for
    it. *)
Definition encode (self : t)
    (p : message (base_field (code self)) (message_space self))
  : result (list (carrier (base_field (code self)))) :=
  let M := message_space self in
  if negb (contains (M := M) p) then Raise WrongDomain
  else
    let C := code self in
    d <- degree p ;;
    if order C <? d then Raise (DegreeTooHigh (order C))
    else
      let base_fieldTuple :=
        Tuples (elements (base_field C))
               (Z.to_nat (number_of_variables C)) in
      mapM (call p) base_fieldTuple.

Definition unencode_nocheck (self : t)
    (c : list (carrier (base_field (code self))))
  : result (value (base_field (code self))) :=
  _multivariate_polynomial_interpolation (base_field (code self))
    c
    (Z.to_nat (number_of_variables (code self)))
    (order (code self))
    (polynomial_ring self).

End ReedMullerPolynomialEncoder.

(** A decision procedure for the equality of two polynomials: it
    compares the coefficients of the monomials that occur in either. *)
Definition mp_eqb (K : FiniteField) (p p' : mpoly K) : bool :=
  forallb (fun e => feqb K (mp_coeff K p e) (mp_coeff K p' e))
          (map fst p ++ map fst p').

(** The codes that the constructors return, when given a finite field. *)
Definition constructed (C : Code) : Prop :=
  (exists K order num_of_var,
      field_laws K
      /\ QAryReedMullerCode.__init__ (IsFiniteField K) order num_of_var = Ok C)
  \/ (exists order num_of_var,
      BinaryReedMullerCode.__init__ order num_of_var = Ok C).

(** The partial binomial sum [C(n,0) + ... + C(n,k)]. *)
Fixpoint binomial_partial_sum (n k : nat) : nat :=
  match k with
  | O => choose n 0
  | S k' => (binomial_partial_sum n k' + choose n (S k'))%nat
  end.

(** ** Definitions used in the proofs *)

Section ProofDefinitions.

Variable K : FiniteField.

(** The quotient of [p] by [x - a] (Horner's scheme). *)
Fixpoint uquot (p : upoly K) (a : carrier K) : upoly K :=
  match p with
  | [] => []
  | _ :: p' =>
      match p' with
      | [] => []
      | _ => ueval K p' a :: uquot p' a
      end
  end.

(** The exponent vector [e] with [f] applied to its entry [j]. *)
Fixpoint upd (j : nat) (f : nat -> nat) (e : monomial) : monomial :=
  match e, j with
  | [], _ => []
  | a :: e', O => f a :: e'
  | a :: e', S j' => a :: upd j' f e'
  end.

(** The exponent vector of [x_j^a] in a ring with [n] variables. *)
Definition unit_pow (n j a : nat) : monomial :=
  map (fun i => if (i =? j)%nat then a else O) (seq 0 n).

(** The coefficient of [x_j^t] in [p], as a polynomial in the other
    variables. *)
Definition slice (j t : nat) (p : mpoly K) : mpoly K :=
  map (fun u => (upd j (fun _ => O) (fst u), snd u))
      (filter (fun u => (nth j (fst u) O =? t)%nat) p).

(** A monomial of the ring with [n] variables that involves only the
    first [j] of them, has total degree at most [r], and degree less
    than the field's cardinality in each variable. *)
Definition term_ok (n j : nat) (r : Z) (e : monomial) : Prop :=
  List.length e = n
  /\ (forall i, (j <= i)%nat -> nth i e O = O)
  /\ Z.of_nat (list_sum e) <= r
  /\ (forall i, (nth i e O < List.length (elements K))%nat).

Definition clean (n j : nat) (r : Z) (p : mpoly K) : Prop :=
  Forall (fun t => term_ok n j r (fst t)) p.

(** The terms of [p] collected by monomial, without the zero ones. *)
Definition normalize (p : mpoly K) : mpoly K :=
  map (fun e => (e, mp_coeff K p e))
      (filter (fun e => negb (feqb K (mp_coeff K p e) (fzero K)))
              (nodup (list_eq_dec Nat.eq_dec) (map fst p))).

(** The sum of [f e] over the list [l]. *)
Definition fsum {A : Type} (f : A -> carrier K) (l : list A) : carrier K :=
  fold_right (fun a acc => fadd K (f a) acc) (fzero K) l.

End ProofDefinitions.

Arguments fsum K {A} f l.

(** ** The objects of the examples *)

(** [QAryReedMullerCode(GF(3), 2, 2)], its polynomial encoder, the
    polynomial [1 + x0 + x1 + x1^2 + x0*x1] and its codeword. *)
Definition RM_3_2_2 : Code := {|
  cls := QAry; base_field := GF3; length_ := 9;
  _order := 2; _num_of_var := 2; _dimension := inject_Z 6
|}.

Definition RM_3_2_2_encoder : ReedMullerPolynomialEncoder.t := {|
  ReedMullerPolynomialEncoder.code_ := RM_3_2_2;
  ReedMullerPolynomialEncoder._polynomial_ring := 2
|}.

Definition scenario_polynomial : mpoly GF3 :=
  [ ([0; 0]%nat, F3_1); ([1; 0]%nat, F3_1); ([0; 1]%nat, F3_1);
    ([0; 2]%nat, F3_1); ([1; 1]%nat, F3_1) ].

Definition scenario_codeword : list F3 :=
  [F3_1; F3_2; F3_0; F3_0; F3_2; F3_1; F3_1; F3_1; F3_1].

(** [BinaryReedMullerCode(2, 2)], its polynomial encoder, and the
    polynomial [x0^2]. *)
Definition RM_2_2_2 : Code := {|
  cls := Binary; base_field := GF2; length_ := 4;
  _order := 2; _num_of_var := 2; _dimension := inject_Z 4
|}.

Definition RM_2_2_2_encoder : ReedMullerPolynomialEncoder.t := {|
  ReedMullerPolynomialEncoder.code_ := RM_2_2_2;
  ReedMullerPolynomialEncoder._polynomial_ring := 2
|}.

Definition x0_squared : mpoly GF2 := [ ([2; 0]%nat, F2_1) ].

(** ** Definitions used for the generator matrix *)

(** The exponent tuples in the enumerator's order: [Subsets m c] is the
    list of their expansions. *)
Definition exponent_vectors (m c : nat) : list monomial :=
  flat_map (fun k => int_vectors m c k) (seq 0 (m * c + 1)).

(** [g 0 + ... + g k] *)
Fixpoint psum (g : nat -> nat) (k : nat) : nat :=
  match k with
  | O => g O
  | S k' => (psum g k' + g (S k'))%nat
  end.

(** The row of the monomial with exponent tuple [v]: its values on the
    grid. *)
Definition generator_row (K : FiniteField) (m : nat) (v : monomial)
  : list (carrier K) :=
  map (monomial_eval K v) (Tuples (elements K) m).

(** The vector encoder of [RM_3_2_2], before its first call of
    [generator_matrix], and a store without matrices. *)
Definition RM_3_2_2_vector_encoder : ReedMullerVectorEncoder.t := {|
  ReedMullerVectorEncoder.code_ := RM_3_2_2;
  ReedMullerVectorEncoder.cache := None
|}.

Definition empty_store (K : FiniteField) : store K :=
  {| next_id := O; objects := [] |}.

(** The vector of the second example of [unencode_nocheck], which is not
    a codeword, and the polynomial that the example shows for it,
    [-x0*x1 - x1^2 + x0 + 1]. *)
Definition doctest_noncodeword : list F3 :=
  [F3_1; F3_2; F3_0; F3_0; F3_2; F3_1; F3_0; F3_1; F3_1].

Definition doctest_noncodeword_polynomial : mpoly GF3 :=
  [ ([1; 1]%nat, F3_2); ([0; 2]%nat, F3_2); ([1; 0]%nat, F3_1);
    ([0; 0]%nat, F3_1) ].

(** ** The symmetries of tensor modules *)

(** The part of [DisjointSet] that [is_submodule] uses; the class is not
    part of these sources, and is kept abstract: [DisjointSet(n)], the
    union-find structure on the integers below [n], [S.union(i, j)], which
    changes [S], [S.find(i)] and [S.cardinality()]. *)
Record DisjointSet : Type := {
  disjoint_set : Type;
  DisjointSet_new : nat -> disjoint_set;
  DisjointSet_union : disjoint_set -> nat -> nat -> disjoint_set;
  DisjointSet_find : disjoint_set -> nat -> nat;
  DisjointSet_cardinality : disjoint_set -> nat
}.

(** What is assumed of a union-find structure: [find] gives different
    representatives to the elements of a new structure, and after
    [union(a, b)] two elements have the same representative when they had
    before, or when one was with [a] and the other with [b]. *)
Record disjoint_set_laws (D : DisjointSet) : Prop := {
  dl_new_cardinality :
    forall n, DisjointSet_cardinality D (DisjointSet_new D n) = n;
  dl_new :
    forall n i j, (i < n)%nat -> (j < n)%nat ->
      (DisjointSet_find D (DisjointSet_new D n) i
       = DisjointSet_find D (DisjointSet_new D n) j <-> i = j);
  dl_union_cardinality :
    forall S a b,
      DisjointSet_cardinality D (DisjointSet_union D S a b)
      = DisjointSet_cardinality D S;
  dl_union :
    forall S a b i j,
      (a < DisjointSet_cardinality D S)%nat ->
      (b < DisjointSet_cardinality D S)%nat ->
      (i < DisjointSet_cardinality D S)%nat ->
      (j < DisjointSet_cardinality D S)%nat ->
      (DisjointSet_find D (DisjointSet_union D S a b) i
       = DisjointSet_find D (DisjointSet_union D S a b) j
       <-> DisjointSet_find D S i = DisjointSet_find D S j
           \/ (DisjointSet_find D S i = DisjointSet_find D S a
               /\ DisjointSet_find D S b = DisjointSet_find D S j)
           \/ (DisjointSet_find D S i = DisjointSet_find D S b
               /\ DisjointSet_find D S a = DisjointSet_find D S j))
}.

Arguments dl_new_cardinality {D}.
Arguments dl_new {D}.
Arguments dl_union_cardinality {D}.
Arguments dl_union {D}.

(** The body of the first loop of [is_coarsening_of]: the first index of
    [index_set] is united with each of the others. *)
Definition union_step (D : DisjointSet) (S : disjoint_set D)
    (index_set : list nat) : result (disjoint_set D) :=
  i <- index index_set 0 ;;
  Ok (fold_left (fun S j => DisjointSet_union D S i j) (tl index_set) S).

(** The second loop of [is_coarsening_of], which returns [False] at the
    first index that is not with the first index of its [index_set]. *)
Fixpoint find_loop (D : DisjointSet) (S : disjoint_set D)
    (other_sym_list : list (list nat)) : result bool :=
  match other_sym_list with
  | [] => Ok true
  | index_set :: rest =>
      i0 <- index index_set 0 ;;
      let i := DisjointSet_find D S i0 in
      if forallb (fun j => (DisjointSet_find D S j =? i)%nat) (tl index_set)
      then find_loop D S rest
      else Ok false
  end.

(** [is_coarsening_of(self_sym_list, other_sym_list)], the function that
    [is_submodule] defines, with the tensor type of [self] that it reads
    from its environment. *)
Definition is_coarsening_of (D : DisjointSet) (self_tensor_type : nat * nat)
    (self_sym_list other_sym_list : list (list nat)) : result bool :=
  let S :=
    DisjointSet_new D (fst self_tensor_type + snd self_tensor_type)%nat in
  S <- foldM (union_step D) self_sym_list S ;;
  find_loop D S other_sym_list.

(** An implementation of the interface, for examples: every element
    carries the label of its class, and [union(a, b)] gives the label of
    [a] to the class of [b]. *)
Definition labelled_sets : DisjointSet := {|
  disjoint_set := nat * (nat -> nat);
  DisjointSet_new := fun n => (n, fun i => i);
  DisjointSet_union := fun S a b =>
    (fst S, fun x => if (snd S x =? snd S b)%nat then snd S a else snd S x);
  DisjointSet_find := fun S i => snd S i;
  DisjointSet_cardinality := fun S => fst S
|}.

(** The equivalence relation that the index sets of [blocks] generate:
    the partition of the indices into classes of symmetric positions. *)
Inductive related (blocks : list (list nat)) : nat -> nat -> Prop :=
| related_block (b : list nat) (i j : nat) :
    In b blocks -> In i b -> In j b -> related blocks i j
| related_refl (i : nat) : related blocks i i
| related_sym (i j : nat) : related blocks i j -> related blocks j i
| related_trans (i j k : nat) :
    related blocks i j -> related blocks j k -> related blocks i k.

(** The index sets that symmetries have: not empty, of indices below
    [n]. *)
Definition index_sets (n : nat) (blocks : list (list nat)) : Prop :=
  forall b, In b blocks -> b <> [] /\ forall i, In i b -> (i < n)%nat.

(** The structure [S] on [n] elements has the classes that [blocks]
    generate. *)
Definition represents (D : DisjointSet) (n : nat) (S : disjoint_set D)
    (blocks : list (list nat)) : Prop :=
  DisjointSet_cardinality D S = n
  /\ forall x y, (x < n)%nat -> (y < n)%nat ->
       (DisjointSet_find D S x = DisjointSet_find D S y
        <-> related blocks x y).

(** The symmetries of the examples of [is_submodule], on six indices. *)
Definition Sym0123x45 : list (list nat) := [[0; 1; 2; 3]; [4; 5]]%nat.

Definition Sym012x345 : list (list nat) := [[0; 1; 2]; [3; 4; 5]]%nat.

Definition Sym012345 : list (list nat) := [[0; 1; 2; 3; 4; 5]]%nat.

(** The code over GF(3) of order 0 in two variables, the binary code of
    order 2 in two variables, and their vector encoders before the first
    call of [generator_matrix]. *)
Definition RM_3_0_2 : Code := {|
  cls := QAry; base_field := GF3; length_ := 9;
  _order := 0; _num_of_var := 2; _dimension := inject_Z 1
|}.

Definition RM_3_0_2_vector_encoder : ReedMullerVectorEncoder.t := {|
  ReedMullerVectorEncoder.code_ := RM_3_0_2;
  ReedMullerVectorEncoder.cache := None
|}.

Definition RM_2_2_2_vector_encoder : ReedMullerVectorEncoder.t := {|
  ReedMullerVectorEncoder.code_ := RM_2_2_2;
  ReedMullerVectorEncoder.cache := None
|}.

(** Two objects that are no elements of the ring GF(3)[x0, x1] of
    [RM_3_2_2_encoder], and that its membership test accepts: the
    polynomial [x0 + 1] of ZZ[x0, x1], which the ring takes as its own
    [x0 + 1], of degree 1, and whose value at a pair of field elements is
    an element of the field; and the constant polynomial [1] of
    GF(3)[x0, x1, x2], which the ring takes as its own [1], of degree 0,
    and which, as a polynomial in three variables, cannot be called with
    a pair. *)
Definition integer_polynomial : other_object GF3 := {|
  in_message_space := true;
  object_degree := Ok 1;
  object_call :=
    mp_call GF3 2 [ ([1; 0]%nat, F3_1); ([0; 0]%nat, F3_1) ]
|}.

Definition three_variable_polynomial : other_object GF3 := {|
  in_message_space := true;
  object_degree := Ok 0;
  object_call := mp_call GF3 3 [ ([0; 0; 0]%nat, F3_1) ]
|}.

(** An object that the membership test rejects, as the polynomial
    [y1^2 + 1] of QQ[y1, y2] in the examples of [encode]. *)
Definition rational_polynomial : other_object GF3 := {|
  in_message_space := false;
  object_degree := Ok 2;
  object_call := fun _ => Raise TypeError
|}.

(** * Properties *)

(** ** The two concrete fields *)

Lemma GF2_laws : field_laws GF2.
Proof.
  split.
  - split; [split | | | ]; cbn;
      try (intros [] [] []; reflexivity);
      try (intros [] []; reflexivity);
      try (intros []; reflexivity);
      try discriminate.
    intros [] H; [now elim H | reflexivity].
  - intros [] []; cbn; split; try reflexivity; discriminate.
  - cbn. repeat constructor; cbn; intuition discriminate.
  - intros []; cbn; auto.
Qed.

Lemma GF3_laws : field_laws GF3.
Proof.
  split.
  - split; [split | | | ]; cbn;
      try (intros [] [] []; reflexivity);
      try (intros [] []; reflexivity);
      try (intros []; reflexivity);
      try discriminate.
    intros [] H; [now elim H | reflexivity | reflexivity].
  - intros [] []; cbn; split; try reflexivity; discriminate.
  - cbn. repeat constructor; cbn; intuition discriminate.
  - intros []; cbn; auto.
Qed.

Lemma cardinality_ge_2 (K : FiniteField) :
  field_laws K -> 2 <= cardinality K.
Proof.
  intros HK. unfold cardinality.
  pose proof (fl_all HK (fzero K)) as H0.
  pose proof (fl_all HK (fone K)) as H1.
  pose proof (F_1_neq_0 (fl_field HK)) as Hne.
  destruct (elements K) as [|a [|b l]]; cbn in *.
  - contradiction.
  - exfalso. apply Hne. intuition congruence.
  - lia.
Qed.

(** ** Arithmetic of the code parameters *)

Lemma Qred_inject_Z (a : Z) : Qred (inject_Z a) = inject_Z a.
Proof.
  unfold Qred, inject_Z. cbn [Qnum Qden].
  pose proof (Z.ggcd_gcd a 1) as Hg.
  pose proof (Z.ggcd_correct_divisors a 1) as Hd.
  destruct (Z.ggcd a 1) as [g [aa bb]]. cbn in *.
  destruct Hd as [Ha Hb].
  rewrite Z.gcd_1_r in Hg. subst g.
  assert (aa = a) by lia. assert (bb = 1) by lia. subst aa bb. reflexivity.
Qed.

Lemma sage_div_exact (a b : Z) :
  b <> 0 -> sage_div (inject_Z (b * a)) (inject_Z b) = inject_Z a.
Proof.
  intros Hb. unfold sage_div.
  rewrite <- (Qred_inject_Z a). apply Qred_complete.
  rewrite inject_Z_mult. field.
  intros H. apply Hb. apply (eq_sym) in H.
  unfold Qeq, inject_Z in H. cbn in H. lia.
Qed.

Lemma sage_pow_nonneg (b e : Z) : 0 <= e -> sage_pow b e = inject_Z (b ^ e).
Proof.
  intros He. unfold sage_pow.
  destruct (0 <=? e) eqn:E; [reflexivity | lia].
Qed.

Lemma choose_0_r (n : nat) : choose n 0 = 1%nat.
Proof. destruct n; reflexivity. Qed.

Lemma choose_pascal (n k : nat) :
  choose (S n) (S k) = (choose n k + choose n (S k))%nat.
Proof. reflexivity. Qed.

Lemma choose_gt (n k : nat) : (n < k)%nat -> choose n k = 0%nat.
Proof.
  revert k. induction n as [|n IH]; intros k Hk.
  - destruct k; [lia | reflexivity].
  - destruct k; [lia |]. rewrite choose_pascal.
    rewrite IH by lia. rewrite IH by lia. reflexivity.
Qed.

Lemma choose_diag (n : nat) : choose n n = 1%nat.
Proof.
  induction n as [|n IH]; [reflexivity |].
  rewrite choose_pascal, IH, choose_gt by lia. reflexivity.
Qed.

(** [C(n, i+1) * (i+1) = C(n, i) * (n - i)], the step of the iteration. *)
Lemma choose_succ_r (n i : nat) :
  (Z.of_nat n - Z.of_nat i) * Z.of_nat (choose n i)
  = (Z.of_nat i + 1) * Z.of_nat (choose n (S i)).
Proof.
  revert i. induction n as [|n IH]; intros i.
  - destruct i; cbn; lia.
  - destruct i as [|i].
    + rewrite choose_pascal, !choose_0_r.
      specialize (IH 0%nat). rewrite choose_0_r in IH. lia.
    + rewrite !choose_pascal.
      pose proof (IH i) as H1. pose proof (IH (S i)) as H2.
      rewrite !Nat2Z.inj_add, !Nat2Z.inj_succ in *. nia.
Qed.

(** [(n+1-k) * C(n+1, k) = (n+1) * C(n, k)] *)
Lemma choose_succ_l (n k : nat) :
  (Z.of_nat n + 1 - Z.of_nat k) * Z.of_nat (choose (S n) k)
  = (Z.of_nat n + 1) * Z.of_nat (choose n k).
Proof.
  destruct k as [|k].
  - rewrite !choose_0_r. lia.
  - rewrite choose_pascal. pose proof (choose_succ_r n k) as H.
    rewrite Nat2Z.inj_add, Nat2Z.inj_succ. nia.
Qed.

Lemma choose_le_pow (m r : nat) : (choose (m + r) r <= (r + 1) ^ m)%nat.
Proof.
  induction m as [|m IH].
  - cbn [Nat.add Nat.pow]. rewrite choose_diag. lia.
  - pose proof (choose_succ_l (m + r) r) as H.
    replace (S m + r)%nat with (S (m + r)) by lia.
    cbn [Nat.pow].
    assert (Hz : Z.of_nat (choose (S (m + r)) r)
                 <= Z.of_nat ((r + 1) * (r + 1) ^ m)).
    { rewrite Nat2Z.inj_mul.
      assert (H0 : 0 <= Z.of_nat (choose (m + r) r)) by lia.
      assert (H1 : Z.of_nat (choose (m + r) r) <= Z.of_nat ((r + 1) ^ m)) by lia.
      rewrite Nat2Z.inj_add in H. nia. }
    lia.
Qed.

Lemma binomial_partial_sum_0_l (k : nat) : binomial_partial_sum 0 k = 1%nat.
Proof.
  induction k as [|k IH]; [reflexivity |].
  cbn [binomial_partial_sum]. rewrite IH. reflexivity.
Qed.

Lemma binomial_partial_sum_pascal (n k : nat) :
  binomial_partial_sum (S n) (S k)
  = (binomial_partial_sum n k + binomial_partial_sum n (S k))%nat.
Proof.
  induction k as [|k IH].
  - cbn [binomial_partial_sum]. rewrite choose_pascal, !choose_0_r. lia.
  - cbn [binomial_partial_sum] in *. rewrite IH, (choose_pascal n (S k)). lia.
Qed.

Lemma binomial_partial_sum_le_pow (n k : nat) :
  (binomial_partial_sum n k <= 2 ^ n)%nat.
Proof.
  revert k. induction n as [|n IH]; intros k.
  - rewrite binomial_partial_sum_0_l. cbn. lia.
  - destruct k as [|k].
    + cbn [binomial_partial_sum]. rewrite choose_0_r.
      pose proof (Nat.pow_nonzero 2 (S n)). lia.
    + rewrite binomial_partial_sum_pascal. cbn [Nat.pow].
      pose proof (IH k). pose proof (IH (S k)). lia.
Qed.

Lemma binomial_sum_loop (n a len : nat) :
  fold_left
    (fun (st : Q * Q) (i : Z) =>
       let (nCi, s) := st in
       let nCi := sage_div (inject_Z (Z.of_nat n - i) * nCi)%Q
                           (inject_Z (i + 1)) in
       (nCi, Qred (nCi + s)%Q))
    (map Z.of_nat (seq a len))
    (inject_Z (Z.of_nat (choose n a)),
     inject_Z (Z.of_nat (binomial_partial_sum n a)))
  = (inject_Z (Z.of_nat (choose n (a + len))),
     inject_Z (Z.of_nat (binomial_partial_sum n (a + len)))).
Proof.
  revert a. induction len as [|len IH]; intros a.
  - cbn. rewrite Nat.add_0_r. reflexivity.
  - cbn [seq map fold_left].
    assert (Hstep : sage_div (inject_Z (Z.of_nat n - Z.of_nat a)
                              * inject_Z (Z.of_nat (choose n a)))%Q
                             (inject_Z (Z.of_nat a + 1))
                    = inject_Z (Z.of_nat (choose n (S a)))).
    { rewrite <- inject_Z_mult, choose_succ_r.
      apply sage_div_exact. lia. }
    rewrite Hstep.
    assert (Hsum : Qred (inject_Z (Z.of_nat (choose n (S a)))
                         + inject_Z (Z.of_nat (binomial_partial_sum n a)))%Q
                   = inject_Z (Z.of_nat (binomial_partial_sum n (S a)))).
    { rewrite <- inject_Z_plus, Qred_inject_Z.
      cbn [binomial_partial_sum]. f_equal. lia. }
    rewrite Hsum, IH. replace (S a + len)%nat with (a + S len)%nat by lia.
    reflexivity.
Qed.

Lemma binomial_sum_closed_form (n k : nat) :
  _binomial_sum (Z.of_nat n) (Z.of_nat k)
  = inject_Z (Z.of_nat (binomial_partial_sum n k)).
Proof.
  unfold _binomial_sum, range. rewrite Nat2Z.id.
  pose proof (binomial_sum_loop n 0 k) as H.
  cbn [binomial_partial_sum Nat.add] in H. rewrite choose_0_r in H.
  change (inject_Z (Z.of_nat 1)) with 1%Q in H.
  rewrite H. reflexivity.
Qed.

Lemma binomial_nonneg (n k : Z) :
  0 <= n -> 0 <= k ->
  binomial n k = Z.of_nat (choose (Z.to_nat n) (Z.to_nat k)).
Proof.
  intros Hn Hk. unfold binomial.
  destruct (k <? 0) eqn:E1; [lia |].
  destruct (0 <=? n) eqn:E2; [reflexivity | lia].
Qed.

Lemma inject_Z_le (a b : Z) : a <= b -> (inject_Z a <= inject_Z b)%Q.
Proof. intros H. rewrite <- Zle_Qle. exact H. Qed.

(** ** The code parameters *)

(** C3: for [0 <= r], [0 <= m], the q-ary code with [r < q] has length
    [q^m] and dimension [C(m+r, r)], the binary code with [r <= m] has
    length [2^m] and as dimension the partial binomial sum
    [C(m,0) + ... + C(m,r)], each term of which is the previous one
    times [m - i], divided (exactly) by [i + 1]; in both cases the
    dimension is at most the length. *)
Theorem dimension_formulas (K : FiniteField) (r m : Z) :
  0 <= r -> 0 <= m ->
  (r < cardinality K ->
   exists C,
     QAryReedMullerCode.__init__ (IsFiniteField K) (Integer r) (Integer m) = Ok C
     /\ AbstractLinearCode.length C = cardinality K ^ m
     /\ AbstractLinearCode.dimension C
        = inject_Z (Z.of_nat (choose (Z.to_nat (m + r)) (Z.to_nat r)))
     /\ (AbstractLinearCode.dimension C
         <= inject_Z (AbstractLinearCode.length C))%Q)
  /\ (r <= m ->
      exists C,
        BinaryReedMullerCode.__init__ (Integer r) (Integer m) = Ok C
        /\ AbstractLinearCode.length C = 2 ^ m
        /\ AbstractLinearCode.dimension C
           = inject_Z (Z.of_nat (binomial_partial_sum (Z.to_nat m) (Z.to_nat r)))
        /\ (AbstractLinearCode.dimension C
            <= inject_Z (AbstractLinearCode.length C))%Q
        /\ forall i, 0 <= i < r ->
             sage_div (inject_Z (m - i)
                       * inject_Z (Z.of_nat (choose (Z.to_nat m) (Z.to_nat i))))%Q
                      (inject_Z (i + 1))
             = inject_Z (Z.of_nat (choose (Z.to_nat m) (Z.to_nat (i + 1))))).
Proof.
  intros Hr Hm. split.
  - intros Hq. cbn [QAryReedMullerCode.__init__].
    destruct (cardinality K <=? r) eqn:E; [lia |].
    rewrite sage_pow_nonneg by exact Hm.
    cbn [AbstractLinearCode.__init__ inject_Z Qden Qnum Pos.eqb bind].
    eexists. split; [reflexivity |].
    cbn [AbstractLinearCode.length AbstractLinearCode.dimension
         length_ _dimension].
    split; [reflexivity |].
    rewrite binomial_nonneg by lia.
    split; [reflexivity |].
    apply inject_Z_le.
    replace (Z.to_nat (m + r)) with (Z.to_nat m + Z.to_nat r)%nat by lia.
    pose proof (choose_le_pow (Z.to_nat m) (Z.to_nat r)) as H.
    apply Nat2Z.inj_le in H. rewrite Nat2Z.inj_pow in H.
    rewrite Nat2Z.inj_add, !Z2Nat.id in H by lia.
    eapply Z.le_trans; [exact H |].
    apply Z.pow_le_mono_l. cbn. lia.
  - intros Hle. cbn [BinaryReedMullerCode.__init__].
    destruct (m <? r) eqn:E; [lia |].
    rewrite sage_pow_nonneg by exact Hm.
    cbn [AbstractLinearCode.__init__ inject_Z Qden Qnum Pos.eqb bind].
    eexists. split; [reflexivity |].
    cbn [AbstractLinearCode.length AbstractLinearCode.dimension
         length_ _dimension].
    split; [reflexivity |].
    pose proof (binomial_sum_closed_form (Z.to_nat m) (Z.to_nat r)) as HB.
    rewrite !Z2Nat.id in HB by lia. rewrite HB.
    split; [reflexivity |].
    split.
    + apply inject_Z_le.
      pose proof (binomial_partial_sum_le_pow (Z.to_nat m) (Z.to_nat r)) as H.
      apply Nat2Z.inj_le in H. rewrite Nat2Z.inj_pow in H.
      rewrite Z2Nat.id in H by lia. exact H.
    + intros i Hi.
      rewrite <- inject_Z_mult.
      pose proof (choose_succ_r (Z.to_nat m) (Z.to_nat i)) as H.
      rewrite !Z2Nat.id in H by lia. rewrite H.
      replace (Z.to_nat (i + 1)) with (S (Z.to_nat i)) by lia.
      apply sage_div_exact. lia.
Qed.

Lemma dimension_formulas_witness :
  0 <= 2 /\ 0 <= 4
  /\ (exists C,
        BinaryReedMullerCode.__init__ (Integer 2) (Integer 4) = Ok C
        /\ AbstractLinearCode.length C = 16
        /\ AbstractLinearCode.dimension C = inject_Z 11)
  /\ (exists C,
        QAryReedMullerCode.__init__ (IsFiniteField GF3) (Integer 2) (Integer 4)
        = Ok C
        /\ AbstractLinearCode.length C = 81
        /\ AbstractLinearCode.dimension C = inject_Z 15).
Proof.
  assert (H0 : 0 <= 2) by lia. assert (H1 : 0 <= 4) by lia.
  destruct (dimension_formulas GF3 2 4 H0 H1) as [Hq Hb].
  split; [exact H0 |]. split; [exact H1 |]. split.
  - destruct Hb as [C [HC [Hl [Hd _]]]]; [lia |].
    exists C. repeat split; assumption.
  - destruct Hq as [C [HC [Hl [Hd _]]]]; [cbn; lia |].
    exists C. repeat split; assumption.
Defined.

(** C5, as stated, fails: a negative order is accepted by both
    constructors. *)
Lemma negative_order_accepted :
  -1 < 0
  /\ (exists C, QAryReedMullerCode.__init__
                  (IsFiniteField GF3) (Integer (-1)) (Integer 2) = Ok C)
  /\ (exists C, BinaryReedMullerCode.__init__ (Integer (-1)) (Integer 2) = Ok C).
Proof.
  split; [lia |]. split; eexists; reflexivity.
Qed.

(** C5, amended: the q-ary constructor fails with [InvalidParameter]
    exactly when the base field is a finite field (the check that comes
    first) and [order] or [num_of_var] is not an integer, the binary
    constructor exactly when [order] or [num_of_var] is not an integer.
    With a negative number of variables construction fails as well, over
    any field and for any order: when the checks before it pass, with the
    error of the base class for the length [q^num_of_var], which is no
    integer.  The sign of the order is not looked at: a negative order
    with a non-negative number of variables is accepted. *)
Theorem invalid_parameter_iff (base_field : field_arg)
    (order num_of_var : pyarg) :
  ((exists w, QAryReedMullerCode.__init__ base_field order num_of_var
              = Raise (InvalidParameter w))
   <-> (exists K, base_field = IsFiniteField K)
       /\ (order = NotInteger \/ num_of_var = NotInteger))
  /\ ((exists w, BinaryReedMullerCode.__init__ order num_of_var
                 = Raise (InvalidParameter w))
      <-> order = NotInteger \/ num_of_var = NotInteger)
  /\ (forall m, num_of_var = Integer m -> m < 0 ->
        (forall K, base_field = IsFiniteField K -> field_laws K) ->
        (forall C, QAryReedMullerCode.__init__ base_field order num_of_var
                   <> Ok C)
        /\ (forall C, BinaryReedMullerCode.__init__ order num_of_var <> Ok C)
        /\ (forall K r, base_field = IsFiniteField K -> order = Integer r ->
              r < cardinality K ->
              QAryReedMullerCode.__init__ base_field order num_of_var
              = Raise InvalidLength)
        /\ (forall r, order = Integer r -> r <= m ->
              BinaryReedMullerCode.__init__ order num_of_var
              = Raise InvalidLength))
  /\ (forall K r m, base_field = IsFiniteField K ->
        order = Integer r -> num_of_var = Integer m ->
        r < 0 -> 0 <= m ->
        (exists C, QAryReedMullerCode.__init__ base_field order num_of_var
                   = Ok C)
        /\ (exists C, BinaryReedMullerCode.__init__ order num_of_var = Ok C)).
Proof.
  assert (Hlength : forall q m, 2 <= q -> m < 0 ->
             AbstractLinearCode.__init__ (sage_pow q m) = Raise InvalidLength).
  { intros q m Hq Hm. unfold AbstractLinearCode.__init__, sage_pow.
    destruct (Z.leb_spec 0 m) as [H | _]; [lia |].
    assert (Hpow : 2 <= q ^ (- m)).
    { replace 2 with (2 ^ 1) by reflexivity.
      transitivity (q ^ 1); [rewrite !Z.pow_1_r; exact Hq |].
      apply Z.pow_le_mono_r; lia. }
    destruct (q ^ (- m)) as [|d|d] eqn:Ed; try lia.
    destruct (Pos.eqb_spec (Qden (sage_div 1 (inject_Z (Z.pos d)))) 1)
      as [E | _]; [exfalso | reflexivity].
    pose proof (Qred_correct (1 / inject_Z (Z.pos d))) as Hc.
    unfold sage_div in E. unfold Qeq in Hc. rewrite E in Hc.
    cbn in Hc. nia. }
  split; [| split; [| split]].
  - split.
    + intros [w H]. destruct base_field as [K|]; [| discriminate].
      split; [exists K; reflexivity |].
      destruct order as [r|]; [| now left].
      destruct num_of_var as [m|]; [| now right].
      exfalso. cbn [QAryReedMullerCode.__init__] in H.
      destruct (cardinality K <=? r); [discriminate |].
      unfold AbstractLinearCode.__init__ in H.
      destruct (Qden (sage_pow (cardinality K) m) =? 1)%positive;
        discriminate.
    + intros [[K ->] [H | H]]; subst.
      * exists POrder. reflexivity.
      * destruct order; [exists PNumOfVar | exists POrder]; reflexivity.
  - split.
    + intros [w H]. destruct order as [r|]; [| now left].
      destruct num_of_var as [m|]; [| now right].
      exfalso. cbn [BinaryReedMullerCode.__init__] in H.
      destruct (m <? r); [discriminate |].
      unfold AbstractLinearCode.__init__ in H.
      destruct (Qden (sage_pow 2 m) =? 1)%positive; discriminate.
    + intros [H | H]; subst.
      * exists POrder. reflexivity.
      * destruct order; [exists PNumOfVar | exists POrder]; reflexivity.
  - intros m -> Hm Hfield.
    assert (HQ : forall K r, base_field = IsFiniteField K ->
               order = Integer r -> r < cardinality K ->
               QAryReedMullerCode.__init__ base_field order (Integer m)
               = Raise InvalidLength).
    { intros K r -> -> Hr. cbn [QAryReedMullerCode.__init__].
      destruct (Z.leb_spec (cardinality K) r) as [H | _]; [lia |].
      rewrite Hlength; [reflexivity | | exact Hm].
      apply cardinality_ge_2. apply Hfield. reflexivity. }
    assert (HB : forall r, order = Integer r -> r <= m ->
               BinaryReedMullerCode.__init__ order (Integer m)
               = Raise InvalidLength).
    { intros r -> Hr. cbn [BinaryReedMullerCode.__init__].
      destruct (Z.ltb_spec m r) as [H | _]; [lia |].
      rewrite Hlength; [reflexivity | lia | exact Hm]. }
    split; [| split; [| split; [exact HQ | exact HB]]].
    + intros C H. destruct base_field as [K|]; [| discriminate].
      destruct order as [r|]; [| discriminate].
      destruct (Z.ltb_spec r (cardinality K)) as [Hr | Hr].
      * rewrite (HQ K r eq_refl eq_refl Hr) in H. discriminate.
      * cbn [QAryReedMullerCode.__init__] in H.
        destruct (Z.leb_spec (cardinality K) r) as [_ | H']; [| lia].
        discriminate.
    + intros C H. destruct order as [r|]; [| discriminate].
      destruct (Z.leb_spec r m) as [Hr | Hr].
      * rewrite (HB r eq_refl Hr) in H. discriminate.
      * cbn [BinaryReedMullerCode.__init__] in H.
        destruct (Z.ltb_spec m r) as [_ | H']; [| lia].
        discriminate.
  - intros K r m -> -> -> Hr Hm. split.
    + cbn [QAryReedMullerCode.__init__].
      assert (0 <= cardinality K) by (unfold cardinality; lia).
      destruct (Z.leb_spec (cardinality K) r) as [H' | _]; [lia |].
      rewrite sage_pow_nonneg by exact Hm.
      eexists. reflexivity.
    + cbn [BinaryReedMullerCode.__init__].
      destruct (Z.ltb_spec m r) as [H' | _]; [lia |].
      rewrite sage_pow_nonneg by exact Hm.
      eexists. reflexivity.
Qed.

(** C6: with integers for [order] and [num_of_var], the q-ary
    constructor fails with [OrderTooLarge] exactly when [q <= order], the
    binary one exactly when [num_of_var < order]; otherwise, the length
    [q^num_of_var] being an integer, construction succeeds. *)
Theorem order_too_large_iff (K : FiniteField) (order num_of_var : Z) :
  ((exists b, QAryReedMullerCode.__init__
                (IsFiniteField K) (Integer order) (Integer num_of_var)
              = Raise (OrderTooLarge b))
   <-> cardinality K <= order)
  /\ ((exists b, BinaryReedMullerCode.__init__
                   (Integer order) (Integer num_of_var)
                 = Raise (OrderTooLarge b))
      <-> num_of_var < order)
  /\ (order < cardinality K -> 0 <= num_of_var ->
      exists C, QAryReedMullerCode.__init__
                  (IsFiniteField K) (Integer order) (Integer num_of_var)
                = Ok C)
  /\ (order <= num_of_var -> 0 <= num_of_var ->
      exists C, BinaryReedMullerCode.__init__
                  (Integer order) (Integer num_of_var)
                = Ok C).
Proof.
  cbn [QAryReedMullerCode.__init__ BinaryReedMullerCode.__init__].
  split; [| split; [| split]].
  - destruct (cardinality K <=? order) eqn:E.
    + split; [lia | intros _; eexists; reflexivity].
    + split; [| lia]. intros [b H]. exfalso.
      unfold AbstractLinearCode.__init__ in H.
      destruct (Qden (sage_pow (cardinality K) num_of_var) =? 1)%positive;
        discriminate.
  - destruct (num_of_var <? order) eqn:E.
    + split; [lia | intros _; eexists; reflexivity].
    + split; [| lia]. intros [b H]. exfalso.
      unfold AbstractLinearCode.__init__ in H.
      destruct (Qden (sage_pow 2 num_of_var) =? 1)%positive; discriminate.
  - intros Ho Hm. destruct (cardinality K <=? order) eqn:E; [lia |].
    rewrite sage_pow_nonneg by exact Hm. eexists. reflexivity.
  - intros Ho Hm. destruct (num_of_var <? order) eqn:E; [lia |].
    rewrite sage_pow_nonneg by exact Hm. eexists. reflexivity.
Qed.

(** C8 at [GF(3)], order 1, no variable: the q-ary [minimum_distance()]
    is [2/3], which is no integer. *)
Lemma minimum_distance_not_integral :
  exists C,
    QAryReedMullerCode.__init__ (IsFiniteField GF3) (Integer 1) (Integer 0) = Ok C
    /\ minimum_distance C = (2 # 3)%Q
    /\ forall z, minimum_distance C <> inject_Z z.
Proof.
  eexists. split; [reflexivity |]. split; [reflexivity |].
  intros z H. vm_compute in H. discriminate.
Qed.

(** C9, as stated, fails: a q-ary code over a field with two elements is
    not equal to the binary code with the same order and number of
    variables. *)
Lemma code_eq_across_classes :
  exists C1 C2,
    QAryReedMullerCode.__init__ (IsFiniteField GF2) (Integer 1) (Integer 2) = Ok C1
    /\ BinaryReedMullerCode.__init__ (Integer 1) (Integer 2) = Ok C2
    /\ cardinality (base_field C1) = cardinality (base_field C2)
    /\ order C1 = order C2
    /\ number_of_variables C1 = number_of_variables C2
    /\ code_eq C1 C2 = false /\ code_eq C2 C1 = false.
Proof.
  do 2 eexists. repeat split; reflexivity.
Qed.

Lemma constructed_inv (C : Code) :
  constructed C ->
  0 <= number_of_variables C
  /\ AbstractLinearCode.length C
     = cardinality (base_field C) ^ number_of_variables C
  /\ match cls C with
     | QAry => order C < cardinality (base_field C)
     | Binary => base_field C = GF2 /\ order C <= number_of_variables C
     end.
Proof.
  assert (Hlen : forall b e n,
             AbstractLinearCode.__init__ (sage_pow b e) = Ok n ->
             1 < b -> 0 <= e /\ n = b ^ e).
  { intros b e n H Hb. unfold sage_pow in H.
    destruct (0 <=? e) eqn:E.
    - cbn in H. injection H as <-. lia.
    - exfalso. unfold AbstractLinearCode.__init__ in H.
      destruct (Qden (sage_div 1 (inject_Z (b ^ (- e)))) =? 1)%positive eqn:E1;
        [| discriminate].
      apply Pos.eqb_eq in E1.
      assert (Hp : 1 < b ^ (- e)).
      { apply Z.pow_gt_1; lia. }
      unfold sage_div in E1.
      pose proof (Qred_correct (1 / inject_Z (b ^ (- e)))) as Hq.
      destruct (Qred (1 / inject_Z (b ^ (- e)))) as [num den].
      cbn in E1. subst den.
      unfold Qeq, Qdiv, Qmult, Qinv, inject_Z in Hq. cbn in Hq.
      destruct (b ^ (- e)) as [|p|p] eqn:Eb; try lia.
      cbn in Hq.
      assert (Hn : num * Z.pos p = 1) by lia.
      assert (0 < num) by nia. nia. }
  intros [[K [o [m [HK H]]]] | [o [m H]]].
  - destruct o as [r|]; [| discriminate]. destruct m as [m|]; [| discriminate].
    cbn [QAryReedMullerCode.__init__] in H.
    destruct (cardinality K <=? r) eqn:E; [discriminate |].
    destruct (AbstractLinearCode.__init__ (sage_pow (cardinality K) m))
      as [n|] eqn:En; [| discriminate].
    cbn [bind] in H. injection H as <-.
    unfold number_of_variables, order. cbn.
    apply Hlen in En; [| pose proof (cardinality_ge_2 K HK); lia].
    destruct En as [Hm ->]. repeat split; lia.
  - destruct o as [r|]; [| discriminate]. destruct m as [m|]; [| discriminate].
    cbn [BinaryReedMullerCode.__init__] in H.
    destruct (m <? r) eqn:E; [discriminate |].
    destruct (AbstractLinearCode.__init__ (sage_pow 2 m))
      as [n|] eqn:En; [| discriminate].
    cbn [bind] in H. injection H as <-.
    unfold number_of_variables, order. cbn.
    apply Hlen in En; [| lia]. destruct En as [Hm ->]. repeat split; lia.
Qed.

Lemma constructed_cardinality (C : Code) :
  constructed C -> 2 <= cardinality (base_field C).
Proof.
  intros [[K [o [m [HK H]]]] | [o [m H]]].
  - destruct o as [r|]; [| discriminate]. destruct m as [m|]; [| discriminate].
    cbn [QAryReedMullerCode.__init__] in H.
    destruct (cardinality K <=? r); [discriminate |].
    destruct (AbstractLinearCode.__init__ (sage_pow (cardinality K) m));
      [| discriminate].
    cbn [bind] in H. injection H as <-. cbn [base_field].
    apply cardinality_ge_2. exact HK.
  - destruct o as [r|]; [| discriminate]. destruct m as [m|]; [| discriminate].
    cbn [BinaryReedMullerCode.__init__] in H.
    destruct (m <? r); [discriminate |].
    destruct (AbstractLinearCode.__init__ (sage_pow 2 m)); [| discriminate].
    cbn [bind] in H. injection H as <-. cbn. lia.
Qed.

(** C9, amended: two constructed codes are equal exactly when they are
    of the same class and have the same field cardinality, order and
    number of variables. *)
Theorem code_eq_iff (C1 C2 : Code) :
  constructed C1 -> constructed C2 ->
  (code_eq C1 C2 = true
   <-> cls C1 = cls C2
       /\ cardinality (base_field C1) = cardinality (base_field C2)
       /\ order C1 = order C2
       /\ number_of_variables C1 = number_of_variables C2).
Proof.
  intros H1 H2.
  apply constructed_inv in H1. apply constructed_inv in H2.
  destruct H1 as [_ [_ H1]], H2 as [_ [_ H2]].
  unfold code_eq, QAryReedMullerCode.__eq__, BinaryReedMullerCode.__eq__,
    order, number_of_variables,
    QAryReedMullerCode.order, QAryReedMullerCode.number_of_variables,
    BinaryReedMullerCode.order, BinaryReedMullerCode.number_of_variables in *.
  destruct (cls C1), (cls C2);
    rewrite ?andb_true_iff, ?Z.eqb_eq;
    try (split; [discriminate | intros [? _]; discriminate]).
  - intuition.
  - destruct H1 as [E1 _], H2 as [E2 _]. rewrite E1, E2. intuition.
Qed.

Lemma code_eq_iff_witness :
  exists C1 C2,
    constructed C1 /\ constructed C2
    /\ (code_eq C1 C2 = true
        <-> cls C1 = cls C2
            /\ cardinality (base_field C1) = cardinality (base_field C2)
            /\ order C1 = order C2
            /\ number_of_variables C1 = number_of_variables C2).
Proof.
  assert (H1 : constructed
                 {| cls := QAry; base_field := GF3; length_ := 9; _order := 2;
                    _num_of_var := 2; _dimension := inject_Z 6 |}).
  { left. exists GF3, (Integer 2), (Integer 2).
    split; [exact GF3_laws | reflexivity]. }
  assert (H2 : constructed
                 {| cls := Binary; base_field := GF2; length_ := 4; _order := 1;
                    _num_of_var := 2; _dimension := inject_Z 3 |}).
  { right. exists (Integer 1), (Integer 2). reflexivity. }
  do 2 eexists. split; [exact H1 |]. split; [exact H2 |].
  apply (code_eq_iff _ _ H1 H2).
Defined.


(** ** Lists and loops *)

Lemma mapM_ok {A B : Type} (f : A -> result B) (g : A -> B) (l : list A) :
  (forall a, In a l -> f a = Ok (g a)) -> mapM f l = Ok (map g l).
Proof.
  induction l as [|a l IH]; intros H; [reflexivity |].
  cbn [mapM map]. rewrite (H a) by (left; reflexivity).
  cbn [bind]. rewrite IH by (intros; apply H; right; assumption).
  reflexivity.
Qed.

Lemma index_nth {A : Type} (l : list A) (i : nat) (d : A) :
  (i < List.length l)%nat -> index l (Z.of_nat i) = Ok (nth i l d).
Proof.
  intros H. unfold index.
  destruct (Z.of_nat i <? 0) eqn:E; [lia |].
  rewrite Nat2Z.id.
  destruct (nth_error l i) as [a|] eqn:En.
  - f_equal. symmetry. apply nth_error_nth. exact En.
  - apply nth_error_None in En. lia.
Qed.

Lemma index_cons_0 {A : Type} (a : A) (l : list A) : index (a :: l) 0 = Ok a.
Proof. reflexivity. Qed.

Lemma range_of_nat (n : nat) : range (Z.of_nat n) = map Z.of_nat (seq 0 n).
Proof. unfold range. rewrite Nat2Z.id. reflexivity. Qed.

Lemma list_nat_eqb_eq (a b : list nat) : list_nat_eqb a b = true <-> a = b.
Proof.
  revert b. induction a as [|x a IH]; intros [|y b]; cbn;
    try (split; [reflexivity | reflexivity]);
    try (split; discriminate).
  rewrite andb_true_iff, Nat.eqb_eq, IH.
  split; [intros [-> ->]; reflexivity | intros [= -> ->]; auto].
Qed.

Lemma list_nat_eqb_refl (a : list nat) : list_nat_eqb a a = true.
Proof. apply list_nat_eqb_eq. reflexivity. Qed.

Lemma list_nat_eqb_neq (a b : list nat) : a <> b -> list_nat_eqb a b = false.
Proof.
  intros H. destruct (list_nat_eqb a b) eqn:E; [| reflexivity].
  apply list_nat_eqb_eq in E. contradiction.
Qed.

Lemma Tuples_elem_length {A : Type} (l : list A) (k : nat) (x : list A) :
  In x (Tuples l k) -> List.length x = k.
Proof.
  revert x. induction k as [|k IH]; intros x H.
  - cbn in H. destruct H as [<- | []]. reflexivity.
  - cbn [Tuples] in H. apply in_flat_map in H. destruct H as [s [_ H]].
    apply in_map_iff in H. destruct H as [y [<- Hy]].
    rewrite length_app, (IH y Hy). cbn. lia.
Qed.

Lemma flat_map_length_const {A B : Type} (f : A -> list B) (l : list A) (n : nat) :
  (forall a, List.length (f a) = n) ->
  List.length (flat_map f l) = (List.length l * n)%nat.
Proof.
  intros H. induction l as [|a l IH]; [reflexivity |].
  cbn [flat_map List.length]. rewrite length_app, H, IH. lia.
Qed.

Lemma Tuples_length {A : Type} (l : list A) (k : nat) :
  List.length (Tuples l k) = (List.length l ^ k)%nat.
Proof.
  induction k as [|k IH]; [reflexivity |].
  cbn [Tuples Nat.pow].
  rewrite (flat_map_length_const _ _ (List.length l ^ k)%nat).
  - reflexivity.
  - intros a. rewrite length_map. exact IH.
Qed.

(** The grid order: in [Tuples l (k+1)], the point at index
    [i + j * |l|^k] is the [i]-th point of [Tuples l k] followed by the
    [j]-th element of [l]. *)
Lemma flat_map_nth_block {A B : Type} (f : A -> list B) (l : list A)
    (n i j : nat) (da : A) (db : B) :
  (forall a, List.length (f a) = n) ->
  (i < n)%nat -> (j < List.length l)%nat ->
  nth (i + j * n) (flat_map f l) db = nth i (f (nth j l da)) db.
Proof.
  intros Hlen Hi. revert j. induction l as [|a l IH]; intros j Hj.
  - cbn in Hj. lia.
  - cbn [flat_map]. destruct j as [|j].
    + cbn [Nat.mul nth]. rewrite Nat.add_0_r.
      apply app_nth1. rewrite Hlen. exact Hi.
    + rewrite app_nth2 by (rewrite Hlen; lia).
      rewrite Hlen. cbn [nth].
      replace (i + S j * n - n)%nat with (i + j * n)%nat by lia.
      apply IH. cbn in Hj. lia.
Qed.

Lemma Tuples_nth {A : Type} (l : list A) (k i j : nat) (d : A) :
  (i < List.length l ^ k)%nat -> (j < List.length l)%nat ->
  nth (i + j * List.length l ^ k) (Tuples l (S k)) []
  = nth i (Tuples l k) [] ++ [nth j l d].
Proof.
  intros Hi Hj. cbn [Tuples].
  rewrite (flat_map_nth_block _ l (List.length l ^ k)%nat i j d []).
  - rewrite (nth_indep _ [] ([] ++ [nth j l d]))
      by (rewrite length_map, Tuples_length; exact Hi).
    apply (map_nth (fun x => x ++ [nth j l d])).
  - intros a. rewrite length_map. apply Tuples_length.
  - exact Hi.
  - exact Hj.
Qed.

Lemma next_in_nth {A : Type} (eqb : A -> A -> bool) (l : list A) (i : nat) (d : A) :
  (forall x y, eqb x y = true <-> x = y) ->
  NoDup l -> (S i < List.length l)%nat ->
  next_in eqb l (nth i l d) = Some (nth (S i) l d).
Proof.
  intros Heqb. revert i. induction l as [|y l IH]; intros i Hnd Hi.
  - cbn in Hi. lia.
  - inversion Hnd as [|? ? Hy Hnd']; subst. cbn [next_in].
    destruct i as [|i].
    + cbn [nth]. rewrite (proj2 (Heqb y y) eq_refl).
      destruct l; [cbn in Hi; lia | reflexivity].
    + cbn [nth]. cbn in Hi.
      destruct (eqb y (nth i l d)) eqn:E.
      * apply Heqb in E. exfalso. apply Hy. rewrite E.
        apply nth_In. lia.
      * apply IH; [exact Hnd' | lia].
Qed.

Lemma next_in_last {A : Type} (eqb : A -> A -> bool) (l : list A) (n : nat)
    (d : A) :
  (forall x y, eqb x y = true <-> x = y) ->
  NoDup l -> List.length l = S n ->
  next_in eqb l (nth n l d) = None.
Proof.
  intros Heqb. revert n. induction l as [|y l IH]; intros n Hnd Hn;
    [discriminate |].
  inversion Hnd as [|? ? Hy Hnd']; subst. cbn [next_in].
  cbn [List.length] in Hn. injection Hn as Hn.
  destruct n as [|n].
  - cbn [nth]. rewrite (proj2 (Heqb y y) eq_refl).
    destruct l; [reflexivity | discriminate].
  - cbn [nth]. destruct (eqb y (nth n l d)) eqn:E.
    + apply Heqb in E. exfalso. apply Hy. rewrite E. apply nth_In. lia.
    + apply IH; [exact Hnd' | exact Hn].
Qed.

Lemma hd_error_rev_nth {A : Type} (l : list A) (d : A) :
  l <> [] -> hd_error (rev l) = Some (nth (pred (List.length l)) l d).
Proof.
  intros H. destruct l as [|a l] using rev_ind; [contradiction |].
  rewrite rev_app_distr. cbn [rev app hd_error].
  rewrite length_app. cbn [List.length].
  replace (pred (List.length l + 1)) with (List.length l) by lia.
  rewrite app_nth2 by lia. rewrite Nat.sub_diag. reflexivity.
Qed.

Lemma foldM_app {A St : Type} (f : St -> A -> result St) (l l' : list A) (s : St) :
  foldM f (l ++ l') s = (s' <- foldM f l s ;; foldM f l' s').
Proof.
  revert s. induction l as [|a l IH]; intros s; [reflexivity |].
  cbn [app foldM]. destruct (f s a) as [s'|e]; [| reflexivity].
  cbn [bind]. apply IH.
Qed.

Lemma nth_map_const {A B : Type} (c : B) (l : list A) (k : nat) :
  nth k (map (fun _ => c) l) c = c.
Proof.
  revert k. induction l as [|a l IH]; intros [|k]; cbn; auto.
Qed.

Lemma In_firstn {A : Type} (n : nat) (l : list A) (x : A) :
  In x (firstn n l) -> In x l.
Proof.
  revert l. induction n as [|n IH]; intros [|a l] H; cbn in *; try contradiction.
  destruct H as [H | H]; [left; exact H | right; apply IH; exact H].
Qed.

Lemma NoDup_firstn' {A : Type} (n : nat) (l : list A) :
  NoDup l -> NoDup (firstn n l).
Proof.
  revert l. induction n as [|n IH]; intros [|a l] H; cbn; try constructor.
  - inversion H; subst. intros Hin. apply In_firstn in Hin. contradiction.
  - inversion H; subst. apply IH. assumption.
Qed.

Lemma map_nth_seq {A B : Type} (f : A -> B) (l : list A) (d : A) :
  map (fun i => f (nth i l d)) (seq 0 (List.length l)) = map f l.
Proof.
  induction l as [|a l IH]; [reflexivity |].
  cbn [List.length seq map nth]. f_equal.
  rewrite <- seq_shift, map_map. exact IH.
Qed.

(** ** Field arithmetic *)

Section FieldFacts.

Variable K : FiniteField.
Hypothesis HK : field_laws K.

Local Abbreviation F := (carrier K).
Local Notation "0" := (fzero K) : field_scope.
Local Notation "1" := (fone K) : field_scope.
Local Infix "+" := (fadd K) : field_scope.
Local Infix "*" := (fmul K) : field_scope.
Local Infix "-" := (fsub K) : field_scope.
Local Infix "/" := (fdiv K) : field_scope.
Local Notation "- x" := (fopp K x) : field_scope.
Local Open Scope field_scope.

Add Field K_field : (fl_field HK).

Lemma feqb_true (x y : F) : feqb K x y = true -> x = y.
Proof. apply (fl_eqb HK). Qed.

Lemma feqb_refl (x : F) : feqb K x x = true.
Proof. apply (fl_eqb HK). reflexivity. Qed.

Lemma feqb_false (x y : F) : feqb K x y = false -> x <> y.
Proof. intros H E. subst. rewrite feqb_refl in H. discriminate. Qed.

Lemma feqb_neq (x y : F) : x <> y -> feqb K x y = false.
Proof.
  intros H. destruct (feqb K x y) eqn:E; [| reflexivity].
  apply feqb_true in E. contradiction.
Qed.

Lemma fmul_integral (x y : F) : x * y = 0 -> x = 0 \/ y = 0.
Proof.
  intros H. destruct (feqb K x 0) eqn:E.
  - left. apply feqb_true. exact E.
  - right. apply feqb_false in E.
    assert (Hy : y = finv K x * (x * y)) by (field; exact E).
    rewrite Hy, H. ring.
Qed.

Lemma fsub_eq_0 (x y : F) : x - y = 0 -> x = y.
Proof.
  intros H. assert (E : x = (x - y) + y) by ring. rewrite E, H. ring.
Qed.

Lemma fpow_add (x : F) (a b : nat) : fpow K x (a + b) = fpow K x a * fpow K x b.
Proof.
  induction a as [|a IH]; cbn [fpow Nat.add]; [ring |].
  rewrite IH. ring.
Qed.

Lemma fpow_0_r (x : F) : fpow K x 0 = 1.
Proof. reflexivity. Qed.

(** *** Univariate polynomials *)

Lemma ueval_uadd (p q : upoly K) (x : F) :
  ueval K (uadd K p q) x = ueval K p x + ueval K q x.
Proof.
  revert q. induction p as [|a p IH]; intros [|b q]; cbn [uadd ueval];
    try ring.
  rewrite IH. ring.
Qed.

Lemma ueval_uscale (c : F) (p : upoly K) (x : F) :
  ueval K (uscale K c p) x = c * ueval K p x.
Proof.
  induction p as [|a p IH]; cbn [uscale map ueval]; [ring |].
  unfold uscale in IH. rewrite IH. ring.
Qed.

Lemma ueval_umul_linear (p : upoly K) (a x : F) :
  ueval K (umul_linear K p a) x = (x - a) * ueval K p x.
Proof.
  unfold umul_linear. rewrite ueval_uadd, ueval_uscale. cbn [ueval]. ring.
Qed.

Lemma length_uadd (p q : upoly K) :
  List.length (uadd K p q) = Nat.max (List.length p) (List.length q).
Proof.
  revert q. induction p as [|a p IH]; intros [|b q]; cbn [uadd List.length];
    try reflexivity.
  rewrite IH. reflexivity.
Qed.

Lemma length_uscale (c : F) (p : upoly K) :
  List.length (uscale K c p) = List.length p.
Proof. apply length_map. Qed.

Lemma length_umul_linear (p : upoly K) (a : F) :
  List.length (umul_linear K p a) = S (List.length p).
Proof.
  unfold umul_linear. rewrite length_uadd, length_uscale. cbn [List.length]. lia.
Qed.

Lemma nth_uadd (p q : upoly K) (k : nat) :
  nth k (uadd K p q) 0 = nth k p 0 + nth k q 0.
Proof.
  revert q k. induction p as [|a p IH]; intros [|b q] [|k]; cbn [uadd nth];
    try ring.
  apply IH.
Qed.

Lemma uquot_cons (c c' : F) (p : upoly K) (a : F) :
  uquot K (c :: c' :: p) a = ueval K (c' :: p) a :: uquot K (c' :: p) a.
Proof. reflexivity. Qed.

(** Division by [x - a]: [p(x) = p(a) + (x - a) * q(x)]. *)
Lemma ueval_uquot (p : upoly K) (a x : F) :
  ueval K p x = ueval K p a + (x - a) * ueval K (uquot K p a) x.
Proof.
  induction p as [|c p IH]; [cbn; ring |].
  destruct p as [|c' p]; [cbn; ring |].
  rewrite uquot_cons.
  change (ueval K (c :: c' :: p) x) with (c + x * ueval K (c' :: p) x).
  change (ueval K (c :: c' :: p) a) with (c + a * ueval K (c' :: p) a).
  change (ueval K (ueval K (c' :: p) a :: uquot K (c' :: p) a) x)
    with (ueval K (c' :: p) a + x * ueval K (uquot K (c' :: p) a) x).
  rewrite IH. ring.
Qed.

Lemma length_uquot (p : upoly K) (a : F) :
  List.length (uquot K p a) = pred (List.length p).
Proof.
  induction p as [|c p IH]; [reflexivity |].
  destruct p as [|c' p]; [reflexivity |].
  rewrite uquot_cons. cbn [List.length] in *. rewrite IH. reflexivity.
Qed.

Lemma uquot_zero (p : upoly K) (a : F) :
  ueval K p a = 0 -> Forall (eq 0) (uquot K p a) -> Forall (eq 0) p.
Proof.
  induction p as [|c p IH]; intros Ha Hq; [constructor |].
  destruct p as [|c' p].
  - cbn in Ha. constructor; [| constructor].
    rewrite <- Ha. ring.
  - rewrite uquot_cons in Hq.
    inversion Hq as [|? ? H0 Hq']; subst.
    assert (Hp : Forall (eq 0) (c' :: p)) by (apply IH; auto).
    constructor; [| exact Hp].
    cbn [ueval] in Ha, H0. rewrite <- H0 in Ha. rewrite <- Ha. ring.
Qed.

(** A polynomial with more roots than coefficients is zero. *)
Lemma roots_zero (xs : list F) (p : upoly K) :
  NoDup xs -> (List.length p <= List.length xs)%nat ->
  (forall x, In x xs -> ueval K p x = 0) ->
  Forall (eq 0) p.
Proof.
  revert p. induction xs as [|a xs IH]; intros p Hnd Hlen Hroots.
  - destruct p; [constructor | cbn in Hlen; lia].
  - inversion Hnd as [|? ? Ha Hnd']; subst.
    apply (uquot_zero p a); [apply Hroots; left; reflexivity |].
    apply IH; [exact Hnd' | |].
    + rewrite length_uquot. cbn in Hlen. lia.
    + intros x Hx.
      pose proof (ueval_uquot p a x) as E.
      rewrite (Hroots x) in E by (right; exact Hx).
      rewrite (Hroots a) in E by (left; reflexivity).
      assert (E' : (x - a) * ueval K (uquot K p a) x = 0).
      { transitivity (0 + (x - a) * ueval K (uquot K p a) x); [ring |].
        symmetry. exact E. }
      apply fmul_integral in E'. destruct E' as [E' | E']; [| exact E'].
      apply fsub_eq_0 in E'. subst. contradiction.
Qed.

Lemma nth_coefficients (p : upoly K) (k : nat) :
  nth k (coefficients K p) 0 = nth k p 0.
Proof.
  revert k. induction p as [|c p IH]; intros k; [reflexivity |].
  cbn [coefficients]. destruct (coefficients K p) as [|c' cs] eqn:E.
  - destruct (feqb K c 0) eqn:Ec.
    + apply feqb_true in Ec. subst c.
      destruct k as [|k]; [reflexivity |].
      cbn [nth]. rewrite <- IH. destruct k; reflexivity.
    + destruct k as [|k]; [reflexivity |].
      cbn [nth]. rewrite <- IH. destruct k; reflexivity.
  - destruct k as [|k]; [reflexivity |]. cbn [nth]. apply IH.
Qed.

Lemma length_coefficients (p : upoly K) :
  (List.length (coefficients K p) <= List.length p)%nat.
Proof.
  induction p as [|c p IH]; [reflexivity |].
  cbn [coefficients]. destruct (coefficients K p) as [|c' cs].
  - destruct (feqb K c 0); cbn; lia.
  - cbn [List.length] in *. lia.
Qed.

(** The invariant of Newton's scheme gives an interpolating polynomial
    with at most as many coefficients as there are points. *)
Lemma newton_spec (points seen : list (F * F)) (acc nodal : upoly K) :
  NoDup (map fst (seen ++ points)) ->
  (forall x y, In (x, y) seen -> ueval K acc x = y) ->
  (forall x, ueval K nodal x = 0 <-> In x (map fst seen)) ->
  (List.length acc <= List.length seen)%nat ->
  List.length nodal = S (List.length seen) ->
  exists L,
    newton K points acc nodal = Ok L
    /\ (forall x y, In (x, y) (seen ++ points) -> ueval K L x = y)
    /\ (List.length L <= List.length (seen ++ points))%nat.
Proof.
  revert seen acc nodal.
  induction points as [|[x y] rest IH]; intros seen acc nodal Hnd Hacc Hnod Hla Hln.
  - exists acc. rewrite app_nil_r. cbn [newton]. auto.
  - cbn [newton].
    assert (Hx : ~ In x (map fst seen)).
    { rewrite map_app in Hnd. cbn [map fst] in Hnd.
      apply NoDup_remove_2 in Hnd. intros Hin. apply Hnd.
      apply in_or_app. left. exact Hin. }
    assert (Hw : ueval K nodal x <> 0).
    { intros E. apply Hx. apply Hnod. exact E. }
    rewrite (feqb_neq _ _ Hw).
    replace (seen ++ (x, y) :: rest) with ((seen ++ [(x, y)]) ++ rest) in *
      by (rewrite <- app_assoc; reflexivity).
    apply IH.
    + exact Hnd.
    + intros x' y' Hin. rewrite ueval_uadd, ueval_uscale.
      apply in_app_or in Hin. destruct Hin as [Hin | [[= <- <-] | []]].
      * rewrite (Hacc _ _ Hin).
        assert (E : ueval K nodal x' = 0).
        { apply Hnod. apply in_map_iff. exists (x', y'). auto. }
        rewrite E. ring.
      * field. exact Hw.
    + intros x'. rewrite ueval_umul_linear, map_app, in_app_iff.
      cbn [map fst In]. rewrite <- Hnod. split.
      * intros E. apply fmul_integral in E. destruct E as [E | E].
        -- right. left. symmetry. apply fsub_eq_0. exact E.
        -- left. exact E.
      * intros [E | [E | []]].
        -- rewrite E. ring.
        -- subst x'. ring.
    + rewrite length_uadd, length_uscale, length_app. cbn [List.length]. lia.
    + rewrite length_umul_linear, length_app. cbn [List.length]. lia.
Qed.

(** Interpolating the values of a polynomial with [d] coefficients at [d]
    distinct points gives back, after padding, its coefficients. *)
Lemma lagrange_recovers (cs : list F) (xs : list F) :
  NoDup xs -> List.length cs = List.length xs ->
  exists L,
    lagrange_polynomial K (map (fun x => (x, ueval K cs x)) xs) = Ok L
    /\ (let polyVector := coefficients K L in
        let d := Z.of_nat (List.length xs) in
        if Z.of_nat (List.length polyVector) <? d
        then polyVector
             ++ map (fun _ => 0) (range (d - Z.of_nat (List.length polyVector)))
        else polyVector) = cs.
Proof.
  intros Hnd Hlen. set (pts := map (fun x => (x, ueval K cs x)) xs).
  assert (Hfst : map fst pts = xs).
  { unfold pts. rewrite map_map. cbn [fst]. apply map_id. }
  destruct (newton_spec pts [] [] [1]) as [L [HL [Hpass HlenL]]].
  - cbn [app]. rewrite Hfst. exact Hnd.
  - intros x y [].
  - intros x. cbn. split; [| intros []].
    intros E. apply (F_1_neq_0 (fl_field HK)). rewrite <- E. ring.
  - cbn. lia.
  - reflexivity.
  - exists L. split; [exact HL |].
    cbn [app] in Hpass, HlenL.
    assert (HlenL' : (List.length L <= List.length xs)%nat).
    { unfold pts in HlenL. rewrite length_map in HlenL. exact HlenL. }
    assert (Hz : Forall (eq 0) (uadd K L (uscale K (fopp K 1) cs))).
    { apply (roots_zero xs); [exact Hnd | |].
      - rewrite length_uadd, length_uscale. lia.
      - intros x Hx. rewrite ueval_uadd, ueval_uscale.
        rewrite (Hpass x (ueval K cs x)); [ring |].
        unfold pts. apply in_map_iff. exists x. auto. }
    assert (Hnth : forall k, nth k L 0 = nth k cs 0).
    { intros k.
      assert (E : nth k (uadd K L (uscale K (fopp K 1) cs)) 0 = 0).
      { destruct (Nat.lt_ge_cases k
                    (List.length (uadd K L (uscale K (fopp K 1) cs)))) as [Hk | Hk].
        - symmetry. apply (proj1 (Forall_nth _ _) Hz k 0 Hk).
        - apply nth_overflow. exact Hk. }
      rewrite nth_uadd in E.
      assert (E2 : nth k (uscale K (fopp K 1) cs) 0 = fopp K 1 * nth k cs 0).
      { unfold uscale.
        replace 0 with (fopp K 1 * 0) at 1 by ring.
        apply (map_nth (fmul K (fopp K 1))). }
      rewrite E2 in E.
      apply fsub_eq_0.
      transitivity (nth k L 0 + fopp K 1 * nth k cs 0); [ring | exact E]. }
    cbv zeta.
    pose proof (length_coefficients L) as Hlc.
    apply (nth_ext _ _ 0 0).
    + destruct (Z.of_nat (List.length (coefficients K L))
                <? Z.of_nat (List.length xs)) eqn:E.
      * rewrite length_app, length_map. unfold range.
        rewrite length_map, length_seq. lia.
      * lia.
    + intros k _. rewrite <- Hnth, <- (nth_coefficients L k).
      destruct (Z.of_nat (List.length (coefficients K L))
                <? Z.of_nat (List.length xs)) eqn:E; [| reflexivity].
      destruct (Nat.lt_ge_cases k (List.length (coefficients K L))) as [Hk | Hk].
      * apply app_nth1. exact Hk.
      * rewrite app_nth2 by exact Hk.
        rewrite (nth_overflow (coefficients K L)) by exact Hk.
        apply nth_map_const.
Qed.

(** *** The points gathered along the last variable *)

Lemma elements_nonempty : elements K <> [].
Proof.
  intros E. pose proof (fl_all HK 0) as H. rewrite E in H. exact H.
Qed.

Lemma gather_loop (evaluation : list F) (k n : Z) (g : nat -> F)
    (len a : nat) (acc : list (F * F)) :
  (a + len <= List.length (elements K))%nat ->
  (forall i, (i < a + len)%nat ->
             index evaluation (k + Z.of_nat i * n) = Ok (g i)) ->
  exists x,
    foldM (gather_step K evaluation k n) (map Z.of_nat (seq a len))
          (nth a (elements K) 0, acc)
    = Ok (x, acc ++ map (fun i => (nth i (elements K) 0, g i)) (seq a len)).
Proof.
  revert a acc. induction len as [|len IH]; intros a acc Ha Hg.
  - cbn. rewrite app_nil_r. eexists. reflexivity.
  - cbn [seq map foldM]. unfold gather_step at 1.
    rewrite Hg by lia. cbn [bind].
    unfold last. rewrite (hd_error_rev_nth _ 0 elements_nonempty).
    cbn [of_option bind].
    set (q := List.length (elements K)) in *.
    destruct (Nat.eq_dec (S a) q) as [Elast | Hnl].
    + (* the last element: the coordinate stays, and the loop ends *)
      assert (len = 0)%nat by lia. subst len.
      replace (pred q) with a by lia. rewrite feqb_refl.
      cbn. eexists. reflexivity.
    + assert (Hne : nth a (elements K) 0 <> nth (pred q) (elements K) 0).
      { intros E. apply (proj1 (NoDup_nth (elements K) 0) (fl_nodup HK)) in E;
          unfold q in *; lia. }
      rewrite (feqb_neq _ _ Hne). cbn [negb].
      unfold next. rewrite (next_in_nth (feqb K) (elements K) a 0);
        [| apply (fl_eqb HK) | apply (fl_nodup HK) | unfold q in *; lia].
      cbn [of_option bind].
      destruct (IH (S a) (acc ++ [(nth a (elements K) 0, g a)])) as [x Hx].
      * lia.
      * intros i Hi. apply Hg. lia.
      * exists x. rewrite Hx. rewrite <- app_assoc. reflexivity.
Qed.

Lemma gather_points_spec (evaluation : list F) (k n : Z) (g : nat -> F) (d : nat) :
  (d <= List.length (elements K))%nat ->
  (forall i, (i < d)%nat -> index evaluation (k + Z.of_nat i * n) = Ok (g i)) ->
  gather_points K evaluation k n (Z.of_nat d)
  = Ok (map (fun i => (nth i (elements K) 0, g i)) (seq 0 d)).
Proof.
  intros Hd Hg. unfold gather_points, first.
  pose proof elements_nonempty as Hne.
  destruct (elements K) as [|a l] eqn:E; [contradiction |].
  cbn [hd_error of_option bind]. rewrite range_of_nat.
  destruct (gather_loop evaluation k n g d 0 []) as [x Hx].
  - rewrite E. exact Hd.
  - exact Hg.
  - rewrite E in Hx. cbn [nth] in Hx. rewrite Hx. reflexivity.
Qed.

(** One row of [multipoint_evaluation_list]: when the evaluations along
    the last variable are the values of the polynomial with the [d]
    coefficients [cs], the row is [cs]. *)
Lemma slice_coefficients_spec (evaluation : list F) (n k : Z) (cs : list F) :
  (List.length cs <= List.length (elements K))%nat ->
  (forall i, (i < List.length cs)%nat ->
             index evaluation (k + Z.of_nat i * n)
             = Ok (ueval K cs (nth i (elements K) 0))) ->
  slice_coefficients K evaluation n (Z.of_nat (List.length cs)) k = Ok cs.
Proof.
  intros Hd Hev. unfold slice_coefficients.
  rewrite (gather_points_spec evaluation k n
             (fun i => ueval K cs (nth i (elements K) 0)) _ Hd Hev).
  cbn [bind].
  set (xs := firstn (List.length cs) (elements K)).
  assert (Hxs : List.length xs = List.length cs).
  { unfold xs. rewrite length_firstn. lia. }
  assert (Hpts : map (fun i => (nth i (elements K) 0,
                                ueval K cs (nth i (elements K) 0)))
                     (seq 0 (List.length cs))
                 = map (fun x => (x, ueval K cs x)) xs).
  { apply (nth_ext _ _ (0, 0) (0, 0)).
    - rewrite !length_map, length_seq. lia.
    - intros i Hi. rewrite length_map, length_seq in Hi.
      rewrite (nth_indep _ (0, 0)
                 ((fun i => (nth i (elements K) 0,
                             ueval K cs (nth i (elements K) 0))) O))
        by (rewrite length_map, length_seq; exact Hi).
      rewrite (map_nth (fun i => (nth i (elements K) 0,
                                  ueval K cs (nth i (elements K) 0)))).
      rewrite seq_nth by exact Hi. cbn [Nat.add].
      rewrite (nth_indep _ (0, 0) ((fun x => (x, ueval K cs x)) 0))
        by (rewrite length_map; lia).
      rewrite (map_nth (fun x => (x, ueval K cs x))).
      unfold xs. rewrite nth_firstn.
      destruct (i <? List.length cs)%nat eqn:Ei; [reflexivity |].
      apply Nat.ltb_ge in Ei. lia. }
  rewrite Hpts.
  destruct (lagrange_recovers cs xs) as [L [HL Hpad]].
  - unfold xs. apply NoDup_firstn'. apply (fl_nodup HK).
  - symmetry. exact Hxs.
  - rewrite HL. cbn [bind]. cbv zeta in Hpad. rewrite Hxs in Hpad.
    destruct (Z.of_nat (List.length (coefficients K L))
              <? Z.of_nat (List.length cs)); rewrite Hpad; reflexivity.
Qed.

(** *** Exponent vectors *)

Lemma length_upd (j : nat) (f : nat -> nat) (e : monomial) :
  List.length (upd j f e) = List.length e.
Proof.
  revert j. induction e as [|a e IH]; intros [|j]; cbn; auto.
Qed.

Lemma nth_upd (j : nat) (f : nat -> nat) (e : monomial) (i : nat) :
  nth i (upd j f e) O
  = if ((i =? j) && (j <? List.length e))%nat then f (nth j e O) else nth i e O.
Proof.
  revert j i. induction e as [|a e IH]; intros j i.
  - cbn. rewrite andb_false_r. destruct j; reflexivity.
  - destruct j as [|j], i as [|i]; cbn [upd nth List.length]; try reflexivity.
    rewrite IH. reflexivity.
Qed.

Lemma monomial_eq (e e' : monomial) :
  List.length e = List.length e' ->
  (forall i, nth i e O = nth i e' O) -> e = e'.
Proof.
  intros Hl Hn. apply (nth_ext _ _ O O); auto.
Qed.

Lemma length_unit_pow (n j a : nat) : List.length (unit_pow n j a) = n.
Proof. unfold unit_pow. rewrite length_map, length_seq. reflexivity. Qed.

Lemma nth_unit_pow (n j a i : nat) :
  (j < n)%nat ->
  nth i (unit_pow n j a) O = if (i =? j)%nat then a else O.
Proof.
  intros Hj. unfold unit_pow.
  destruct (Nat.lt_ge_cases i n) as [Hi | Hi].
  - rewrite (nth_indep _ O ((fun i => if (i =? j)%nat then a else O) O))
      by (rewrite length_map, length_seq; exact Hi).
    rewrite (map_nth (fun i => if (i =? j)%nat then a else O)).
    rewrite seq_nth by exact Hi. reflexivity.
  - rewrite nth_overflow by (rewrite length_map, length_seq; exact Hi).
    destruct (i =? j)%nat eqn:E; [| reflexivity].
    apply Nat.eqb_eq in E. lia.
Qed.

Lemma unit_vector_pow (n j : nat) : unit_vector n j = unit_pow n j 1.
Proof. reflexivity. Qed.

Lemma length_monomial_mul (e e' : monomial) :
  List.length (monomial_mul e e') = Nat.max (List.length e) (List.length e').
Proof.
  revert e'. induction e as [|a e IH]; intros [|b e']; cbn; auto.
Qed.

Lemma nth_monomial_mul (e e' : monomial) (i : nat) :
  nth i (monomial_mul e e') O = (nth i e O + nth i e' O)%nat.
Proof.
  revert e' i. induction e as [|a e IH]; intros [|b e'] [|i]; cbn; auto.
Qed.

Lemma unit_pow_mul (n j a b : nat) :
  (j < n)%nat ->
  monomial_mul (unit_pow n j a) (unit_pow n j b) = unit_pow n j (a + b).
Proof.
  intros Hj. apply monomial_eq.
  - rewrite length_monomial_mul, !length_unit_pow. lia.
  - intros i. rewrite nth_monomial_mul, !nth_unit_pow by exact Hj.
    destruct (i =? j)%nat; reflexivity.
Qed.

Lemma monomial_mul_zero_r (n : nat) (e : monomial) :
  List.length e = n -> monomial_mul e (repeat O n) = e.
Proof.
  intros Hl. apply monomial_eq.
  - rewrite length_monomial_mul, repeat_length. lia.
  - intros i. rewrite nth_monomial_mul.
    assert (E : nth i (repeat O n) O = O).
    { destruct (Nat.lt_ge_cases i n).
      - apply nth_repeat_lt. assumption.
      - apply nth_overflow. rewrite repeat_length. assumption. }
    rewrite E. lia.
Qed.

Lemma all_zero_repeat (n : nat) (e : monomial) :
  List.length e = n -> (forall i, nth i e O = O) -> e = repeat O n.
Proof.
  intros Hl Hz. apply monomial_eq.
  - rewrite repeat_length. exact Hl.
  - intros i. rewrite Hz. symmetry.
    destruct (Nat.lt_ge_cases i n).
    + apply nth_repeat_lt. assumption.
    + apply nth_overflow. rewrite repeat_length. assumption.
Qed.

Lemma nth_le_list_sum (e : monomial) (i : nat) : (nth i e O <= list_sum e)%nat.
Proof.
  unfold list_sum.
  revert i. induction e as [|a e IH]; intros [|i]; cbn; try lia.
  specialize (IH i). lia.
Qed.

Lemma list_sum_upd_zero (j : nat) (e : monomial) :
  (list_sum (upd j (fun _ => O) e) + nth j e O = list_sum e)%nat.
Proof.
  unfold list_sum.
  revert j. induction e as [|a e IH]; intros [|j]; cbn; try lia.
  specialize (IH j). lia.
Qed.

(** *** Coefficients and values of multivariate polynomials *)

Lemma mp_coeff_cons (t : monomial * F) (p : mpoly K) (e : monomial) :
  mp_coeff K (t :: p) e
  = if list_nat_eqb (fst t) e then snd t + mp_coeff K p e else mp_coeff K p e.
Proof. reflexivity. Qed.

Lemma mp_coeff_nil (e : monomial) : mp_coeff K [] e = 0.
Proof. reflexivity. Qed.

Lemma mp_coeff_app (p p' : mpoly K) (e : monomial) :
  mp_coeff K (p ++ p') e = mp_coeff K p e + mp_coeff K p' e.
Proof.
  induction p as [|t p IH]; [cbn [app]; rewrite mp_coeff_nil; ring |].
  cbn [app]. rewrite !mp_coeff_cons, IH.
  destruct (list_nat_eqb (fst t) e); ring.
Qed.

Lemma mp_coeff_notin (p : mpoly K) (e : monomial) :
  ~ In e (map fst p) -> mp_coeff K p e = 0.
Proof.
  induction p as [|t p IH]; intros H; [reflexivity |].
  rewrite mp_coeff_cons. cbn [map In] in H.
  rewrite list_nat_eqb_neq by tauto. apply IH. tauto.
Qed.

Lemma in_ring_forall (n : nat) (p : mpoly K) :
  in_ring K n p = true <-> Forall (fun t => List.length (fst t) = n) p.
Proof.
  unfold in_ring. rewrite forallb_forall, Forall_forall.
  split; intros H t Ht; specialize (H t Ht); apply Nat.eqb_eq; exact H.
Qed.

Lemma mp_coeff_wrong_length (n : nat) (p : mpoly K) (e : monomial) :
  in_ring K n p = true -> List.length e <> n -> mp_coeff K p e = 0.
Proof.
  intros Hr He. apply mp_coeff_notin. intros Hin.
  apply in_map_iff in Hin. destruct Hin as [t [<- Ht]].
  apply in_ring_forall in Hr. rewrite Forall_forall in Hr.
  apply He. apply Hr. exact Ht.
Qed.

Lemma in_ring_app (n : nat) (p p' : mpoly K) :
  in_ring K n (p ++ p') = in_ring K n p && in_ring K n p'.
Proof. apply forallb_app. Qed.

(** The decision procedure for polynomial equality is sound. *)
Lemma mp_eqb_sound (p p' : mpoly K) : mp_eqb K p p' = true -> mp_eq K p p'.
Proof.
  unfold mp_eqb. rewrite forallb_forall. intros H e.
  destruct (in_dec (list_eq_dec Nat.eq_dec) e (map fst p ++ map fst p'))
    as [Hin | Hout].
  - apply feqb_true. apply H. exact Hin.
  - rewrite !mp_coeff_notin; [reflexivity | |];
      intros Hin; apply Hout; apply in_or_app; auto.
Qed.

Lemma bool_eq_iff (b b' : bool) : (b = true <-> b' = true) -> b = b'.
Proof. destruct b, b'; intuition congruence. Qed.

Lemma monomial_eval_zero (n : nat) (x : list F) :
  monomial_eval K (repeat O n) x = 1.
Proof.
  revert x. induction n as [|n IH]; intros x; [reflexivity |].
  cbn [repeat monomial_eval fpow]. rewrite IH. ring.
Qed.

(** A polynomial all of whose terms have the zero exponent vector is the
    constant given by any of its values. *)
Lemma constant_poly (n : nat) (p : mpoly K) :
  Forall (fun t => fst t = repeat O n) p ->
  (forall x, mp_eval K p x = mp_coeff K p (repeat O n))
  /\ (forall x, mp_eq K (mp_const K n (mp_eval K p x)) p).
Proof.
  intros Hp.
  assert (Hev : forall x, mp_eval K p x = mp_coeff K p (repeat O n)).
  { intros x. induction Hp as [|t p Ht Hp IH]; [reflexivity |].
    cbn [mp_eval fold_right]. rewrite mp_coeff_cons.
    rewrite Ht, list_nat_eqb_refl, monomial_eval_zero.
    unfold mp_eval in IH. rewrite IH. ring. }
  split; [exact Hev |].
  intros x e. rewrite Hev. unfold mp_const. rewrite mp_coeff_cons.
  cbn [fst snd]. rewrite mp_coeff_nil.
  destruct (list_nat_eqb (repeat O n) e) eqn:E.
  - apply list_nat_eqb_eq in E. subst e. ring.
  - symmetry. apply mp_coeff_notin. intros Hin.
    apply in_map_iff in Hin. destruct Hin as [t [Ht Hin]].
    rewrite Forall_forall in Hp. rewrite (Hp t Hin) in Ht.
    rewrite Ht, list_nat_eqb_refl in E. discriminate.
Qed.

(** The value of a monomial at a point with one more coordinate. *)
Lemma monomial_eval_snoc (j : nat) (e : monomial) (pt : list F) (a : F) :
  List.length pt = j ->
  monomial_eval K e (pt ++ [a])
  = fpow K a (nth j e O) * monomial_eval K (upd j (fun _ => O) e) pt.
Proof.
  revert e pt. induction j as [|j IH]; intros e pt Hl.
  - destruct pt; [| discriminate]. destruct e as [|b e]; cbn; ring.
  - destruct pt as [|v pt]; [discriminate |]. injection Hl as Hl.
    destruct e as [|b e]; [cbn; ring |].
    cbn [app monomial_eval hd tl upd nth]. rewrite (IH e pt Hl). ring.
Qed.

Lemma ueval_zeros {A : Type} (l : list A) (a : F) :
  ueval K (map (fun _ => 0) l) a = 0.
Proof.
  induction l as [|x l IH]; [reflexivity |].
  cbn [map ueval]. rewrite IH. ring.
Qed.

Lemma ueval_pick (f : nat -> F) (t0 : nat) (v a : F) (s n : nat) :
  ueval K (map (fun t => (if (t0 =? t)%nat then v else 0) + f t) (seq s n)) a
  = (if ((s <=? t0) && (t0 <? s + n))%nat then fpow K a (t0 - s) * v else 0)
    + ueval K (map f (seq s n)) a.
Proof.
  revert s. induction n as [|n IH]; intros s.
  - cbn [seq map ueval].
    replace ((s <=? t0) && (t0 <? s + 0))%nat with false; [ring |].
    symmetry. apply andb_false_iff.
    destruct (Nat.le_gt_cases s t0);
      [right; apply Nat.ltb_ge; lia | left; apply Nat.leb_gt; lia].
  - cbn [seq map ueval]. rewrite IH.
    destruct (Nat.lt_trichotomy t0 s) as [Hlt | [Heq | Hgt]].
    + replace (t0 =? s)%nat with false by (symmetry; apply Nat.eqb_neq; lia).
      replace (s <=? t0)%nat with false by (symmetry; apply Nat.leb_gt; lia).
      replace (S s <=? t0)%nat with false by (symmetry; apply Nat.leb_gt; lia).
      cbn [andb]. ring.
    + subst t0. rewrite Nat.eqb_refl, Nat.leb_refl.
      replace (S s <=? s)%nat with false by (symmetry; apply Nat.leb_gt; lia).
      replace (s <? s + S n)%nat with true by (symmetry; apply Nat.ltb_lt; lia).
      cbn [andb]. rewrite Nat.sub_diag. cbn [fpow]. ring.
    + replace (t0 =? s)%nat with false by (symmetry; apply Nat.eqb_neq; lia).
      replace (s <=? t0)%nat with true by (symmetry; apply Nat.leb_le; lia).
      replace (S s <=? t0)%nat with true by (symmetry; apply Nat.leb_le; lia).
      replace (S s + n)%nat with (s + S n)%nat by lia.
      cbn [andb]. destruct (t0 <? s + S n)%nat; [| ring].
      replace (t0 - s)%nat with (S (t0 - S s)) by lia. cbn [fpow]. ring.
Qed.

Lemma slice_cons (j t : nat) (u : monomial * F) (p : mpoly K) :
  slice K j t (u :: p)
  = if (nth j (fst u) O =? t)%nat
    then (upd j (fun _ => O) (fst u), snd u) :: slice K j t p
    else slice K j t p.
Proof.
  unfold slice. cbn [filter].
  destruct (nth j (fst u) O =? t)%nat; reflexivity.
Qed.

(** The values of a polynomial along the variable [j] are those of the
    univariate polynomial whose coefficients are the values of its
    slices. *)
Lemma mp_eval_slices (j d : nat) (p : mpoly K) (pt : list F) (a : F) :
  List.length pt = j ->
  Forall (fun t => (nth j (fst t) O < d)%nat) p ->
  mp_eval K p (pt ++ [a])
  = ueval K (map (fun t => mp_eval K (slice K j t p) pt) (seq 0 d)) a.
Proof.
  intros Hl Hp. induction Hp as [|u p Hu Hp IH].
  - cbn [mp_eval fold_right]. symmetry. apply ueval_zeros.
  - cbn [mp_eval fold_right]. fold (mp_eval K p (pt ++ [a])). rewrite IH.
    rewrite (monomial_eval_snoc j (fst u) pt a Hl).
    rewrite (map_ext
               (fun t => mp_eval K (slice K j t (u :: p)) pt)
               (fun t => (if (nth j (fst u) O =? t)%nat
                          then snd u * monomial_eval K (upd j (fun _ => O) (fst u)) pt
                          else 0)
                         + mp_eval K (slice K j t p) pt)).
    + rewrite ueval_pick. cbn [Nat.leb andb Nat.add].
      replace (nth j (fst u) O <? d)%nat with true
        by (symmetry; apply Nat.ltb_lt; exact Hu).
      rewrite Nat.sub_0_r. ring.
    + intros t. rewrite slice_cons.
      destruct (nth j (fst u) O =? t)%nat; [reflexivity | ring].
Qed.

Lemma in_ring_slice (n j t : nat) (p : mpoly K) :
  in_ring K n p = true -> in_ring K n (slice K j t p) = true.
Proof.
  rewrite !in_ring_forall. intros Hp.
  induction Hp as [|u p Hu Hp IH]; [constructor |].
  rewrite slice_cons. destruct (nth j (fst u) O =? t)%nat; [| exact IH].
  constructor; [| exact IH]. cbn [fst]. rewrite length_upd. exact Hu.
Qed.

(** The coefficients of a slice. *)
Lemma mp_coeff_slice (n j t : nat) (p : mpoly K) (e : monomial) :
  in_ring K n p = true -> (j < n)%nat -> List.length e = n ->
  mp_coeff K (slice K j t p) e
  = if (nth j e O =? 0)%nat
    then mp_coeff K p (upd j (fun _ => t) e)
    else 0.
Proof.
  intros Hp Hj He. apply in_ring_forall in Hp.
  induction Hp as [|u p Hu Hp IH].
  - cbn. destruct (nth j e O =? 0)%nat; reflexivity.
  - rewrite slice_cons.
    destruct (nth j (fst u) O =? t)%nat eqn:Et.
    + apply Nat.eqb_eq in Et. rewrite mp_coeff_cons. cbn [fst snd]. rewrite IH.
      destruct (nth j e O =? 0)%nat eqn:E0.
      * apply Nat.eqb_eq in E0. rewrite mp_coeff_cons.
        replace (list_nat_eqb (upd j (fun _ => O) (fst u)) e)
          with (list_nat_eqb (fst u) (upd j (fun _ => t) e)); [reflexivity |].
        apply bool_eq_iff. rewrite !list_nat_eqb_eq. split; intros E.
        -- rewrite E. apply monomial_eq; [rewrite !length_upd; reflexivity |].
           intros i. rewrite !nth_upd, !length_upd.
           destruct ((i =? j) && (j <? List.length e))%nat eqn:Ei;
             [| reflexivity].
           apply andb_true_iff in Ei. destruct Ei as [Ei _].
           apply Nat.eqb_eq in Ei. subst i. symmetry. exact E0.
        -- rewrite <- E. apply monomial_eq; [rewrite !length_upd; reflexivity |].
           intros i. rewrite !nth_upd, !length_upd.
           destruct ((i =? j) && (j <? List.length (fst u)))%nat eqn:Ei;
             [| reflexivity].
           apply andb_true_iff in Ei. destruct Ei as [Ei _].
           apply Nat.eqb_eq in Ei. subst i. exact Et.
      * replace (list_nat_eqb (upd j (fun _ => O) (fst u)) e) with false;
          [reflexivity |].
        symmetry. apply list_nat_eqb_neq. intros E.
        apply Nat.eqb_neq in E0. apply E0. rewrite <- E, nth_upd.
        replace (j <? List.length (fst u))%nat with true
          by (symmetry; apply Nat.ltb_lt; lia).
        rewrite Nat.eqb_refl. reflexivity.
    + rewrite IH. destruct (nth j e O =? 0)%nat; [| reflexivity].
      rewrite mp_coeff_cons.
      replace (list_nat_eqb (fst u) (upd j (fun _ => t) e)) with false;
        [reflexivity |].
      symmetry. apply list_nat_eqb_neq. intros E.
      apply Nat.eqb_neq in Et. apply Et. rewrite E, nth_upd.
      replace (j <? List.length e)%nat with true
        by (symmetry; apply Nat.ltb_lt; lia).
      rewrite Nat.eqb_refl. reflexivity.
Qed.

Lemma mp_mul_singleton (u : monomial) (c : F) (p : mpoly K) :
  mp_mul K [(u, c)] p
  = map (fun t => (monomial_mul u (fst t), c * snd t)) p.
Proof. unfold mp_mul. cbn [flat_map fst snd]. apply app_nil_r. Qed.

Lemma in_ring_shift (n j a : nat) (c : F) (p : mpoly K) :
  in_ring K n p = true ->
  in_ring K n (mp_mul K [(unit_pow n j a, c)] p) = true.
Proof.
  rewrite mp_mul_singleton, !in_ring_forall. intros Hp.
  induction Hp as [|u p Hu Hp IH]; [constructor |].
  cbn [map]. constructor; [| exact IH].
  cbn [fst]. rewrite length_monomial_mul, length_unit_pow. lia.
Qed.

(** The coefficients of [x_j^a * p]. *)
Lemma mp_coeff_shift (n j a : nat) (p : mpoly K) (e : monomial) :
  in_ring K n p = true -> (j < n)%nat ->
  mp_coeff K (mp_mul K [(unit_pow n j a, 1)] p) e
  = if ((List.length e =? n) && (a <=? nth j e O))%nat
    then mp_coeff K p (upd j (fun v => v - a)%nat e)
    else 0.
Proof.
  intros Hp Hj. rewrite mp_mul_singleton. apply in_ring_forall in Hp.
  induction Hp as [|u p Hu Hp IH].
  - cbn. destruct ((List.length e =? n) && (a <=? nth j e O))%nat; reflexivity.
  - cbn [map]. rewrite mp_coeff_cons. cbn [fst snd]. rewrite IH.
    destruct ((List.length e =? n) && (a <=? nth j e O))%nat eqn:Ec.
    + apply andb_true_iff in Ec. destruct Ec as [El Ea].
      apply Nat.eqb_eq in El. apply Nat.leb_le in Ea.
      rewrite mp_coeff_cons.
      replace (list_nat_eqb (monomial_mul (unit_pow n j a) (fst u)) e)
        with (list_nat_eqb (fst u) (upd j (fun v => (v - a)%nat) e)).
      * destruct (list_nat_eqb (fst u) (upd j (fun v => (v - a)%nat) e)); ring.
      * apply bool_eq_iff. rewrite !list_nat_eqb_eq. split; intros E.
        -- rewrite E. apply monomial_eq.
           ++ rewrite length_monomial_mul, length_unit_pow, length_upd. lia.
           ++ intros i. rewrite nth_monomial_mul, nth_unit_pow, nth_upd by exact Hj.
              destruct (i =? j)%nat eqn:Ei; cbn [andb]; [| lia].
              apply Nat.eqb_eq in Ei. subst i.
              replace (j <? List.length e)%nat with true
                by (symmetry; apply Nat.ltb_lt; lia).
              lia.
        -- rewrite <- E. apply monomial_eq.
           ++ rewrite length_upd, length_monomial_mul, length_unit_pow. lia.
           ++ intros i.
              rewrite nth_upd, length_monomial_mul, length_unit_pow,
                !nth_monomial_mul, !nth_unit_pow by exact Hj.
              destruct (i =? j)%nat eqn:Ei; cbn [andb]; [| lia].
              apply Nat.eqb_eq in Ei. subst i. rewrite Nat.eqb_refl.
              replace (j <? Nat.max n (List.length (fst u)))%nat with true
                by (symmetry; apply Nat.ltb_lt; lia).
              lia.
    + replace (list_nat_eqb (monomial_mul (unit_pow n j a) (fst u)) e) with false;
        [reflexivity |].
      symmetry. apply list_nat_eqb_neq. intros E.
      apply andb_false_iff in Ec. destruct Ec as [Ec | Ec].
      * apply Nat.eqb_neq in Ec. apply Ec.
        rewrite <- E, length_monomial_mul, length_unit_pow. lia.
      * apply Nat.leb_gt in Ec. rewrite <- E in Ec.
        rewrite nth_monomial_mul, nth_unit_pow, Nat.eqb_refl in Ec by exact Hj.
        lia.
Qed.

Lemma slice_clean (n j t : nat) (r : Z) (p : mpoly K) :
  clean K n (S j) r p -> clean K n j (r - Z.of_nat t) (slice K j t p).
Proof.
  unfold clean. intros Hp. induction Hp as [|u p Hu Hp IH]; [constructor |].
  rewrite slice_cons. destruct (nth j (fst u) O =? t)%nat eqn:Et; [| exact IH].
  constructor; [| exact IH]. cbn [fst].
  apply Nat.eqb_eq in Et.
  destruct Hu as [Hl [Hz [Hs Hq]]]. repeat split.
  - rewrite length_upd. exact Hl.
  - intros i Hi. rewrite nth_upd.
    destruct ((i =? j) && (j <? List.length (fst u)))%nat eqn:Ec;
      [reflexivity |].
    destruct (Nat.eq_dec i j) as [-> | Hne].
    + rewrite Nat.eqb_refl in Ec. cbn [andb] in Ec.
      apply Nat.ltb_ge in Ec. apply nth_overflow. exact Ec.
    + apply Hz. lia.
  - pose proof (list_sum_upd_zero j (fst u)). lia.
  - intros i. rewrite nth_upd.
    destruct ((i =? j) && (j <? List.length (fst u)))%nat; [| apply Hq].
    specialize (Hq O). lia.
Qed.

(** *** The recursive interpolation *)

Lemma interpolation_unfold (evaluation : list F) (j : nat) (r : Z) (n : nat) :
  _multivariate_polynomial_interpolation K evaluation (S j) r n
  = if r =? 0 then c <- index evaluation 0 ;; Ok (Scalar K c)
    else
      mel <- mapM (slice_coefficients K evaluation
                     (cardinality K ^ Z.of_nat j)
                     (Z.min (r + 1) (cardinality K)))
                  (range (cardinality K ^ Z.of_nat j)) ;;
      x <- mp_gen K n (Z.of_nat j) ;;
      st <- foldM
              (combine_step K
                 (fun column order' =>
                    _multivariate_polynomial_interpolation K column j order' n)
                 mel (cardinality K ^ Z.of_nat j) r n x)
              (range (Z.min (r + 1) (cardinality K)))
              (mp_zero K, PyOne K) ;;
      Ok (Polynomial K (fst st)).
Proof. reflexivity. Qed.

(** The multiplier after [a] rounds of the second loop. *)
Definition multiplier_at (n j a : nat) : multiplier K :=
  match a with
  | O => PyOne K
  | S _ => Power K [(unit_pow n j a, 1)]
  end.

Lemma multiplier_step_at (n j a : nat) :
  (j < n)%nat ->
  multiplier_step K (multiplier_at n j a) [(unit_vector n j, 1)]
  = multiplier_at n j (S a).
Proof.
  intros Hj. destruct a as [|a]; [reflexivity |].
  cbn [multiplier_at multiplier_step]. rewrite mp_mul_singleton.
  cbn [map fst snd]. rewrite unit_vector_pow, unit_pow_mul by exact Hj.
  replace (S a + 1)%nat with (S (S a)) by lia.
  replace (1 * 1) with 1 by ring. reflexivity.
Qed.

(** The term added in round [a]: [x_j^a] times the polynomial that
    agrees with the slice [a] of [p]. *)
Lemma round_coeff (n j a : nat) (p : mpoly K) (v : value K) (e : monomial) :
  in_ring K n p = true -> (j < n)%nat ->
  mp_eq K (to_poly K n v) (slice K j a p) ->
  in_ring K n (to_poly K n v) = true ->
  in_ring K n (to_poly K n (multiplier_mul K (multiplier_at n j a) v)) = true
  /\ mp_coeff K (to_poly K n (multiplier_mul K (multiplier_at n j a) v)) e
     = if (nth j e O =? a)%nat then mp_coeff K p e else 0.
Proof.
  intros Hp Hj Hv Hr.
  assert (Hupd : forall b, nth j e O = b -> List.length e = n ->
                           upd j (fun _ => b) (upd j (fun w => (w - b)%nat) e) = e).
  { intros b Hb Hl. apply monomial_eq; [rewrite !length_upd; reflexivity |].
    intros i. rewrite !nth_upd, !length_upd.
    destruct ((i =? j) && (j <? List.length e))%nat eqn:Ei; [| reflexivity].
    apply andb_true_iff in Ei. destruct Ei as [Ei _].
    apply Nat.eqb_eq in Ei. subst i. symmetry. exact Hb. }
  assert (Hwrong : List.length e <> n ->
                   (if (nth j e O =? a)%nat then mp_coeff K p e else 0) = 0).
  { intros Hl. destruct (nth j e O =? a)%nat; [| reflexivity].
    apply (mp_coeff_wrong_length n); assumption. }
  destruct a as [|a].
  - cbn [multiplier_at multiplier_mul]. split; [exact Hr |].
    rewrite Hv.
    destruct (Nat.eq_dec (List.length e) n) as [Hl | Hl].
    + rewrite (mp_coeff_slice n) by assumption.
      destruct (nth j e O =? 0)%nat eqn:E0; [| reflexivity].
      apply Nat.eqb_eq in E0. f_equal.
      apply monomial_eq; [rewrite length_upd; reflexivity |].
      intros i. rewrite nth_upd.
      destruct ((i =? j) && (j <? List.length e))%nat eqn:Ei; [| reflexivity].
      apply andb_true_iff in Ei. destruct Ei as [Ei _].
      apply Nat.eqb_eq in Ei. subst i. symmetry. exact E0.
    + rewrite (Hwrong Hl).
      apply (mp_coeff_wrong_length n); [| exact Hl].
      apply in_ring_slice. exact Hp.
  - assert (Hmul : to_poly K n (multiplier_mul K (multiplier_at n j (S a)) v)
                   = mp_mul K [(unit_pow n j (S a), 1)] (to_poly K n v)).
    { destruct v as [c | f]; [| reflexivity].
      cbn [multiplier_at multiplier_mul to_poly mp_scale map fst snd].
      rewrite mp_mul_singleton. unfold mp_const. cbn [map fst snd].
      rewrite monomial_mul_zero_r by apply length_unit_pow.
      f_equal. f_equal. ring. }
    rewrite Hmul. split; [apply in_ring_shift; exact Hr |].
    rewrite (mp_coeff_shift n) by assumption.
    destruct (Nat.eq_dec (List.length e) n) as [Hl | Hl].
    + replace (List.length e =? n)%nat with true
        by (symmetry; apply Nat.eqb_eq; exact Hl).
      cbn [andb].
      destruct (S a <=? nth j e O)%nat eqn:Ea.
      * apply Nat.leb_le in Ea. rewrite Hv.
        rewrite (mp_coeff_slice n) by (rewrite ?length_upd; assumption).
        rewrite nth_upd, Nat.eqb_refl.
        replace (j <? List.length e)%nat with true
          by (symmetry; apply Nat.ltb_lt; lia).
        cbn [andb].
        destruct (nth j e O =? S a)%nat eqn:Eq.
        -- apply Nat.eqb_eq in Eq.
           replace (nth j e O - S a =? 0)%nat with true
             by (symmetry; apply Nat.eqb_eq; lia).
           rewrite Hupd by assumption. reflexivity.
        -- apply Nat.eqb_neq in Eq.
           replace (nth j e O - S a =? 0)%nat with false
             by (symmetry; apply Nat.eqb_neq; lia).
           reflexivity.
      * apply Nat.leb_gt in Ea.
        replace (nth j e O =? S a)%nat with false
          by (symmetry; apply Nat.eqb_neq; lia).
        reflexivity.
    + replace (List.length e =? n)%nat with false
        by (symmetry; apply Nat.eqb_neq; exact Hl).
      cbn [andb]. symmetry. apply Hwrong. exact Hl.
Qed.

Lemma cardinality_pow (j : nat) :
  cardinality K ^ Z.of_nat j
  = Z.of_nat (List.length (Tuples (elements K) j)).
Proof.
  rewrite Tuples_length, Nat2Z.inj_pow. reflexivity.
Qed.

(** The second loop, given what the recursive calls return on the
    columns. *)
Lemma combine_loop (n j : nat) (r : Z) (p : mpoly K) (dn : nat)
    (interpolate : list F -> Z -> result (value K)) :
  in_ring K n p = true -> (j < n)%nat ->
  (forall t, (t < dn)%nat ->
     exists v,
       interpolate (map (mp_eval K (slice K j t p)) (Tuples (elements K) j))
                   (r - Z.of_nat t)%Z = Ok v
       /\ mp_eq K (to_poly K n v) (slice K j t p)
       /\ in_ring K n (to_poly K n v) = true) ->
  forall (len a : nat) (poly : mpoly K),
    (a + len <= dn)%nat ->
    (forall e, mp_coeff K poly e
               = if (nth j e O <? a)%nat then mp_coeff K p e else 0) ->
    in_ring K n poly = true ->
    exists poly' z',
      foldM (combine_step K interpolate
               (map (fun pt => map (fun t => mp_eval K (slice K j t p) pt)
                                   (seq 0 dn))
                    (Tuples (elements K) j))
               (Z.of_nat (List.length (Tuples (elements K) j)))
               r n [(unit_vector n j, 1)])
            (map Z.of_nat (seq a len)) (poly, multiplier_at n j a)
      = Ok (poly', z')
      /\ (forall e, mp_coeff K poly' e
                    = if (nth j e O <? a + len)%nat then mp_coeff K p e else 0)
      /\ in_ring K n poly' = true.
Proof.
  intros Hp Hj Hrec.
  set (T := Tuples (elements K) j) in *.
  set (mel := map (fun pt => map (fun t => mp_eval K (slice K j t p) pt)
                                 (seq 0 dn)) T).
  induction len as [|len IH]; intros a poly Ha Hc Hr.
  - exists poly, (multiplier_at n j a). cbn [seq map foldM].
    rewrite Nat.add_0_r. auto.
  - cbn [seq map foldM]. unfold combine_step at 1.
    (* the column [a] of the table *)
    assert (Hcol : mapM (fun i => row <- index mel i ;; index row (Z.of_nat a))
                        (range (Z.of_nat (List.length T)))
                   = Ok (map (mp_eval K (slice K j a p)) T)).
    { rewrite range_of_nat.
      rewrite (mapM_ok _ (fun i => mp_eval K (slice K j a p)
                                     (nth (Z.to_nat i) T []))).
      - rewrite map_map.
        rewrite (map_ext _ (fun i => mp_eval K (slice K j a p) (nth i T [])))
          by (intros i; rewrite Nat2Z.id; reflexivity).
        rewrite map_nth_seq. reflexivity.
      - intros k Hk. apply in_map_iff in Hk. destruct Hk as [i [<- Hi]].
        apply in_seq in Hi. rewrite Nat2Z.id.
        rewrite (index_nth mel i []) by (unfold mel; rewrite length_map; lia).
        cbn [bind]. unfold mel.
        rewrite (nth_indep _ []
                   ((fun pt => map (fun t => mp_eval K (slice K j t p) pt)
                                   (seq 0 dn)) []))
          by (rewrite length_map; lia).
        rewrite (map_nth (fun pt => map (fun t => mp_eval K (slice K j t p) pt)
                                        (seq 0 dn))).
        rewrite (index_nth _ a 0) by (rewrite length_map, length_seq; lia).
        rewrite (nth_indep _ 0
                   ((fun t => mp_eval K (slice K j t p) (nth i T [])) O))
          by (rewrite length_map, length_seq; lia).
        rewrite (map_nth (fun t => mp_eval K (slice K j t p) (nth i T []))).
        rewrite seq_nth by lia. reflexivity. }
    rewrite Hcol. cbn [bind].
    destruct (Hrec a) as [v [Hv [Heq Hrv]]]; [lia |].
    rewrite Hv. cbn [bind].
    rewrite multiplier_step_at by exact Hj.
    destruct (IH (S a)
                 (mp_add_value K n poly
                    (multiplier_mul K (multiplier_at n j a) v)))
      as [poly' [z' [Hf [Hc' Hr']]]].
    + lia.
    + intros e. unfold mp_add_value, mp_add. rewrite mp_coeff_app, Hc.
      rewrite (proj2 (round_coeff n j a p v e Hp Hj Heq Hrv)).
      destruct (Nat.lt_trichotomy (nth j e O) a) as [Hlt | [He | Hgt]].
      * replace (nth j e O <? a)%nat with true
          by (symmetry; apply Nat.ltb_lt; lia).
        replace (nth j e O =? a)%nat with false
          by (symmetry; apply Nat.eqb_neq; lia).
        replace (nth j e O <? S a)%nat with true
          by (symmetry; apply Nat.ltb_lt; lia).
        ring.
      * replace (nth j e O <? a)%nat with false
          by (symmetry; apply Nat.ltb_ge; lia).
        replace (nth j e O =? a)%nat with true
          by (symmetry; apply Nat.eqb_eq; lia).
        replace (nth j e O <? S a)%nat with true
          by (symmetry; apply Nat.ltb_lt; lia).
        ring.
      * replace (nth j e O <? a)%nat with false
          by (symmetry; apply Nat.ltb_ge; lia).
        replace (nth j e O =? a)%nat with false
          by (symmetry; apply Nat.eqb_neq; lia).
        replace (nth j e O <? S a)%nat with false
          by (symmetry; apply Nat.ltb_ge; lia).
        ring.
    + unfold mp_add_value, mp_add. rewrite in_ring_app, Hr.
      apply (proj1 (round_coeff n j a p v [] Hp Hj Heq Hrv)).
    + exists poly', z'. rewrite Hf.
      replace (a + S len)%nat with (S a + len)%nat by lia. auto.
Qed.

Lemma clean_in_ring (n j : nat) (r : Z) (p : mpoly K) :
  clean K n j r p -> in_ring K n p = true.
Proof.
  intros Hp. apply in_ring_forall.
  eapply Forall_impl; [| exact Hp]. intros t [Hl _]. exact Hl.
Qed.

Lemma clean_constant (n j : nat) (r : Z) (p : mpoly K) :
  clean K n j r p -> j = O \/ r = 0%Z ->
  Forall (fun t => fst t = repeat O n) p.
Proof.
  intros Hp Hjr. eapply Forall_impl; [| exact Hp].
  intros t [Hl [Hz [Hs _]]]. apply all_zero_repeat; [exact Hl |].
  intros i. destruct Hjr as [-> | ->].
  - apply Hz. lia.
  - pose proof (nth_le_list_sum (fst t) i). lia.
Qed.

Lemma in_ring_const (n : nat) (c : F) : in_ring K n (mp_const K n c) = true.
Proof.
  unfold in_ring, mp_const. cbn [forallb fst].
  rewrite repeat_length, Nat.eqb_refl. reflexivity.
Qed.

(** The interpolation gives back a polynomial from its values on the
    grid, when the polynomial involves the first [j] variables only, has
    total degree at most [r] and degree less than [q] in each variable. *)
Lemma interpolation_clean (n : nat) :
  forall (j : nat) (r : Z) (p : mpoly K),
    (j <= n)%nat -> (0 <= r)%Z -> clean K n j r p ->
    exists v,
      _multivariate_polynomial_interpolation K
        (map (mp_eval K p) (Tuples (elements K) j)) j r n = Ok v
      /\ mp_eq K (to_poly K n v) p
      /\ in_ring K n (to_poly K n v) = true.
Proof.
  induction j as [|j IH]; intros r p Hj Hr Hp.
  - cbn [Tuples map _multivariate_polynomial_interpolation].
    rewrite index_cons_0. cbn [bind]. eexists. split; [reflexivity |].
    cbn [to_poly]. split; [| apply in_ring_const].
    apply constant_poly. apply (clean_constant n 0 r); auto.
  - rewrite interpolation_unfold.
    pose proof (cardinality_ge_2 K HK) as Hq2.
    set (qn := List.length (elements K)).
    assert (Hqn : cardinality K = Z.of_nat qn) by reflexivity.
    set (T := Tuples (elements K) j).
    set (T' := Tuples (elements K) (S j)).
    assert (HT' : List.length T' = (qn * List.length T)%nat).
    { unfold T', T. rewrite !Tuples_length. cbn [Nat.pow]. reflexivity. }
    destruct (r =? 0)%Z eqn:Er.
    + (* order 0: the first entry *)
      apply Z.eqb_eq in Er.
      assert (Hne : (0 < List.length T')%nat).
      { unfold T'. rewrite Tuples_length.
        pose proof (Nat.pow_nonzero qn (S j)). fold qn. lia. }
      rewrite (index_nth _ O 0) by (rewrite length_map; exact Hne).
      cbn [bind]. eexists. split; [reflexivity |].
      cbn [to_poly]. split; [| apply in_ring_const].
      rewrite (nth_indep _ 0 (mp_eval K p []))
        by (rewrite length_map; exact Hne).
      rewrite (map_nth (mp_eval K p)).
      apply constant_poly. apply (clean_constant n (S j) r); auto.
    + apply Z.eqb_neq in Er.
      set (dn := Z.to_nat (Z.min (r + 1) (cardinality K))).
      assert (Hd : Z.min (r + 1) (cardinality K) = Z.of_nat dn)
        by (unfold dn; lia).
      assert (Hdn : (dn <= qn)%nat) by lia.
      rewrite Hd, cardinality_pow. fold T.
      assert (Hlt : Forall (fun t => (nth j (fst t) O < dn)%nat) p).
      { eapply Forall_impl; [| exact Hp].
        intros t [_ [_ [Hs Hb]]].
        pose proof (nth_le_list_sum (fst t) j). specialize (Hb j).
        fold qn in Hb. lia. }
      pose proof (clean_in_ring n (S j) r p Hp) as Hring.
      (* the table of coefficients *)
      assert (Hmel :
                mapM (slice_coefficients K (map (mp_eval K p) T')
                        (Z.of_nat (List.length T)) (Z.of_nat dn))
                     (range (Z.of_nat (List.length T)))
                = Ok (map (fun pt => map (fun t => mp_eval K (slice K j t p) pt)
                                         (seq 0 dn)) T)).
      { rewrite range_of_nat.
        rewrite (mapM_ok _ (fun k => map (fun t => mp_eval K (slice K j t p)
                                                     (nth (Z.to_nat k) T []))
                                         (seq 0 dn))).
        - rewrite map_map.
          rewrite (map_ext _ (fun i => (fun pt => map (fun t => mp_eval K (slice K j t p) pt)
                                                      (seq 0 dn)) (nth i T [])))
            by (intros i; rewrite Nat2Z.id; reflexivity).
          rewrite (map_nth_seq
                     (fun pt => map (fun t => mp_eval K (slice K j t p) pt)
                                    (seq 0 dn))).
          reflexivity.
        - intros k Hk. apply in_map_iff in Hk. destruct Hk as [i [<- Hi]].
          apply in_seq in Hi. rewrite Nat2Z.id.
          set (cs := map (fun t => mp_eval K (slice K j t p) (nth i T []))
                         (seq 0 dn)).
          assert (Hcs : List.length cs = dn)
            by (unfold cs; rewrite length_map, length_seq; reflexivity).
          rewrite <- Hcs. apply slice_coefficients_spec.
          + rewrite Hcs. exact Hdn.
          + intros i' Hi'. rewrite Hcs in Hi'.
            replace (Z.of_nat i + Z.of_nat i' * Z.of_nat (List.length T))%Z
              with (Z.of_nat (i + i' * List.length T)) by lia.
            assert (Hpos : (i + i' * List.length T < List.length T')%nat).
            { rewrite HT'. nia. }
            rewrite (index_nth _ _ 0) by (rewrite length_map; exact Hpos).
            rewrite (nth_indep _ 0 (mp_eval K p []))
              by (rewrite length_map; exact Hpos).
            rewrite (map_nth (mp_eval K p)).
            unfold T', T at 1. rewrite Tuples_length.
            rewrite (Tuples_nth (elements K) j i i' 0);
              [| rewrite <- Tuples_length; fold T; lia | fold qn; lia].
            fold T. f_equal. unfold cs.
            apply mp_eval_slices; [| exact Hlt].
            apply (Tuples_elem_length (elements K)). apply nth_In. fold T. lia. }
      rewrite Hmel. cbn [bind].
      assert (Hjn : (j < n)%nat) by lia.
      unfold mp_gen.
      replace ((0 <=? Z.of_nat j)%Z && (Z.of_nat j <? Z.of_nat n)%Z)
        with true by (symmetry; apply andb_true_iff; split;
                      [apply Z.leb_le | apply Z.ltb_lt]; lia).
      cbn [bind]. rewrite Nat2Z.id, range_of_nat.
      destruct (combine_loop n j r p dn
                  (fun column order' =>
                     _multivariate_polynomial_interpolation K column j order' n)
                  Hring Hjn) with (len := dn) (a := O) (poly := mp_zero K)
        as [poly' [z' [Hf [Hc Hr']]]].
      * intros t Ht. apply IH; [lia | lia |].
        apply slice_clean. exact Hp.
      * lia.
      * intros e. rewrite mp_coeff_nil. reflexivity.
      * reflexivity.
      * cbn [multiplier_at] in Hf. fold T in Hf. rewrite Hf. cbn [bind fst].
        eexists. split; [reflexivity |]. cbn [to_poly]. split; [| exact Hr'].
        intros e. rewrite Hc. cbn [Nat.add].
        destruct (nth j e O <? dn)%nat eqn:E; [reflexivity |].
        apply Nat.ltb_ge in E. symmetry. apply mp_coeff_notin.
        intros Hin. apply in_map_iff in Hin. destruct Hin as [t [<- Ht]].
        rewrite Forall_forall in Hlt. specialize (Hlt t Ht). lia.
Qed.

(** *** Collecting the terms of a polynomial *)

Lemma fsum_cons {A : Type} (f : A -> F) (a : A) (l : list A) :
  fsum K f (a :: l) = f a + fsum K f l.
Proof. reflexivity. Qed.

Lemma fsum_ext_in {A : Type} (f g : A -> F) (l : list A) :
  (forall a, In a l -> f a = g a) -> fsum K f l = fsum K g l.
Proof.
  induction l as [|a l IH]; intros H; [reflexivity |].
  rewrite !fsum_cons. rewrite (H a) by (left; reflexivity).
  rewrite IH by (intros; apply H; right; assumption).
  reflexivity.
Qed.

Lemma fsum_zero {A : Type} (l : list A) : fsum K (fun _ => 0) l = 0.
Proof.
  induction l as [|a l IH]; [reflexivity |].
  rewrite fsum_cons, IH. ring.
Qed.

Lemma fsum_filter {A : Type} (b : A -> bool) (h : A -> F) (l : list A) :
  (forall a, b a = false -> h a = 0) -> fsum K h (filter b l) = fsum K h l.
Proof.
  intros H. induction l as [|a l IH]; [reflexivity |].
  cbn [filter]. destruct (b a) eqn:E; rewrite ?fsum_cons, IH; [reflexivity |].
  rewrite (H a E). ring.
Qed.

Lemma fsum_pick (e0 : monomial) (c0 : F) (g m : monomial -> F) (l : list monomial) :
  NoDup l -> In e0 l ->
  fsum K (fun e => (if list_nat_eqb e0 e then c0 + g e else g e) * m e) l
  = c0 * m e0 + fsum K (fun e => g e * m e) l.
Proof.
  induction l as [|a l IH]; intros Hnd Hin; [contradiction |].
  inversion Hnd as [|? ? Ha Hnd']; subst. rewrite !fsum_cons.
  destruct (list_nat_eqb e0 a) eqn:E.
  - apply list_nat_eqb_eq in E. subst a.
    rewrite (fsum_ext_in
               (fun e => (if list_nat_eqb e0 e then c0 + g e else g e) * m e)
               (fun e => g e * m e)).
    + ring.
    + intros e He. rewrite list_nat_eqb_neq; [reflexivity |].
      intros <-. contradiction.
  - destruct Hin as [-> | Hin]; [rewrite list_nat_eqb_refl in E; discriminate |].
    rewrite (IH Hnd' Hin). ring.
Qed.

(** The value of a polynomial is determined by its coefficients. *)
Lemma mp_eval_fsum (p : mpoly K) (l : list monomial) (x : list F) :
  NoDup l -> incl (map fst p) l ->
  mp_eval K p x = fsum K (fun e => mp_coeff K p e * monomial_eval K e x) l.
Proof.
  intros Hnd. induction p as [|t p IH]; intros Hincl.
  - cbn [mp_eval fold_right]. symmetry.
    rewrite (fsum_ext_in _ (fun _ => 0)); [apply fsum_zero |].
    intros e _. rewrite mp_coeff_nil. ring.
  - cbn [mp_eval fold_right]. fold (mp_eval K p x).
    rewrite IH by (intros e He; apply Hincl; right; exact He).
    rewrite (fsum_ext_in
               (fun e => mp_coeff K (t :: p) e * monomial_eval K e x)
               (fun e => (if list_nat_eqb (fst t) e
                          then snd t + mp_coeff K p e
                          else mp_coeff K p e) * monomial_eval K e x))
      by (intros e _; rewrite mp_coeff_cons; reflexivity).
    rewrite fsum_pick; [reflexivity | exact Hnd |].
    apply Hincl. left. reflexivity.
Qed.

Lemma mp_coeff_graph (f : monomial -> F) (l : list monomial) (e : monomial) :
  NoDup l ->
  mp_coeff K (map (fun e' => (e', f e')) l) e
  = if in_dec (list_eq_dec Nat.eq_dec) e l then f e else 0.
Proof.
  induction l as [|a l IH]; intros Hnd; [reflexivity |].
  inversion Hnd as [|? ? Ha Hnd']; subst.
  cbn [map]. rewrite mp_coeff_cons. cbn [fst snd]. rewrite (IH Hnd').
  destruct (list_nat_eqb a e) eqn:E.
  - apply list_nat_eqb_eq in E. subst a.
    destruct (in_dec (list_eq_dec Nat.eq_dec) e l) as [Hin | _];
      [contradiction |].
    destruct (in_dec (list_eq_dec Nat.eq_dec) e (e :: l)) as [_ | Hout];
      [ring | exfalso; apply Hout; left; reflexivity].
  - assert (Hne : a <> e)
      by (intros ->; rewrite list_nat_eqb_refl in E; discriminate).
    destruct (in_dec (list_eq_dec Nat.eq_dec) e l) as [Hin | Hout];
      destruct (in_dec (list_eq_dec Nat.eq_dec) e (a :: l)) as [Hin' | Hout'];
      try reflexivity.
    + exfalso. apply Hout'. right. exact Hin.
    + exfalso. destruct Hin' as [E' | E']; [apply Hne; exact E' | contradiction].
Qed.

Lemma mp_eval_graph (f : monomial -> F) (l : list monomial) (x : list F) :
  mp_eval K (map (fun e => (e, f e)) l) x
  = fsum K (fun e => f e * monomial_eval K e x) l.
Proof.
  induction l as [|a l IH]; [reflexivity |].
  cbn [map]. rewrite fsum_cons, <- IH. reflexivity.
Qed.

Lemma normalize_support (p : mpoly K) (e : monomial) :
  In e (map fst (normalize K p)) <-> In e (map fst p) /\ mp_coeff K p e <> 0.
Proof.
  unfold normalize. rewrite map_map. cbn [fst]. rewrite map_id.
  rewrite filter_In, nodup_In, negb_true_iff. split.
  - intros [Hin Hz]. split; [exact Hin | apply feqb_false; exact Hz].
  - intros [Hin Hz]. split; [exact Hin | apply feqb_neq; exact Hz].
Qed.

Lemma normalize_NoDup (p : mpoly K) :
  NoDup (filter (fun e => negb (feqb K (mp_coeff K p e) 0))
                (nodup (list_eq_dec Nat.eq_dec) (map fst p))).
Proof. apply NoDup_filter. apply NoDup_nodup. Qed.

Lemma mp_coeff_normalize (p : mpoly K) : mp_eq K (normalize K p) p.
Proof.
  intros e. unfold normalize. rewrite mp_coeff_graph by apply normalize_NoDup.
  destruct (in_dec _ e _) as [Hin | Hout]; [reflexivity |].
  rewrite filter_In, nodup_In, negb_true_iff in Hout.
  destruct (in_dec (list_eq_dec Nat.eq_dec) e (map fst p)) as [Hin | Hnot].
  - destruct (feqb K (mp_coeff K p e) 0) eqn:E.
    + symmetry. apply feqb_true. exact E.
    + exfalso. apply Hout. auto.
  - symmetry. apply mp_coeff_notin. exact Hnot.
Qed.

Lemma mp_eval_normalize (p : mpoly K) (x : list F) :
  mp_eval K (normalize K p) x = mp_eval K p x.
Proof.
  unfold normalize. rewrite mp_eval_graph.
  rewrite fsum_filter.
  - symmetry. apply mp_eval_fsum; [apply NoDup_nodup |].
    intros e He. apply nodup_In. exact He.
  - intros e He. apply negb_false_iff in He. apply feqb_true in He.
    rewrite He. ring.
Qed.

(** The total degree bounds the degree of every monomial that occurs
    with a non-zero coefficient. *)
Lemma mp_degree_bound (p : mpoly K) (e : monomial) :
  mp_coeff K p e <> 0 -> (Z.of_nat (list_sum e) <= mp_degree K p)%Z.
Proof.
  intros Hc.
  assert (Hin : In e (map fst p)).
  { destruct (in_dec (list_eq_dec Nat.eq_dec) e (map fst p)) as [H | H];
      [exact H |].
    exfalso. apply Hc. apply mp_coeff_notin. exact H. }
  unfold mp_degree.
  assert (Hgen : forall l : mpoly K,
             In e (map fst l) ->
             (Z.of_nat (list_sum e)
              <= fold_right
                   (fun t acc =>
                      if feqb K (mp_coeff K p (fst t)) (fzero K) then acc
                      else Z.max (Z.of_nat (list_sum (fst t))) acc)
                   (-1) l)%Z).
  { induction l as [|t l IH]; intros Hl; [contradiction |].
    cbn [map In] in Hl. cbn [fold_right].
    destruct Hl as [<- | Hl].
    - rewrite (feqb_neq _ _ Hc). lia.
    - specialize (IH Hl).
      destruct (feqb K (mp_coeff K p (fst t)) 0); lia. }
  apply Hgen. exact Hin.
Qed.

(** Interpolating the values of [p] on the whole grid gives [p] back. *)
Lemma interpolation_roundtrip (n : nat) (r : Z) (p : mpoly K) :
  (0 <= r)%Z -> in_ring K n p = true -> (mp_degree K p <= r)%Z ->
  (forall e, mp_coeff K p e <> 0 ->
             forall i, (nth i e O < List.length (elements K))%nat) ->
  exists v,
    _multivariate_polynomial_interpolation K
      (map (mp_eval K p) (Tuples (elements K) n)) n r n = Ok v
    /\ mp_eq K (to_poly K n v) p.
Proof.
  intros Hr Hring Hdeg Hvar.
  assert (Hclean : clean K n n r (normalize K p)).
  { unfold clean. apply Forall_forall. intros t Ht.
    assert (Hs : In (fst t) (map fst (normalize K p)))
      by (apply in_map; exact Ht).
    apply normalize_support in Hs. destruct Hs as [Hin Hc].
    assert (Hl : List.length (fst t) = n).
    { apply in_map_iff in Hin. destruct Hin as [u [Eu Hu]].
      apply in_ring_forall in Hring. rewrite Forall_forall in Hring.
      rewrite <- Eu. apply Hring. exact Hu. }
    repeat split.
    - exact Hl.
    - intros i Hi. apply nth_overflow. lia.
    - pose proof (mp_degree_bound p (fst t) Hc). lia.
    - apply Hvar. exact Hc. }
  destruct (interpolation_clean n n r (normalize K p) (le_n n) Hr Hclean)
    as [v [Hv [Heq _]]].
  exists v. split.
  - rewrite <- Hv. f_equal. apply map_ext. intros x.
    symmetry. apply mp_eval_normalize.
  - intros e. rewrite Heq. apply mp_coeff_normalize.
Qed.

End FieldFacts.

(** ** The polynomial encoder *)

(** [encode] on an element of the ring: the membership test is passed,
    the degree and the values are those of the polynomial. *)
Lemma encode_element (self : ReedMullerPolynomialEncoder.t)
    (p : mpoly (base_field (ReedMullerPolynomialEncoder.code self)))
    (in_M : in_ring (base_field (ReedMullerPolynomialEncoder.code self))
              (ReedMullerPolynomialEncoder.message_space self) p = true) :
  ReedMullerPolynomialEncoder.encode self (Poly p in_M)
  = if order (ReedMullerPolynomialEncoder.code self)
       <? mp_degree (base_field (ReedMullerPolynomialEncoder.code self)) p
    then Raise (DegreeTooHigh (order (ReedMullerPolynomialEncoder.code self)))
    else mapM (mp_call (base_field (ReedMullerPolynomialEncoder.code self))
                 (ReedMullerPolynomialEncoder.message_space self) p)
              (Tuples (elements (base_field (ReedMullerPolynomialEncoder.code self)))
                 (Z.to_nat (number_of_variables
                              (ReedMullerPolynomialEncoder.code self)))).
Proof. reflexivity. Qed.

(** C1, as stated, fails for the binary codes: over GF(2) with two
    variables and order 2, the polynomial [x0^2] has degree 2, is encoded
    as the codeword of [x0], and is decoded as [x0]. *)
Lemma unencode_encode_binary_square :
  BinaryReedMullerCode.__init__ (Integer 2) (Integer 2) = Ok RM_2_2_2
  /\ ReedMullerPolynomialEncoder.__init__ (IsReedMuller RM_2_2_2) DefaultRing
     = Ok RM_2_2_2_encoder
  /\ in_ring GF2 2 x0_squared = true
  /\ mp_degree GF2 x0_squared = 2
  /\ ReedMullerPolynomialEncoder.encode RM_2_2_2_encoder
       (@Poly GF2 2 x0_squared eq_refl)
     = Ok [F2_0; F2_1; F2_0; F2_1]
  /\ exists v,
       ReedMullerPolynomialEncoder.unencode_nocheck RM_2_2_2_encoder
         [F2_0; F2_1; F2_0; F2_1] = Ok v
       /\ mp_coeff GF2 (to_poly GF2 2 v) [1; 0]%nat = F2_1
       /\ mp_coeff GF2 x0_squared [1; 0]%nat = F2_0
       /\ ~ mp_eq GF2 (to_poly GF2 2 v) x0_squared.
Proof.
  repeat (split; [reflexivity |]).
  eexists. split; [reflexivity |]. split; [reflexivity |].
  split; [reflexivity |].
  intros H. specialize (H [1; 0]%nat). vm_compute in H. discriminate.
Qed.

(** C1, amended: for a code of non-negative order and a polynomial [p]
    of the encoder's ring, of total degree at most the order and of
    degree less than [q] in every variable (which every polynomial of
    total degree at most the order is when [order < q]),
    [unencode_nocheck(encode(p))] has the coefficients of [p]. *)
Theorem unencode_encode (self : ReedMullerPolynomialEncoder.t)
    (p : mpoly (base_field (ReedMullerPolynomialEncoder.code self))) :
  let C := ReedMullerPolynomialEncoder.code self in
  let K := base_field C in
  let M := ReedMullerPolynomialEncoder.polynomial_ring self in
  field_laws K ->
  M = Z.to_nat (number_of_variables C) ->
  0 <= order C ->
  forall in_M : in_ring K M p = true,
  mp_degree K p <= order C ->
  (order C < cardinality K
   \/ forall e, mp_coeff K p e <> fzero K ->
                forall i, (nth i e O < List.length (elements K))%nat) ->
  exists c v,
    ReedMullerPolynomialEncoder.encode self (Poly p in_M) = Ok c
    /\ ReedMullerPolynomialEncoder.unencode_nocheck self c = Ok v
    /\ mp_eq K (to_poly K M v) p.
Proof.
  intros C K M HK HM Hr Hring Hdeg Hvar.
  assert (Hvar' : forall e, mp_coeff K p e <> fzero K ->
                            forall i, (nth i e O < List.length (elements K))%nat).
  { destruct Hvar as [Hq | Hvar]; [| exact Hvar].
    intros e He i.
    pose proof (mp_degree_bound K HK p e He) as Hb.
    pose proof (nth_le_list_sum e i) as Hn.
    unfold cardinality in Hq. lia. }
  destruct (interpolation_roundtrip K HK M (order C) p Hr Hring Hdeg Hvar')
    as [v [Hv Heq]].
  exists (map (mp_eval K p) (Tuples (elements K) M)), v.
  split; [| split; [| exact Heq]].
  - rewrite encode_element.
    fold C. fold K.
    change (ReedMullerPolynomialEncoder.message_space self) with M.
    destruct (order C <? mp_degree K p) eqn:E; [lia |].
    rewrite <- HM. apply mapM_ok.
    intros x Hx. unfold mp_call.
    rewrite (Tuples_elem_length _ _ _ Hx), Nat.eqb_refl. reflexivity.
  - unfold ReedMullerPolynomialEncoder.unencode_nocheck.
    fold C. fold K. rewrite <- HM. exact Hv.
Qed.

Lemma unencode_encode_witness :
  exists c v,
    ReedMullerPolynomialEncoder.encode RM_3_2_2_encoder
      (@Poly GF3 2 scenario_polynomial eq_refl)
    = Ok c
    /\ ReedMullerPolynomialEncoder.unencode_nocheck RM_3_2_2_encoder c = Ok v
    /\ mp_eq GF3 (to_poly GF3 2 v) scenario_polynomial.
Proof.
  apply (unencode_encode RM_3_2_2_encoder scenario_polynomial).
  - exact GF3_laws.
  - reflexivity.
  - cbn. lia.
  - vm_compute. discriminate.
  - left. vm_compute. reflexivity.
Defined.

(** C4: over GF(3) with two variables and order 2, the polynomial
    [1 + x0 + x1 + x1^2 + x0*x1] is encoded as
    [(1, 2, 0, 0, 2, 1, 1, 1, 1)], and that vector is decoded as a
    polynomial with the same coefficients. *)
Theorem scenario_GF3 :
  QAryReedMullerCode.__init__ (IsFiniteField GF3) (Integer 2) (Integer 2)
  = Ok RM_3_2_2
  /\ ReedMullerPolynomialEncoder.__init__ (IsReedMuller RM_3_2_2) DefaultRing
     = Ok RM_3_2_2_encoder
  /\ ReedMullerPolynomialEncoder.encode RM_3_2_2_encoder
       (@Poly GF3 2 scenario_polynomial eq_refl)
     = Ok scenario_codeword
  /\ exists v,
       ReedMullerPolynomialEncoder.unencode_nocheck RM_3_2_2_encoder
         scenario_codeword = Ok v
       /\ mp_eq GF3 (to_poly GF3 2 v) scenario_polynomial.
Proof.
  repeat (split; [reflexivity |]).
  eexists. split; [reflexivity |].
  apply (mp_eqb_sound GF3 GF3_laws). reflexivity.
Qed.

(** C7, as stated, fails: the membership test of [encode] is Sage's
    [p in M], which holds up to conversion, so that an object that is no
    element of the declared domain need not be rejected.  For the encoder
    of the code over GF(3) of order 2 in two variables, the polynomial
    [x0 + 1] of ZZ[x0, x1] (another base ring) is encoded, and the
    constant polynomial [1] of GF(3)[x0, x1, x2] (another number of
    variables) passes both tests and makes the evaluation raise
    [TypeError]: neither [WrongDomain], nor [DegreeTooHigh], nor a
    vector of values. *)
Lemma encode_outside_domain :
  ReedMullerPolynomialEncoder.encode RM_3_2_2_encoder
    (OtherObject integer_polynomial)
  = Ok [F3_1; F3_2; F3_0; F3_1; F3_2; F3_0; F3_1; F3_2; F3_0]
  /\ ReedMullerPolynomialEncoder.encode RM_3_2_2_encoder
       (OtherObject three_variable_polynomial)
     = Raise TypeError.
Proof.
  split; reflexivity.
Qed.

(** C7, amended: for an encoder made by [__init__] from a constructed
    code, [encode] fails with [WrongDomain] when the membership test
    [p in M] answers [False].  For an element [p] of the ring [M] it
    fails with [DegreeTooHigh] when the total degree of [p] exceeds the
    order, and otherwise (a degree equal to the order included) returns
    the [q^m] values of [p] on the grid.  An object of another parent
    that the membership test accepts is not rejected: [encode] goes on
    with the object's own [degree()] and with its own call; an exception
    of [degree()] is passed on, a degree above the order gives
    [DegreeTooHigh], and otherwise an exception that the call raises at
    every point of the grid is passed on, while values that it returns
    at every point of the grid are returned as the codeword. *)
Theorem encode_cases (self : ReedMullerPolynomialEncoder.t)
    (p : message (base_field (ReedMullerPolynomialEncoder.code self))
           (ReedMullerPolynomialEncoder.message_space self)) :
  let C := ReedMullerPolynomialEncoder.code self in
  let K := base_field C in
  let M := ReedMullerPolynomialEncoder.message_space self in
  let grid := Tuples (elements K) (Z.to_nat (number_of_variables C)) in
  constructed C ->
  (exists ring, ReedMullerPolynomialEncoder.__init__ (IsReedMuller C) ring
                = Ok self) ->
  (contains p = false ->
   ReedMullerPolynomialEncoder.encode self p = Raise WrongDomain)
  /\ (forall f in_M, p = Poly f in_M ->
        order C < mp_degree K f ->
        ReedMullerPolynomialEncoder.encode self p
        = Raise (DegreeTooHigh (order C)))
  /\ (forall f in_M, p = Poly f in_M ->
        mp_degree K f <= order C ->
        ReedMullerPolynomialEncoder.encode self p
        = Ok (map (mp_eval K f) grid)
        /\ Z.of_nat (List.length (map (mp_eval K f) grid))
           = cardinality K ^ number_of_variables C)
  /\ (forall o, p = OtherObject o -> in_message_space o = true ->
        (forall e, object_degree o = Raise e ->
           ReedMullerPolynomialEncoder.encode self p = Raise e)
        /\ (forall d, object_degree o = Ok d -> order C < d ->
              ReedMullerPolynomialEncoder.encode self p
              = Raise (DegreeTooHigh (order C)))
        /\ (forall d, object_degree o = Ok d -> d <= order C ->
              (forall e,
                 (forall x, In x grid -> object_call o x = Raise e) ->
                 ReedMullerPolynomialEncoder.encode self p = Raise e)
              /\ (forall values,
                    (forall x, In x grid -> object_call o x = Ok (values x)) ->
                    ReedMullerPolynomialEncoder.encode self p
                    = Ok (map values grid)
                    /\ Z.of_nat (List.length (map values grid))
                       = cardinality K ^ number_of_variables C))).
Proof.
  cbv zeta. intros HC [ring Hinit].
  set (C := ReedMullerPolynomialEncoder.code self) in *.
  assert (HM : ReedMullerPolynomialEncoder.message_space self
               = Z.to_nat (number_of_variables C)).
  { assert (E : forall s, Ok s = Ok self ->
                          ReedMullerPolynomialEncoder.message_space s
                          = ReedMullerPolynomialEncoder.message_space self)
      by (intros s [= ->]; reflexivity).
    unfold ReedMullerPolynomialEncoder.__init__ in Hinit.
    destruct ring as [|same names].
    - rewrite <- (E _ Hinit). reflexivity.
    - destruct (same && (Z.of_nat names =? number_of_variables C)) eqn:Eb;
        [| discriminate].
      rewrite <- (E _ Hinit). apply andb_true_iff in Eb. destruct Eb as [_ Eb].
      apply Z.eqb_eq in Eb. cbn. lia. }
  assert (Hgrid : forall A (g : list (carrier (base_field C)) -> A),
             Z.of_nat (List.length
                         (map g (Tuples (elements (base_field C))
                                   (Z.to_nat (number_of_variables C)))))
             = cardinality (base_field C) ^ number_of_variables C).
  { intros A g. rewrite length_map, Tuples_length, Nat2Z.inj_pow.
    destruct (constructed_inv C HC) as [Hm _].
    rewrite Z2Nat.id by exact Hm. reflexivity. }
  split; [| split; [| split]].
  - intros Hc. unfold ReedMullerPolynomialEncoder.encode.
    fold C. rewrite Hc. reflexivity.
  - intros f Hring -> Hdeg. rewrite encode_element. fold C.
    destruct (order C <? mp_degree (base_field C) f) eqn:E; [reflexivity | lia].
  - intros f Hring -> Hdeg. split.
    + rewrite encode_element. fold C.
      destruct (order C <? mp_degree (base_field C) f) eqn:E; [lia |].
      apply mapM_ok. intros x Hx. unfold mp_call.
      rewrite (Tuples_elem_length _ _ _ Hx), HM, Nat.eqb_refl. reflexivity.
    + apply Hgrid.
  - intros o -> Hin.
    unfold ReedMullerPolynomialEncoder.encode. fold C.
    cbn [contains degree call]. rewrite Hin.
    cbn [negb]. split; [| split].
    + intros e ->. reflexivity.
    + intros d -> Hd. cbn [bind].
      destruct (Z.ltb_spec (order C) d); [reflexivity | lia].
    + intros d -> Hd. cbn [bind].
      destruct (Z.ltb_spec (order C) d); [lia |]. split.
      * intros e He.
        assert (Hne : (0 < List.length
                             (Tuples (elements (base_field C))
                                (Z.to_nat (number_of_variables C))))%nat).
        { rewrite Tuples_length.
          pose proof (constructed_cardinality C HC) as Hq.
          unfold cardinality in Hq.
          apply Nat.neq_0_lt_0. apply Nat.pow_nonzero. lia. }
        destruct (Tuples (elements (base_field C))
                    (Z.to_nat (number_of_variables C))) as [|x grid];
          [cbn in Hne; lia |].
        cbn [mapM call]. rewrite (He x) by (left; reflexivity). reflexivity.
      * intros values Hv. split; [| apply Hgrid].
        apply mapM_ok. intros x Hx. cbn [call]. apply Hv. exact Hx.
Qed.

Lemma encode_cases_witness :
  constructed RM_3_2_2
  /\ ReedMullerPolynomialEncoder.encode RM_3_2_2_encoder
       (@Poly GF3 2 scenario_polynomial eq_refl)
     = Ok (map (mp_eval GF3 scenario_polynomial) (Tuples (elements GF3) 2))
  /\ mp_degree GF3 scenario_polynomial = order RM_3_2_2
  /\ ReedMullerPolynomialEncoder.encode RM_3_2_2_encoder
       (OtherObject rational_polynomial)
     = Raise WrongDomain
  /\ ReedMullerPolynomialEncoder.encode RM_3_2_2_encoder
       (OtherObject three_variable_polynomial)
     = Raise TypeError.
Proof.
  assert (HC : constructed RM_3_2_2).
  { left. exists GF3, (Integer 2), (Integer 2).
    split; [exact GF3_laws | reflexivity]. }
  assert (HI : exists ring,
             ReedMullerPolynomialEncoder.__init__ (IsReedMuller RM_3_2_2) ring
             = Ok RM_3_2_2_encoder)
    by (exists DefaultRing; reflexivity).
  split; [exact HC |]. split; [| split; [reflexivity | split]].
  - destruct (encode_cases RM_3_2_2_encoder (@Poly GF3 2 scenario_polynomial eq_refl)
                HC HI)
      as [_ [_ [H _]]].
    destruct (H scenario_polynomial eq_refl eq_refl) as [H1 _];
      [vm_compute; discriminate | exact H1].
  - destruct (encode_cases RM_3_2_2_encoder (OtherObject rational_polynomial)
                HC HI) as [H _].
    apply H. reflexivity.
  - destruct (encode_cases RM_3_2_2_encoder
                (OtherObject three_variable_polynomial) HC HI)
      as [_ [_ [_ H]]].
    destruct (H three_variable_polynomial eq_refl eq_refl) as [_ [_ H3]].
    destruct (H3 0 eq_refl) as [H4 _]; [cbn; lia |].
    apply H4. intros x Hx.
    unfold three_variable_polynomial. cbn [object_call]. unfold mp_call.
    replace (@List.length (carrier GF3) x) with 2%nat
      by (symmetry; exact (Tuples_elem_length _ _ _ Hx)).
    reflexivity.
Defined.

(** C10: when the order or the number of variables is zero,
    [unencode_nocheck(c)] is the first entry of [c], an element of the
    field, whatever the other entries are. *)
Theorem unencode_nocheck_first_entry (self : ReedMullerPolynomialEncoder.t)
    (c0 : carrier (base_field (ReedMullerPolynomialEncoder.code self)))
    (rest : list (carrier (base_field (ReedMullerPolynomialEncoder.code self)))) :
  order (ReedMullerPolynomialEncoder.code self) = 0
  \/ number_of_variables (ReedMullerPolynomialEncoder.code self) = 0 ->
  ReedMullerPolynomialEncoder.unencode_nocheck self (c0 :: rest)
  = Ok (Scalar _ c0).
Proof.
  intros H. unfold ReedMullerPolynomialEncoder.unencode_nocheck.
  destruct (Z.to_nat (number_of_variables (ReedMullerPolynomialEncoder.code self)))
    as [|m] eqn:Em.
  - reflexivity.
  - destruct H as [H | H]; [| lia].
    rewrite interpolation_unfold, H. reflexivity.
Qed.

Lemma unencode_nocheck_first_entry_witness :
  ReedMullerPolynomialEncoder.unencode_nocheck
    {| ReedMullerPolynomialEncoder.code_ :=
         {| cls := QAry; base_field := GF3; length_ := 9; _order := 0;
            _num_of_var := 2; _dimension := inject_Z 1 |};
       ReedMullerPolynomialEncoder._polynomial_ring := 2 |}
    [F3_2; F3_0; F3_1; F3_1; F3_0; F3_2; F3_1; F3_1; F3_0]
  = Ok (Scalar GF3 F3_2).
Proof.
  apply (unencode_nocheck_first_entry
           {| ReedMullerPolynomialEncoder.code_ :=
                {| cls := QAry; base_field := GF3; length_ := 9; _order := 0;
                   _num_of_var := 2; _dimension := inject_Z 1 |};
              ReedMullerPolynomialEncoder._polynomial_ring := 2 |}).
  left. reflexivity.
Defined.

(** ** The monomial enumerator *)

Lemma Subsets_exponent_vectors (m c : nat) :
  Subsets m c = map expand (exponent_vectors m c).
Proof.
  unfold Subsets, exponent_vectors.
  induction (seq 0 (m * c + 1)) as [|k l IH]; [reflexivity |].
  cbn [flat_map]. rewrite map_app, IH. reflexivity.
Qed.

Lemma int_vectors_spec (m c k : nat) (v : monomial) :
  In v (int_vectors m c k) -> List.length v = m /\ list_sum v = k.
Proof.
  revert k v. induction m as [|m IH]; intros k v H.
  - destruct k; cbn in H; [| contradiction].
    destruct H as [<- | []]. split; reflexivity.
  - cbn [int_vectors] in H. apply in_flat_map in H.
    destruct H as [a [Ha H]]. apply in_map_iff in H.
    destruct H as [w [<- Hw]]. apply IH in Hw. destruct Hw as [Hl Hs].
    apply in_rev, in_seq in Ha.
    cbn [List.length list_sum fold_right]. unfold list_sum in Hs.
    split; lia.
Qed.

Lemma NoDup_flat_map {A B : Type} (f : A -> list B) (l : list A) :
  NoDup l ->
  (forall a, In a l -> NoDup (f a)) ->
  (forall a b x, In a l -> In b l -> In x (f a) -> In x (f b) -> a = b) ->
  NoDup (flat_map f l).
Proof.
  induction l as [|a l IH]; intros Hnd Hf Hdisj; [constructor |].
  inversion Hnd as [|? ? Ha Hnd']; subst. cbn [flat_map].
  apply NoDup_app.
  - apply Hf. left. reflexivity.
  - apply IH; [exact Hnd' | |].
    + intros b Hb. apply Hf. right. exact Hb.
    + intros b b' x Hb Hb'. apply Hdisj; right; assumption.
  - intros x Hx Hx'. apply in_flat_map in Hx'. destruct Hx' as [b [Hb Hxb]].
    assert (E : a = b).
    { apply (Hdisj a b x); [left; reflexivity | right; exact Hb | exact Hx | exact Hxb]. }
    subst b. contradiction.
Qed.

Lemma NoDup_map_cons {A : Type} (a : A) (l : list (list A)) :
  NoDup l -> NoDup (map (cons a) l).
Proof.
  induction 1 as [|x l Hx Hnd IH]; [constructor |].
  cbn [map]. constructor; [| exact IH].
  intros H. apply in_map_iff in H. destruct H as [y [[= ->] Hy]]. contradiction.
Qed.

Lemma NoDup_rev' {A : Type} (l : list A) : NoDup l -> NoDup (rev l).
Proof.
  induction 1 as [|x l Hx Hnd IH]; [constructor |].
  cbn [rev]. apply NoDup_app; [exact IH | repeat constructor; intros [] |].
  intros a Ha [<- | []]. apply in_rev in Ha. contradiction.
Qed.

Lemma int_vectors_NoDup (m c k : nat) : NoDup (int_vectors m c k).
Proof.
  revert k. induction m as [|m IH]; intros k.
  - destruct k; cbn; repeat constructor. intros [].
  - cbn [int_vectors]. apply NoDup_flat_map.
    + apply NoDup_rev'. apply seq_NoDup.
    + intros a _. apply NoDup_map_cons. apply IH.
    + intros a b x _ _ Ha Hb.
      apply in_map_iff in Ha. destruct Ha as [w [<- _]].
      apply in_map_iff in Hb. destruct Hb as [w' [[= ->] _]]. reflexivity.
Qed.

Lemma exponent_vectors_NoDup (m c : nat) : NoDup (exponent_vectors m c).
Proof.
  unfold exponent_vectors. apply NoDup_flat_map.
  - apply seq_NoDup.
  - intros k _. apply int_vectors_NoDup.
  - intros a b x _ _ Ha Hb.
    apply int_vectors_spec in Ha. apply int_vectors_spec in Hb. lia.
Qed.

Lemma exponent_vectors_length (m c : nat) (v : monomial) :
  In v (exponent_vectors m c) -> List.length v = m.
Proof.
  unfold exponent_vectors. intros H. apply in_flat_map in H.
  destruct H as [k [_ H]]. apply int_vectors_spec in H. tauto.
Qed.

Lemma expand_from_bounds (j : nat) (v : monomial) (x : nat) :
  In x (expand_from j v) -> (j <= x < j + List.length v)%nat.
Proof.
  revert j. induction v as [|a v IH]; intros j H; [contradiction |].
  cbn [expand_from] in H. apply in_app_or in H. destruct H as [H | H].
  - apply repeat_spec in H. subst x. cbn [List.length]. lia.
  - apply IH in H. cbn [List.length]. lia.
Qed.

(** An exponent tuple is read off its expansion: the variable [j + i]
    occurs [v_i] times. *)
Lemma count_expand_from (j : nat) (v : monomial) (i : nat) :
  count_occ Nat.eq_dec (expand_from j v) (j + i)%nat = nth i v O.
Proof.
  revert j i. induction v as [|a v IH]; intros j i.
  - destruct i; reflexivity.
  - cbn [expand_from]. rewrite count_occ_app. destruct i as [|i].
    + rewrite Nat.add_0_r, count_occ_repeat_eq by reflexivity.
      cbn [nth].
      assert (E : count_occ Nat.eq_dec (expand_from (S j) v) j = O).
      { apply count_occ_not_In. intros H. apply expand_from_bounds in H. lia. }
      rewrite E. lia.
    + rewrite count_occ_repeat_neq by lia. cbn [nth Nat.add].
      replace (j + S i)%nat with (S j + i)%nat by lia. apply IH.
Qed.

Lemma expand_injective (v v' : monomial) :
  List.length v = List.length v' -> expand v = expand v' -> v = v'.
Proof.
  intros Hl He. apply (nth_ext _ _ O O Hl). intros i _.
  rewrite <- (count_expand_from 0 v i), <- (count_expand_from 0 v' i).
  unfold expand in He. rewrite He. reflexivity.
Qed.

Lemma Subsets_NoDup (m c : nat) : NoDup (Subsets m c).
Proof.
  rewrite Subsets_exponent_vectors.
  pose proof (exponent_vectors_NoDup m c) as Hnd.
  pose proof (exponent_vectors_length m c) as Hlen.
  induction (exponent_vectors m c) as [|v l IH]; [constructor |].
  inversion Hnd as [|? ? Hv Hnd']; subst. cbn [map]. constructor.
  - intros H. apply in_map_iff in H. destruct H as [w [Hw Hin]].
    apply expand_injective in Hw.
    + subst w. contradiction.
    + rewrite (Hlen w) by (right; exact Hin).
      rewrite (Hlen v) by (left; reflexivity). reflexivity.
  - apply IH; [exact Hnd' |]. intros w Hw. apply Hlen. right. exact Hw.
Qed.

(** *** Counting the exponent tuples *)

Lemma list_sum_rev (l : list nat) : list_sum (rev l) = list_sum l.
Proof.
  induction l as [|a l IH]; [reflexivity |].
  cbn [rev]. rewrite list_sum_app, IH. unfold list_sum. cbn [fold_right]. lia.
Qed.

Lemma psum_seq (g : nat -> nat) (k : nat) :
  list_sum (map g (seq 0 (S k))) = psum g k.
Proof.
  induction k as [|k IH]; [cbn; lia |].
  rewrite seq_S, map_app, list_sum_app, IH.
  cbn [Nat.add map psum]. unfold list_sum. cbn [fold_right]. lia.
Qed.

Lemma psum_reflect (g : nat -> nat) (k : nat) :
  list_sum (map (fun a => g (k - a)%nat) (seq 0 (S k))) = psum g k.
Proof.
  induction k as [|k IH]; [cbn; lia |].
  change (seq 0 (S (S k))) with (O :: seq 1 (S k)).
  rewrite <- seq_shift, map_cons, map_map.
  cbn [list_sum fold_right psum].
  fold (list_sum (map (fun x => g (S k - S x)%nat) (seq 0 (S k)))).
  rewrite (map_ext (fun x => g (S k - S x)%nat) (fun a => g (k - a)%nat))
    by reflexivity.
  rewrite IH, Nat.sub_0_r. lia.
Qed.

Lemma psum_ext (g h : nat -> nat) (k : nat) :
  (forall i, (i <= k)%nat -> g i = h i) -> psum g k = psum h k.
Proof.
  induction k as [|k IH]; intros H; cbn [psum].
  - apply H. lia.
  - rewrite IH by (intros; apply H; lia). rewrite (H (S k)) by lia. reflexivity.
Qed.

Lemma psum_mono (g : nat -> nat) (k k' : nat) :
  (k <= k')%nat -> (psum g k <= psum g k')%nat.
Proof.
  induction 1 as [|k' Hk IH]; [lia |]. cbn [psum]. lia.
Qed.

Lemma binomial_partial_sum_psum (n k : nat) :
  binomial_partial_sum n k = psum (choose n) k.
Proof.
  induction k as [|k IH]; [reflexivity |].
  cbn [binomial_partial_sum psum]. rewrite IH. reflexivity.
Qed.

(** The hockey-stick identity. *)
Lemma psum_choose (n k : nat) :
  psum (fun i => choose (n + i) i) k = choose (S n + k) k.
Proof.
  induction k as [|k IH].
  - cbn [psum]. rewrite !choose_0_r. reflexivity.
  - cbn [psum]. rewrite IH.
    replace (S n + S k)%nat with (S (S n + k)) by lia.
    rewrite choose_pascal.
    replace (n + S k)%nat with (S n + k)%nat by lia. reflexivity.
Qed.

Lemma length_int_vectors_0 (c k : nat) :
  List.length (int_vectors 0 c k) = match k with O => 1%nat | S _ => 0%nat end.
Proof. destruct k; reflexivity. Qed.

Lemma length_int_vectors_S (m c k : nat) :
  List.length (int_vectors (S m) c k)
  = list_sum (map (fun a => List.length (int_vectors m c (k - a)))
                  (seq 0 (Nat.min c k + 1))).
Proof.
  cbn [int_vectors]. rewrite length_flat_map, map_rev, list_sum_rev.
  apply f_equal. apply map_ext. intros a. apply length_map.
Qed.

Lemma length_int_vectors_unbounded (m c k : nat) :
  (k <= c)%nat ->
  List.length (int_vectors (S m) c k)
  = psum (fun i => List.length (int_vectors m c i)) k.
Proof.
  intros Hk. rewrite length_int_vectors_S.
  replace (Nat.min c k + 1)%nat with (S k) by lia.
  apply (psum_reflect (fun i => List.length (int_vectors m c i))).
Qed.

(** With multiplicities up to [c], the exponent tuples over [m]
    variables of total degree at most [k <= c] are [C(m+k, k)] many. *)
Lemma count_int_vectors (m c k : nat) :
  (k <= c)%nat ->
  psum (fun i => List.length (int_vectors m c i)) k = choose (m + k) k.
Proof.
  revert k. induction m as [|m IH]; intros k Hk.
  - cbn [Nat.add]. rewrite choose_diag.
    induction k as [|k IHk]; [reflexivity |].
    cbn [psum]. rewrite IHk by lia. reflexivity.
  - rewrite (psum_ext _ (fun i => choose (m + i) i)).
    + apply psum_choose.
    + intros i Hi. rewrite length_int_vectors_unbounded by lia.
      apply IH. lia.
Qed.

(** With multiplicities up to [1], those of total degree exactly [k]
    are [C(m, k)] many. *)
Lemma count_int_vectors_squarefree (m k : nat) :
  List.length (int_vectors m 1 k) = choose m k.
Proof.
  revert k. induction m as [|m IH]; intros k.
  - destruct k; reflexivity.
  - rewrite length_int_vectors_S. destruct k as [|k].
    + cbn [Nat.min Nat.add seq map Nat.sub].
      rewrite IH, !choose_0_r. reflexivity.
    + replace (Nat.min 1 (S k)) with 1%nat by lia.
      cbn [Nat.add seq map Nat.sub]. rewrite !IH, Nat.sub_0_r, choose_pascal.
      unfold list_sum. cbn [fold_right]. lia.
Qed.

Lemma length_int_vectors_degree_0 (m c : nat) :
  List.length (int_vectors m c 0) = 1%nat.
Proof.
  induction m as [|m IH]; [reflexivity |].
  rewrite length_int_vectors_S, Nat.min_0_r.
  cbn [Nat.add seq map Nat.sub]. rewrite IH. reflexivity.
Qed.

Lemma length_exponent_vectors (m c : nat) :
  List.length (exponent_vectors m c)
  = psum (fun k => List.length (int_vectors m c k)) (m * c).
Proof.
  unfold exponent_vectors. rewrite length_flat_map.
  replace (m * c + 1)%nat with (S (m * c)) by lia.
  apply (psum_seq (fun k => List.length (int_vectors m c k))).
Qed.

(** The enumerator holds at least as many exponent tuples as the
    dimension of the code. *)
Lemma enough_exponents_qary (m r : nat) :
  (choose (m + r) r <= List.length (exponent_vectors m r))%nat.
Proof.
  rewrite length_exponent_vectors. destruct m as [|m].
  - cbn [Nat.mul Nat.add psum]. rewrite choose_diag. cbn. lia.
  - pose proof (count_int_vectors (S m) r r (le_n r)) as E.
    rewrite <- E. apply psum_mono. nia.
Qed.

Lemma enough_exponents_binary (m r : nat) :
  (r <= m)%nat ->
  (binomial_partial_sum m r
   <= List.length (exponent_vectors m (Nat.min r 1)))%nat.
Proof.
  intros Hr. rewrite length_exponent_vectors, binomial_partial_sum_psum.
  destruct r as [|r].
  - cbn [Nat.min]. rewrite Nat.mul_0_r. cbn [psum].
    rewrite length_int_vectors_degree_0, choose_0_r. lia.
  - replace (Nat.min (S r) 1) with 1%nat by lia. rewrite Nat.mul_1_r.
    rewrite (psum_ext (fun k => List.length (int_vectors m 1 k)) (choose m) m)
      by (intros; apply count_int_vectors_squarefree).
    apply psum_mono. exact Hr.
Qed.

Lemma constructed_dimension (C : Code) :
  constructed C ->
  AbstractLinearCode.dimension C
  = match cls C with
    | QAry => inject_Z (binomial (number_of_variables C + order C) (order C))
    | Binary => _binomial_sum (number_of_variables C) (order C)
    end.
Proof.
  intros [[K [o [m [HK H]]]] | [o [m H]]].
  - destruct o as [r|]; [| discriminate]. destruct m as [m|]; [| discriminate].
    cbn [QAryReedMullerCode.__init__] in H.
    destruct (cardinality K <=? r); [discriminate |].
    destruct (AbstractLinearCode.__init__ (sage_pow (cardinality K) m));
      [| discriminate].
    cbn [bind] in H. injection H as <-. reflexivity.
  - destruct o as [r|]; [| discriminate]. destruct m as [m|]; [| discriminate].
    cbn [BinaryReedMullerCode.__init__] in H.
    destruct (m <? r); [discriminate |].
    destruct (AbstractLinearCode.__init__ (sage_pow 2 m)); [| discriminate].
    cbn [bind] in H. injection H as <-. reflexivity.
Qed.

(** ** The generator matrix *)

Section GeneratorMatrix.

Variable K : FiniteField.
Hypothesis HK : field_laws K.

Local Abbreviation F := (carrier K).
Local Notation "0" := (fzero K) : field_scope.
Local Notation "1" := (fone K) : field_scope.
Local Infix "*" := (fmul K) : field_scope.
Local Infix "+" := (fadd K) : field_scope.
Local Open Scope field_scope.

Add Field K_field' : (fl_field HK).

Lemma fold_left_repeat (c : F) (a : nat) (acc : F) :
  fold_left (fmul K) (repeat c a) acc = acc * fpow K c a.
Proof.
  revert acc. induction a as [|a IH]; intros acc; cbn [repeat fold_left fpow].
  - ring.
  - rewrite IH. ring.
Qed.

Lemma hd_skipn (j : nat) (x : list F) : hd 0 (skipn j x) = nth j x 0.
Proof.
  revert x. induction j as [|j IH]; intros [|b x]; cbn; auto.
Qed.

Lemma tl_skipn (j : nat) (x : list F) : tl (skipn j x) = skipn (S j) x.
Proof.
  revert x. induction j as [|j IH]; intros [|b x]; cbn; auto.
Qed.

(** The product of the coordinates listed by an expansion is the value
    of the monomial: the product of the [x_j ^ v_j]. *)
Lemma product_expand (x : list F) (v : monomial) (j : nat) (acc : F) :
  fold_left (fmul K) (map (fun i => nth i x 0) (expand_from j v)) acc
  = acc * monomial_eval K v (skipn j x).
Proof.
  revert j acc. induction v as [|a v IH]; intros j acc.
  - cbn. ring.
  - cbn [expand_from monomial_eval].
    rewrite map_app, fold_left_app, map_repeat, fold_left_repeat, IH.
    rewrite hd_skipn, tl_skipn. ring.
Qed.

Lemma generator_entry (m : nat) (v : monomial) (x : list F) :
  List.length v = m -> List.length x = m ->
  (xs <- mapM (fun i => index x (Z.of_nat i)) (expand v) ;;
   Ok (fold_left (fmul K) xs 1))
  = Ok (monomial_eval K v x).
Proof.
  intros Hv Hx.
  rewrite (mapM_ok _ (fun i => nth i x 0)).
  - cbn [bind]. unfold expand. rewrite product_expand. cbn [skipn].
    f_equal. ring.
  - intros i Hi. apply expand_from_bounds in Hi. apply index_nth. lia.
Qed.

(** The loop of [generator_matrix], over an enumeration [vs] of exponent
    tuples without repetition: it returns its rows when the enumeration
    has an element after the last row. *)
Lemma generator_loop (m : nat) (vs : list monomial) :
  (forall v, In v vs -> List.length v = m) ->
  NoDup (map expand vs) ->
  forall (len a : nat) (acc : matrix K),
    (a + len < List.length vs)%nat ->
    foldM (ReedMullerVectorEncoder.generator_matrix_step K (Tuples (elements K) m) (map expand vs))
          (map Z.of_nat (seq a len)) (acc, expand (nth a vs []))
    = Ok (acc ++ map (fun i => generator_row K m (nth i vs [])) (seq a len),
          expand (nth (a + len) vs [])).
Proof.
  intros Hlen Hnd.
  induction len as [|len IH]; intros a acc Ha.
  - cbn. rewrite app_nil_r, Nat.add_0_r. reflexivity.
  - cbn [seq map foldM]. unfold ReedMullerVectorEncoder.generator_matrix_step at 1.
    assert (Hva : List.length (nth a vs []) = m)
      by (apply Hlen; apply nth_In; lia).
    rewrite (mapM_ok _ (monomial_eval K (nth a vs []))).
    + cbn [bind]. fold (generator_row K m (nth a vs [])).
      unfold Subsets_next.
      rewrite <- (map_nth expand vs [] a).
      rewrite (next_in_nth list_nat_eqb (map expand vs) a (expand []));
        [| apply list_nat_eqb_eq | exact Hnd | rewrite length_map; lia].
      cbn [of_option bind]. rewrite (map_nth expand vs [] (S a)).
      rewrite (IH (S a)) by lia.
      rewrite <- app_assoc, Nat.add_succ_r. reflexivity.
    + intros x Hx. apply (generator_entry m); [exact Hva |].
      apply (Tuples_elem_length (elements K)). exact Hx.
Qed.

(** When the rows use up the enumeration, the step after the last row
    raises [StopIteration]. *)
Lemma generator_loop_stop (m : nat) (vs : list monomial) :
  (forall v, In v vs -> List.length v = m) ->
  NoDup (map expand vs) ->
  forall (len a : nat) (acc : matrix K),
    (0 < len)%nat -> (a + len = List.length vs)%nat ->
    foldM (ReedMullerVectorEncoder.generator_matrix_step K (Tuples (elements K) m) (map expand vs))
          (map Z.of_nat (seq a len)) (acc, expand (nth a vs []))
    = Raise StopIteration.
Proof.
  intros Hlen Hnd.
  induction len as [|len IH]; intros a acc Hpos Ha; [lia |].
  cbn [seq map foldM]. unfold ReedMullerVectorEncoder.generator_matrix_step at 1.
  assert (Hva : List.length (nth a vs []) = m)
    by (apply Hlen; apply nth_In; lia).
  rewrite (mapM_ok _ (monomial_eval K (nth a vs []))).
  - cbn [bind]. unfold Subsets_next.
    rewrite <- (map_nth expand vs [] a).
    destruct len as [|len].
    + rewrite (next_in_last list_nat_eqb (map expand vs) a (expand []));
        [reflexivity | apply list_nat_eqb_eq | exact Hnd |].
      rewrite length_map. lia.
    + rewrite (next_in_nth list_nat_eqb (map expand vs) a (expand []));
        [| apply list_nat_eqb_eq | exact Hnd | rewrite length_map; lia].
      cbn [of_option bind]. rewrite (map_nth expand vs [] (S a)).
      apply IH; lia.
  - intros x Hx. apply (generator_entry m); [exact Hva |].
    apply (Tuples_elem_length (elements K)). exact Hx.
Qed.

End GeneratorMatrix.

Lemma exponent_vectors_nonempty (m c : nat) :
  (0 < List.length (exponent_vectors m c))%nat.
Proof.
  rewrite length_exponent_vectors.
  pose proof (psum_mono (fun k => List.length (int_vectors m c k)) 0 (m * c)) as H.
  cbn [psum] in H. rewrite length_int_vectors_degree_0 in H. lia.
Qed.

(** The number of rows that [generator_matrix] asks for is the dimension,
    and the enumerator has that many exponent tuples. *)
Lemma dimension_rows (C : Code) :
  constructed C -> 0 <= order C ->
  let k := Z.to_nat (Qfloor (AbstractLinearCode.dimension C)) in
  inject_Z (Z.of_nat k) = AbstractLinearCode.dimension C
  /\ (k <= List.length
            (exponent_vectors
               (Z.to_nat (number_of_variables C))
               (Z.to_nat (Z.min (order C) (cardinality (base_field C) - 1)))))%nat.
Proof.
  intros HC Hr k. subst k.
  rewrite (constructed_dimension C HC).
  destruct (constructed_inv C HC) as [Hm [_ Hcls]].
  destruct (cls C).
  - rewrite binomial_nonneg by lia. rewrite Qfloor_Z, Nat2Z.id.
    split; [reflexivity |].
    replace (Z.min (order C) (cardinality (base_field C) - 1))
      with (order C) by lia.
    replace (Z.to_nat (number_of_variables C + order C))
      with (Z.to_nat (number_of_variables C) + Z.to_nat (order C))%nat by lia.
    apply enough_exponents_qary.
  - destruct Hcls as [EK Hle].
    assert (Hq : cardinality (base_field C) = 2) by (rewrite EK; reflexivity).
    pose proof (binomial_sum_closed_form
                  (Z.to_nat (number_of_variables C)) (Z.to_nat (order C))) as HB.
    rewrite !Z2Nat.id in HB by lia. rewrite HB, Qfloor_Z, Nat2Z.id.
    split; [reflexivity |].
    rewrite Hq.
    replace (Z.to_nat (Z.min (order C) (2 - 1)))
      with (Nat.min (Z.to_nat (order C)) 1) by lia.
    apply enough_exponents_binary. lia.
Qed.

(** The dimension counts the exponent tuples of total degree at most the
    order. *)
Lemma dimension_count (C : Code) :
  constructed C -> 0 <= order C ->
  let m := Z.to_nat (number_of_variables C) in
  let c := Z.to_nat (Z.min (order C) (cardinality (base_field C) - 1)) in
  Z.to_nat (Qfloor (AbstractLinearCode.dimension C))
  = psum (fun j => List.length (int_vectors m c j))
         (Nat.min (Z.to_nat (order C)) (m * c)).
Proof.
  intros HC Hr m c. subst m c.
  rewrite (constructed_dimension C HC).
  destruct (constructed_inv C HC) as [Hm [_ Hcls]].
  destruct (cls C).
  - rewrite binomial_nonneg by lia. rewrite Qfloor_Z, Nat2Z.id.
    replace (Z.min (order C) (cardinality (base_field C) - 1))
      with (order C) by lia.
    replace (Z.to_nat (number_of_variables C + order C))
      with (Z.to_nat (number_of_variables C) + Z.to_nat (order C))%nat by lia.
    destruct (Z.to_nat (number_of_variables C)) as [|m].
    + cbn [Nat.mul Nat.add]. rewrite Nat.min_0_r, choose_diag. reflexivity.
    + replace (Nat.min (Z.to_nat (order C)) (S m * Z.to_nat (order C)))
        with (Z.to_nat (order C)) by nia.
      symmetry. apply count_int_vectors. lia.
  - destruct Hcls as [EK Hle].
    assert (Hq : cardinality (base_field C) = 2) by (rewrite EK; reflexivity).
    pose proof (binomial_sum_closed_form
                  (Z.to_nat (number_of_variables C)) (Z.to_nat (order C))) as HB.
    rewrite !Z2Nat.id in HB by lia. rewrite HB, Qfloor_Z, Nat2Z.id.
    rewrite Hq, binomial_partial_sum_psum.
    replace (Z.to_nat (Z.min (order C) (2 - 1)))
      with (Nat.min (Z.to_nat (order C)) 1) by lia.
    destruct (Z.to_nat (order C)) as [|r] eqn:Er.
    + cbn [Nat.min psum].
      rewrite length_int_vectors_degree_0, choose_0_r. reflexivity.
    + replace (Nat.min (S r) 1) with 1%nat by lia. rewrite Nat.mul_1_r.
      replace (Nat.min (S r) (Z.to_nat (number_of_variables C)))
        with (S r) by lia.
      apply psum_ext. intros i _. symmetry.
      apply count_int_vectors_squarefree.
Qed.

Lemma psum_strict (g : nat -> nat) (k k' : nat) :
  (k < k')%nat -> (0 < g k')%nat -> (psum g k < psum g k')%nat.
Proof.
  intros Hk Hg. destruct k' as [|k']; [lia |].
  pose proof (psum_mono g k k') as H. cbn [psum]. lia.
Qed.

(** The enumeration ends with the exponent tuple that has [c] for every
    variable. *)
Lemma int_vectors_top (m c : nat) : In (repeat c m) (int_vectors m c (m * c)).
Proof.
  induction m as [|m IH]; [left; reflexivity |].
  cbn [int_vectors repeat]. apply in_flat_map. exists c. split.
  - apply -> in_rev. apply in_seq. cbn [Nat.mul]. lia.
  - apply in_map.
    replace (S m * c - c)%nat with (m * c)%nat by (cbn [Nat.mul]; lia).
    exact IH.
Qed.

(** Whether the enumeration has an exponent tuple left after the rows of
    the matrix. *)
Lemma rows_and_exponents (C : Code) :
  constructed C -> 0 <= order C ->
  let m := Z.to_nat (number_of_variables C) in
  let c := Z.to_nat (Z.min (order C) (cardinality (base_field C) - 1)) in
  let k := Z.to_nat (Qfloor (AbstractLinearCode.dimension C)) in
  (order C
   < number_of_variables C * Z.min (order C) (cardinality (base_field C) - 1)
   -> (k < List.length (exponent_vectors m c))%nat)
  /\ (number_of_variables C * Z.min (order C) (cardinality (base_field C) - 1)
      <= order C
      -> k = List.length (exponent_vectors m c)).
Proof.
  intros HC Hr m c k.
  pose proof (dimension_count C HC Hr) as Hk. cbv zeta in Hk.
  fold m c k in Hk.
  destruct (constructed_inv C HC) as [Hm [_ Hcls]].
  assert (Hmin : 0 <= Z.min (order C) (cardinality (base_field C) - 1)).
  { destruct (cls C); [lia |]. destruct Hcls as [-> _]. cbn. lia. }
  assert (Hmc : Z.of_nat (m * c)
                = number_of_variables C
                  * Z.min (order C) (cardinality (base_field C) - 1)).
  { unfold m, c. rewrite Nat2Z.inj_mul, !Z2Nat.id by lia. reflexivity. }
  rewrite length_exponent_vectors. split; intros H.
  - replace (Nat.min (Z.to_nat (order C)) (m * c)) with (Z.to_nat (order C))
      in Hk by lia.
    rewrite Hk. apply psum_strict; [lia |].
    pose proof (int_vectors_top m c) as Hin.
    destruct (int_vectors m c (m * c)); [contradiction | cbn; lia].
  - replace (Nat.min (Z.to_nat (order C)) (m * c)) with (m * c)%nat
      in Hk by lia.
    exact Hk.
Qed.

(** The rows that the body of [generator_matrix] computes, when the
    enumeration has an exponent tuple left after them. *)
Lemma generator_matrix_body_rows (C : Code) :
  field_laws (base_field C) -> constructed C -> 0 <= order C ->
  order C
  < number_of_variables C * Z.min (order C) (cardinality (base_field C) - 1) ->
  ReedMullerVectorEncoder.generator_matrix_body C
  = Ok (map (fun i =>
               generator_row (base_field C)
                 (Z.to_nat (number_of_variables C))
                 (nth i (exponent_vectors
                           (Z.to_nat (number_of_variables C))
                           (Z.to_nat (Z.min (order C)
                                        (cardinality (base_field C) - 1))))
                      []))
            (seq 0 (Z.to_nat (Qfloor (AbstractLinearCode.dimension C))))).
Proof.
  intros HK HC Hr Hleft.
  destruct (rows_and_exponents C HC Hr) as [Hlt _]. cbv zeta in Hlt.
  specialize (Hlt Hleft).
  set (K := base_field C) in *.
  set (m := Z.to_nat (number_of_variables C)) in *.
  set (exponents :=
         exponent_vectors m (Z.to_nat (Z.min (order C) (cardinality K - 1)))) in *.
  set (k := Z.to_nat (Qfloor (AbstractLinearCode.dimension C))) in *.
  unfold ReedMullerVectorEncoder.generator_matrix_body. cbv zeta.
  rewrite Subsets_exponent_vectors.
  fold K m exponents k.
  assert (Hfirst : Subsets_first (map expand exponents)
                   = Ok (expand (nth 0 exponents []))).
  { unfold Subsets_first. destruct exponents; [cbn in Hlt; lia | reflexivity]. }
  rewrite Hfirst. cbn [bind]. unfold range. fold k.
  rewrite (generator_loop K HK m exponents).
  - reflexivity.
  - intros v Hv. apply (exponent_vectors_length _ _ _ Hv).
  - unfold exponents. rewrite <- Subsets_exponent_vectors.
    apply Subsets_NoDup.
  - lia.
Qed.

(** When the rows use up the enumeration, the body of [generator_matrix]
    raises [StopIteration]. *)
Lemma generator_matrix_body_stop (C : Code) :
  field_laws (base_field C) -> constructed C -> 0 <= order C ->
  number_of_variables C * Z.min (order C) (cardinality (base_field C) - 1)
  <= order C ->
  ReedMullerVectorEncoder.generator_matrix_body C = Raise StopIteration.
Proof.
  intros HK HC Hr Hall.
  destruct (rows_and_exponents C HC Hr) as [_ Heq]. cbv zeta in Heq.
  specialize (Heq Hall).
  pose proof (exponent_vectors_nonempty
                (Z.to_nat (number_of_variables C))
                (Z.to_nat (Z.min (order C) (cardinality (base_field C) - 1))))
    as Hne.
  set (K := base_field C) in *.
  set (m := Z.to_nat (number_of_variables C)) in *.
  set (exponents :=
         exponent_vectors m (Z.to_nat (Z.min (order C) (cardinality K - 1)))) in *.
  set (k := Z.to_nat (Qfloor (AbstractLinearCode.dimension C))) in *.
  unfold ReedMullerVectorEncoder.generator_matrix_body. cbv zeta.
  rewrite Subsets_exponent_vectors.
  fold K m exponents k.
  assert (Hfirst : Subsets_first (map expand exponents)
                   = Ok (expand (nth 0 exponents []))).
  { unfold Subsets_first. destruct exponents; [cbn in Hne; lia | reflexivity]. }
  rewrite Hfirst. cbn [bind]. unfold range. fold k.
  rewrite (generator_loop_stop K HK m exponents).
  - reflexivity.
  - intros v Hv. apply (exponent_vectors_length _ _ _ Hv).
  - unfold exponents. rewrite <- Subsets_exponent_vectors.
    apply Subsets_NoDup.
  - lia.
  - lia.
Qed.

(** C2, as stated, fails on valid codes: for the code over GF(3) of
    order 0 in two variables, whose dimension is 1, and for the binary
    code of order 2 in two variables, whose dimension is 4,
    [generator_matrix] raises [StopIteration] instead of returning a
    matrix, since the loop asks for the exponent tuple after the last
    row and the enumeration has none. *)
Theorem generator_matrix_stop_iteration :
  QAryReedMullerCode.__init__ (IsFiniteField GF3) (Integer 0) (Integer 2)
  = Ok RM_3_0_2
  /\ ReedMullerVectorEncoder.__init__ (IsReedMuller RM_3_0_2)
     = Ok RM_3_0_2_vector_encoder
  /\ ReedMullerVectorEncoder.generator_matrix RM_3_0_2_vector_encoder
       (empty_store GF3)
     = Raise StopIteration
  /\ BinaryReedMullerCode.__init__ (Integer 2) (Integer 2) = Ok RM_2_2_2
  /\ ReedMullerVectorEncoder.__init__ (IsReedMuller RM_2_2_2)
     = Ok RM_2_2_2_vector_encoder
  /\ ReedMullerVectorEncoder.generator_matrix RM_2_2_2_vector_encoder
       (empty_store GF2)
     = Raise StopIteration.
Proof.
  repeat split; vm_compute; reflexivity.
Qed.

(** * Further properties of the code *)

(** ** [_binomial_sum] *)

Lemma binomial_partial_sum_beyond (n k : nat) :
  (n <= k)%nat -> binomial_partial_sum n k = binomial_partial_sum n n.
Proof.
  induction 1 as [|k Hk IH]; [reflexivity |].
  cbn [binomial_partial_sum]. rewrite IH, choose_gt by lia. lia.
Qed.

Lemma binomial_partial_sum_full (n : nat) :
  binomial_partial_sum n n = (2 ^ n)%nat.
Proof.
  induction n as [|n IH]; [reflexivity |].
  rewrite binomial_partial_sum_pascal, (binomial_partial_sum_beyond n (S n)), IH
    by lia.
  cbn [Nat.pow]. lia.
Qed.

(** X1: [_binomial_sum(n, k)] is the number of subsets of at most [k]
    elements of a set of [n]: the partial binomial sum, whatever the
    order of [n] and [k]. *)
Theorem binomial_sum_partial_sums (n k : Z) :
  0 <= n -> 0 <= k ->
  _binomial_sum n k
  = inject_Z (Z.of_nat (binomial_partial_sum (Z.to_nat n) (Z.to_nat k))).
Proof.
  intros Hn Hk.
  pose proof (binomial_sum_closed_form (Z.to_nat n) (Z.to_nat k)) as H.
  rewrite !Z2Nat.id in H by assumption. exact H.
Qed.

Lemma binomial_sum_partial_sums_witness :
  0 <= 4 /\ 0 <= 2 /\ _binomial_sum 4 2 = inject_Z 11.
Proof.
  split; [lia |]. split; [lia |].
  apply (binomial_sum_partial_sums 4 2); lia.
Defined.

(** X2: once [k] reaches [n], [_binomial_sum(n, k)] is [2^n], the number
    of all subsets. *)
Theorem binomial_sum_all_subsets (n k : Z) :
  0 <= n <= k -> _binomial_sum n k = inject_Z (2 ^ n).
Proof.
  intros Hnk.
  pose proof (binomial_sum_closed_form (Z.to_nat n) (Z.to_nat k)) as H.
  rewrite !Z2Nat.id in H by lia. rewrite H.
  rewrite binomial_partial_sum_beyond, binomial_partial_sum_full by lia.
  rewrite Nat2Z.inj_pow, Z2Nat.id by lia. reflexivity.
Qed.

Lemma binomial_sum_all_subsets_witness :
  0 <= 3 <= 5 /\ _binomial_sum 3 5 = inject_Z 8.
Proof.
  split; [lia |]. apply (binomial_sum_all_subsets 3 5). lia.
Defined.

(** X3: for [k <= 0] the loop does not run and [_binomial_sum(n, k)] is
    [1], also for a negative [k]. *)
Theorem binomial_sum_no_round (n k : Z) :
  k <= 0 -> _binomial_sum n k = 1%Q.
Proof.
  intros Hk. unfold _binomial_sum, range.
  replace (Z.to_nat k) with O by lia. reflexivity.
Qed.

Lemma binomial_sum_no_round_witness :
  -3 <= 0 /\ _binomial_sum 4 (-3) = 1%Q.
Proof.
  split; [lia |]. apply (binomial_sum_no_round 4 (-3)). lia.
Defined.

(** ** The code classes *)

(** X4: for a constructed q-ary code with at least one variable the
    minimum distance is the integer [(q - order) * q^(num_of_var - 1)];
    for a constructed binary code it is the integer
    [2^(num_of_var - order)]. *)
Theorem minimum_distance_integral (C : Code) :
  constructed C ->
  match cls C with
  | QAry =>
      1 <= number_of_variables C ->
      minimum_distance C
      = inject_Z ((cardinality (base_field C) - order C)
                  * cardinality (base_field C) ^ (number_of_variables C - 1))
  | Binary =>
      minimum_distance C = inject_Z (2 ^ (number_of_variables C - order C))
  end.
Proof.
  intros HC. destruct (constructed_inv C HC) as [Hm [Hl Hcls]].
  unfold minimum_distance, order, number_of_variables in *.
  destruct (cls C) eqn:Ecls.
  - intros H1. unfold QAryReedMullerCode.minimum_distance.
    rewrite Hl.
    pose proof (constructed_cardinality C HC) as Hq.
    set (q := cardinality (base_field C)) in *.
    unfold QAryReedMullerCode.number_of_variables,
      QAryReedMullerCode.order in *.
    replace (q ^ _num_of_var C) with (q * q ^ (_num_of_var C - 1)).
    + replace ((q - _order C) * (q * q ^ (_num_of_var C - 1)))
        with (q * ((q - _order C) * q ^ (_num_of_var C - 1))) by ring.
      apply sage_div_exact. lia.
    + rewrite <- Z.pow_succ_r by lia. f_equal. lia.
  - unfold BinaryReedMullerCode.minimum_distance.
    destruct Hcls as [_ Hle].
    apply sage_pow_nonneg.
    unfold BinaryReedMullerCode.number_of_variables,
      BinaryReedMullerCode.order in *. lia.
Qed.

Lemma minimum_distance_integral_witness :
  constructed RM_3_2_2 /\ minimum_distance RM_3_2_2 = inject_Z 3.
Proof.
  assert (HC : constructed RM_3_2_2).
  { left. exists GF3, (Integer 2), (Integer 2).
    split; [exact GF3_laws | reflexivity]. }
  split; [exact HC |].
  apply (minimum_distance_integral RM_3_2_2 HC). cbn. lia.
Defined.

(** X5: [==] is an equivalence relation on codes. *)
Theorem code_eq_equivalence :
  (forall C, code_eq C C = true)
  /\ (forall C1 C2, code_eq C1 C2 = code_eq C2 C1)
  /\ (forall C1 C2 C3,
        code_eq C1 C2 = true -> code_eq C2 C3 = true -> code_eq C1 C3 = true).
Proof.
  unfold code_eq, QAryReedMullerCode.__eq__, BinaryReedMullerCode.__eq__,
    QAryReedMullerCode.order, QAryReedMullerCode.number_of_variables,
    BinaryReedMullerCode.order, BinaryReedMullerCode.number_of_variables.
  split; [| split].
  - intros C. destruct (cls C); rewrite !Z.eqb_refl; reflexivity.
  - intros C1 C2. destruct (cls C1), (cls C2); try reflexivity.
    + rewrite (Z.eqb_sym (cardinality (base_field C1))),
        (Z.eqb_sym (_order C1)), (Z.eqb_sym (_num_of_var C1)). reflexivity.
    + rewrite (Z.eqb_sym (_order C1)), (Z.eqb_sym (_num_of_var C1)).
      reflexivity.
  - intros C1 C2 C3.
    destruct (cls C1), (cls C2), (cls C3); try discriminate;
      rewrite ?andb_true_iff, ?Z.eqb_eq; intuition congruence.
Qed.

(** X6: [ReedMullerCode] rejects what is no finite field, and every code
    it returns is binary exactly when the given field has two elements,
    over a field of the cardinality of the given one. *)
Theorem ReedMullerCode_dispatch (K : FiniteField) (order num_of_var : pyarg)
    (C : Code) :
  ReedMullerCode NotFiniteField order num_of_var = Raise InvalidField
  /\ (ReedMullerCode (IsFiniteField K) order num_of_var = Ok C ->
      (cls C = Binary <-> cardinality K = 2)
      /\ cardinality (base_field C) = cardinality K).
Proof.
  split; [reflexivity |]. unfold ReedMullerCode.
  destruct (cardinality K =? 2) eqn:E.
  - apply Z.eqb_eq in E. intros H.
    destruct order as [r|]; [| discriminate].
    destruct num_of_var as [m|]; [| discriminate].
    cbn [BinaryReedMullerCode.__init__] in H.
    destruct (m <? r); [discriminate |].
    destruct (AbstractLinearCode.__init__ (sage_pow 2 m)); [| discriminate].
    cbn [bind] in H. injection H as <-. cbn. rewrite E. split; [tauto | reflexivity].
  - apply Z.eqb_neq in E. intros H.
    destruct order as [r|]; [| discriminate].
    destruct num_of_var as [m|]; [| discriminate].
    cbn [QAryReedMullerCode.__init__] in H.
    destruct (cardinality K <=? r); [discriminate |].
    destruct (AbstractLinearCode.__init__ (sage_pow (cardinality K) m));
      [| discriminate].
    cbn [bind] in H. injection H as <-. cbn.
    split; [split; [discriminate | intros; contradiction] | reflexivity].
Qed.

(** ** The encoders *)

(** X7: the polynomial encoder is made from a Reed-Muller code only; a
    given ring is refused exactly when it is over another field or has
    another number of variables; the encoder made has the code, and a
    ring with as many variables as the code. *)
Theorem polynomial_encoder_init (C : Code) (ring : ring_arg) :
  ReedMullerPolynomialEncoder.__init__ NotACode ring = Raise NotReedMuller
  /\ (0 <= number_of_variables C ->
      match ReedMullerPolynomialEncoder.__init__ (IsReedMuller C) ring with
      | Ok self =>
          ReedMullerPolynomialEncoder.code self = C
          /\ Z.of_nat (ReedMullerPolynomialEncoder.polynomial_ring self)
             = number_of_variables C
      | Raise e =>
          e = DomainMismatch
          /\ exists same names,
               ring = GivenRing same names
               /\ (same = false \/ Z.of_nat names <> number_of_variables C)
      end).
Proof.
  split; [reflexivity |]. intros Hm.
  unfold ReedMullerPolynomialEncoder.__init__. destruct ring as [|same names].
  - cbn. split; [reflexivity | lia].
  - destruct (same && (Z.of_nat names =? number_of_variables C)) eqn:E.
    + apply andb_true_iff in E. destruct E as [_ E]. apply Z.eqb_eq in E.
      cbn. split; [reflexivity | exact E].
    + split; [reflexivity |]. exists same, names. split; [reflexivity |].
      apply andb_false_iff in E. destruct E as [E | E];
        [left; exact E | right; apply Z.eqb_neq; exact E].
Qed.

Lemma map_constant {A B : Type} (c : B) (f : A -> B) (l : list A) :
  (forall a, In a l -> f a = c) -> map f l = repeat c (List.length l).
Proof.
  induction l as [|a l IH]; intros H; [reflexivity |].
  cbn [map List.length repeat]. rewrite (H a) by (left; reflexivity).
  rewrite IH by (intros; apply H; right; assumption). reflexivity.
Qed.

(** X8: a code of order 0 encodes a polynomial of degree at most 0 as
    the constant vector that repeats its constant coefficient. *)
Theorem encode_order_zero (self : ReedMullerPolynomialEncoder.t)
    (p : mpoly (base_field (ReedMullerPolynomialEncoder.code self))) :
  let C := ReedMullerPolynomialEncoder.code self in
  let K := base_field C in
  let M := ReedMullerPolynomialEncoder.polynomial_ring self in
  field_laws K -> M = Z.to_nat (number_of_variables C) -> order C = 0 ->
  forall in_M : in_ring K M p = true,
  mp_degree K p <= 0 ->
  ReedMullerPolynomialEncoder.encode self (Poly p in_M)
  = Ok (repeat (mp_coeff K p (repeat O M))
               (List.length (Tuples (elements K) M))).
Proof.
  cbv zeta. intros HK HM Hr Hring Hdeg.
  set (C := ReedMullerPolynomialEncoder.code self) in *.
  set (K := base_field C) in *.
  set (M := ReedMullerPolynomialEncoder.polynomial_ring self) in *.
  assert (Hconst : Forall (fun t => fst t = repeat O M) (normalize K p)).
  { apply Forall_forall. intros t Ht.
    assert (Hs : In (fst t) (map fst (normalize K p)))
      by (apply in_map; exact Ht).
    apply (normalize_support K HK) in Hs. destruct Hs as [Hin Hc].
    apply all_zero_repeat.
    - apply in_map_iff in Hin. destruct Hin as [u [Eu Hu]].
      apply in_ring_forall in Hring. rewrite Forall_forall in Hring.
      rewrite <- Eu. apply Hring. exact Hu.
    - intros i. pose proof (mp_degree_bound K HK p (fst t) Hc).
      pose proof (nth_le_list_sum (fst t) i). lia. }
  destruct (constant_poly K HK M (normalize K p) Hconst) as [Hev _].
  rewrite encode_element.
  change (ReedMullerPolynomialEncoder.message_space self) with M.
  fold C K.
  destruct (order C <? mp_degree K p) eqn:E; [lia |].
  rewrite <- HM.
  rewrite (mapM_ok _ (mp_eval K p)).
  - f_equal. apply map_constant. intros x _.
    rewrite <- (mp_eval_normalize K HK), Hev.
    apply (mp_coeff_normalize K HK).
  - intros x Hx. unfold mp_call.
    rewrite (Tuples_elem_length _ _ _ Hx), Nat.eqb_refl. reflexivity.
Qed.

Lemma encode_order_zero_witness :
  ReedMullerPolynomialEncoder.encode
    {| ReedMullerPolynomialEncoder.code_ :=
         {| cls := QAry; base_field := GF3; length_ := 9; _order := 0;
            _num_of_var := 2; _dimension := inject_Z 1 |};
       ReedMullerPolynomialEncoder._polynomial_ring := 2 |}
    (@Poly GF3 2 [([0; 0]%nat, F3_2)] eq_refl)
  = Ok (repeat F3_2 9).
Proof.
  apply (encode_order_zero
           {| ReedMullerPolynomialEncoder.code_ :=
                {| cls := QAry; base_field := GF3; length_ := 9; _order := 0;
                   _num_of_var := 2; _dimension := inject_Z 1 |};
              ReedMullerPolynomialEncoder._polynomial_ring := 2 |}
           ([([0; 0]%nat, F3_2)] : mpoly GF3)).
  - exact GF3_laws.
  - reflexivity.
  - reflexivity.
  - vm_compute. discriminate.
Defined.

(** ** The rows of the generator matrix *)

Lemma int_vectors_degree_0 (m c : nat) : int_vectors m c 0 = [repeat O m].
Proof.
  induction m as [|m IH]; [reflexivity |].
  cbn [int_vectors]. rewrite Nat.min_0_r.
  cbn [Nat.add seq rev app flat_map Nat.sub]. rewrite IH. reflexivity.
Qed.

Lemma exponent_vectors_first (m c : nat) :
  nth 0 (exponent_vectors m c) [] = repeat O m.
Proof.
  unfold exponent_vectors.
  replace (m * c + 1)%nat with (S (m * c)) by lia.
  cbn [seq flat_map]. rewrite int_vectors_degree_0. reflexivity.
Qed.

Lemma choose_pos (n k : nat) : (k <= n)%nat -> (0 < choose n k)%nat.
Proof.
  revert k. induction n as [|n IH]; intros k Hk.
  - replace k with O by lia. cbn. lia.
  - destruct k as [|k]; [rewrite choose_0_r; lia |].
    rewrite choose_pascal. specialize (IH k). lia.
Qed.

(** The exponent tuples before position [psum len r] have total degree
    at most [r]. *)
Lemma exponent_degree_bound (m c r i : nat) :
  (r <= m * c)%nat ->
  (i < psum (fun j => List.length (int_vectors m c j)) r)%nat ->
  (list_sum (nth i (exponent_vectors m c) []) <= r)%nat.
Proof.
  intros Hr Hi. unfold exponent_vectors.
  replace (m * c + 1)%nat with (S r + (m * c - r))%nat by lia.
  rewrite seq_app, flat_map_app.
  assert (Hlen : List.length (flat_map (fun k => int_vectors m c k) (seq 0 (S r)))
                 = psum (fun j => List.length (int_vectors m c j)) r).
  { rewrite length_flat_map.
    apply (psum_seq (fun k => List.length (int_vectors m c k))). }
  rewrite app_nth1 by (rewrite Hlen; exact Hi).
  assert (Hin : In (nth i (flat_map (fun k => int_vectors m c k) (seq 0 (S r))) [])
                   (flat_map (fun k => int_vectors m c k) (seq 0 (S r))))
    by (apply nth_In; rewrite Hlen; exact Hi).
  apply in_flat_map in Hin. destruct Hin as [k [Hk Hin]].
  apply in_seq in Hk. apply int_vectors_spec in Hin. lia.
Qed.

(** ** The generator matrix *)

(** X19: for a constructed code of non-negative order whose enumeration
    of exponent tuples has an element left after the rows of the matrix
    (that is [order < num_of_var * min(order, q - 1)]), the generator
    matrix has [dimension] rows of [length] entries; the entry of row [i]
    and column [p] is the value at the [p]-th grid point of the monomial
    whose exponent tuple is the [i]-th of the enumerator, that is the
    product of the [p_j ^ e_ij]; the first call stores the matrix, and a
    second call returns the stored object. *)
Theorem generator_matrix_entries (self : ReedMullerVectorEncoder.t)
    (st : store (base_field (ReedMullerVectorEncoder.code self))) :
  let C := ReedMullerVectorEncoder.code self in
  let K := base_field C in
  let m := Z.to_nat (number_of_variables C) in
  let exponents :=
    exponent_vectors m (Z.to_nat (Z.min (order C) (cardinality K - 1))) in
  let grid := Tuples (elements K) m in
  field_laws K -> constructed C -> 0 <= order C ->
  order C < number_of_variables C * Z.min (order C) (cardinality K - 1) ->
  ReedMullerVectorEncoder.cache self = None ->
  exists G : matrix K,
    ReedMullerVectorEncoder.generator_matrix_body C = Ok G
    /\ inject_Z (Z.of_nat (List.length G)) = AbstractLinearCode.dimension C
    /\ (forall i, (i < List.length G)%nat ->
          Z.of_nat (List.length (nth i G [])) = AbstractLinearCode.length C)
    /\ (forall i p, (i < List.length G)%nat -> (p < List.length grid)%nat ->
          nth p (nth i G []) (fzero K)
          = monomial_eval K (nth i exponents []) (nth p grid []))
    /\ let self' := {| ReedMullerVectorEncoder.code_ :=
                         ReedMullerVectorEncoder.code_ self;
                       ReedMullerVectorEncoder.cache := Some (next_id st) |} in
       let st' := {| next_id := S (next_id st);
                     objects := (next_id st, G) :: objects st |} in
       ReedMullerVectorEncoder.generator_matrix self st
       = Ok (next_id st, self', st')
       /\ lookup st' (next_id st) = Some G
       /\ ReedMullerVectorEncoder.generator_matrix self' st'
          = Ok (next_id st, self', st').
Proof.
  intros C K m exponents grid HK HC Hr Hleft Hcache.
  destruct (dimension_rows C HC Hr) as [Hk Hle].
  set (k := Z.to_nat (Qfloor (AbstractLinearCode.dimension C))) in *.
  fold K m exponents in Hle.
  set (G := map (fun i => generator_row K m (nth i exponents [])) (seq 0 k)).
  assert (Hbody : ReedMullerVectorEncoder.generator_matrix_body C = Ok G)
    by (apply generator_matrix_body_rows; assumption).
  assert (HlenG : List.length G = k)
    by (unfold G; rewrite length_map, length_seq; reflexivity).
  assert (Hrow : forall i, (i < k)%nat ->
                           nth i G [] = generator_row K m (nth i exponents [])).
  { intros i Hi. unfold G.
    rewrite (nth_indep _ []
               ((fun i => generator_row K m (nth i exponents [])) O))
      by (rewrite length_map, length_seq; exact Hi).
    rewrite (map_nth (fun i => generator_row K m (nth i exponents []))).
    rewrite seq_nth by exact Hi. reflexivity. }
  exists G. split; [exact Hbody |]. rewrite HlenG.
  split; [exact Hk |]. split; [| split].
  - intros i Hi. rewrite (Hrow i Hi). unfold generator_row.
    rewrite length_map, Tuples_length, Nat2Z.inj_pow.
    destruct (constructed_inv C HC) as [Hm [Hl _]].
    rewrite Hl. unfold m. rewrite Z2Nat.id by exact Hm. reflexivity.
  - intros i p Hi Hp. rewrite (Hrow i Hi). unfold generator_row. fold grid.
    rewrite (nth_indep _ (fzero K) (monomial_eval K (nth i exponents []) []))
      by (rewrite length_map; exact Hp).
    apply (map_nth (monomial_eval K (nth i exponents []))).
  - cbv zeta. unfold ReedMullerVectorEncoder.generator_matrix.
    rewrite Hcache. fold C. rewrite Hbody. cbn [bind].
    split; [reflexivity |]. split; [| reflexivity].
    unfold lookup. cbn [objects find fst]. rewrite Nat.eqb_refl. reflexivity.
Qed.

Lemma generator_matrix_entries_witness :
  exists G : matrix GF3,
    ReedMullerVectorEncoder.generator_matrix_body RM_3_2_2 = Ok G
    /\ inject_Z (Z.of_nat (List.length G)) = AbstractLinearCode.dimension RM_3_2_2
    /\ (forall i, (i < List.length G)%nat ->
          Z.of_nat (List.length (nth i G [])) = 9)
    /\ ReedMullerVectorEncoder.generator_matrix RM_3_2_2_vector_encoder
         (empty_store GF3)
       = Ok (O,
             {| ReedMullerVectorEncoder.code_ := RM_3_2_2;
                ReedMullerVectorEncoder.cache := Some O |},
             {| next_id := 1; objects := [(O, G)] |}).
Proof.
  assert (HC : constructed RM_3_2_2).
  { left. exists GF3, (Integer 2), (Integer 2).
    split; [exact GF3_laws | reflexivity]. }
  assert (Hr : 0 <= order RM_3_2_2) by (cbn; lia).
  assert (Hleft : order RM_3_2_2
                  < number_of_variables RM_3_2_2
                    * Z.min (order RM_3_2_2) (cardinality GF3 - 1))
    by (vm_compute; reflexivity).
  destruct (generator_matrix_entries RM_3_2_2_vector_encoder (empty_store GF3)
              GF3_laws HC Hr Hleft eq_refl)
    as [G [H1 [H2 [H3 [_ [H4 _]]]]]].
  exists G. repeat split; assumption.
Defined.

(** X20: for a constructed code of non-negative order, [generator_matrix]
    raises [StopIteration] exactly when the rows use up the enumeration
    of exponent tuples, [num_of_var * min(order, q - 1) <= order]: these
    are the codes of order 0, the codes in at most one variable, and the
    binary codes whose order is the number of variables. *)
Theorem generator_matrix_exhausted (self : ReedMullerVectorEncoder.t)
    (st : store (base_field (ReedMullerVectorEncoder.code self))) :
  let C := ReedMullerVectorEncoder.code self in
  let K := base_field C in
  field_laws K -> constructed C -> 0 <= order C ->
  ReedMullerVectorEncoder.cache self = None ->
  (ReedMullerVectorEncoder.generator_matrix self st = Raise StopIteration
   <-> number_of_variables C * Z.min (order C) (cardinality K - 1) <= order C)
  /\ (number_of_variables C * Z.min (order C) (cardinality K - 1) <= order C
      <-> order C = 0 \/ number_of_variables C <= 1
          \/ (cls C = Binary /\ order C = number_of_variables C)).
Proof.
  intros C K HK HC Hr Hcache. split.
  - unfold ReedMullerVectorEncoder.generator_matrix. rewrite Hcache. fold C.
    split.
    + intros H.
      destruct (Z.le_gt_cases
                  (number_of_variables C
                   * Z.min (order C) (cardinality K - 1)) (order C))
        as [Hle | Hgt]; [exact Hle |].
      rewrite (generator_matrix_body_rows C HK HC Hr Hgt) in H.
      discriminate.
    + intros H. rewrite (generator_matrix_body_stop C HK HC Hr H).
      reflexivity.
  - destruct (constructed_inv C HC) as [Hm [_ Hcls]]. fold K in Hcls.
    destruct (cls C) eqn:Ecls.
    + replace (Z.min (order C) (cardinality K - 1)) with (order C) by lia.
      split.
      * intros H.
        destruct (Z.eq_dec (order C) 0) as [E | E]; [left; exact E |].
        right. left. nia.
      * intros [E | [E | [E _]]]; [nia | nia | discriminate].
    + destruct Hcls as [EK Hle].
      assert (Hq : cardinality K = 2) by exact (f_equal cardinality EK).
      rewrite Hq. split.
      * intros H.
        destruct (Z.eq_dec (order C) 0) as [E | E]; [left; exact E |].
        right. right. split; [reflexivity |].
        replace (Z.min (order C) (2 - 1)) with 1 in H by lia. lia.
      * intros [E | [E | [_ E]]].
        -- rewrite E. cbn. lia.
        -- assert (Hmin : Z.min (order C) (2 - 1) <= order C) by lia.
           assert (Hmin0 : 0 <= Z.min (order C) (2 - 1)) by lia. nia.
        -- assert (Hmin1 : Z.min (order C) (2 - 1) <= 1) by lia.
           assert (Hmin0 : 0 <= Z.min (order C) (2 - 1)) by lia. nia.
Qed.

Lemma generator_matrix_exhausted_witness :
  (ReedMullerVectorEncoder.generator_matrix RM_3_0_2_vector_encoder
     (empty_store GF3) = Raise StopIteration
   <-> number_of_variables RM_3_0_2
       * Z.min (order RM_3_0_2) (cardinality GF3 - 1) <= order RM_3_0_2)
  /\ (number_of_variables RM_3_0_2
      * Z.min (order RM_3_0_2) (cardinality GF3 - 1) <= order RM_3_0_2
      <-> order RM_3_0_2 = 0 \/ number_of_variables RM_3_0_2 <= 1
          \/ (cls RM_3_0_2 = Binary
              /\ order RM_3_0_2 = number_of_variables RM_3_0_2)).
Proof.
  apply (generator_matrix_exhausted RM_3_0_2_vector_encoder (empty_store GF3)).
  - exact GF3_laws.
  - left. exists GF3, (Integer 0), (Integer 2).
    split; [exact GF3_laws | reflexivity].
  - cbn. lia.
  - reflexivity.
Defined.

(** X9: when [generator_matrix] returns (the enumeration of exponent
    tuples has an element left after the rows), the first row of the
    matrix is the all-one vector, the values of the constant monomial. *)
Theorem generator_matrix_first_row (C : Code) :
  field_laws (base_field C) -> constructed C -> 0 <= order C ->
  order C
  < number_of_variables C * Z.min (order C) (cardinality (base_field C) - 1) ->
  exists G,
    ReedMullerVectorEncoder.generator_matrix_body C = Ok G
    /\ nth 0 G []
       = repeat (fone (base_field C))
                (List.length (Tuples (elements (base_field C))
                                (Z.to_nat (number_of_variables C)))).
Proof.
  intros HK HC Hr Hleft. eexists. split.
  - apply generator_matrix_body_rows; assumption.
  - pose proof (dimension_count C HC Hr) as Hk. cbv zeta in Hk.
    set (k := Z.to_nat (Qfloor (AbstractLinearCode.dimension C))) in *.
    assert (Hpos : (0 < k)%nat).
    { rewrite Hk.
      pose proof (psum_mono
                    (fun j => List.length
                                (int_vectors (Z.to_nat (number_of_variables C))
                                   (Z.to_nat (Z.min (order C)
                                                (cardinality (base_field C) - 1)))
                                   j))
                    0 (Nat.min (Z.to_nat (order C))
                         (Z.to_nat (number_of_variables C)
                          * Z.to_nat (Z.min (order C)
                                        (cardinality (base_field C) - 1)))))
        as Hmono.
      cbn [psum] in Hmono. rewrite length_int_vectors_degree_0 in Hmono. lia. }
    destruct k as [|k]; [lia |].
    cbn [seq map nth]. rewrite exponent_vectors_first.
    unfold generator_row. apply map_constant.
    intros x _. apply monomial_eval_zero. exact HK.
Qed.

Lemma generator_matrix_first_row_witness :
  exists G,
    ReedMullerVectorEncoder.generator_matrix_body RM_3_2_2 = Ok G
    /\ nth 0 G [] = repeat F3_1 9.
Proof.
  apply (generator_matrix_first_row RM_3_2_2).
  - exact GF3_laws.
  - left. exists GF3, (Integer 2), (Integer 2).
    split; [exact GF3_laws | reflexivity].
  - cbn. lia.
  - vm_compute. reflexivity.
Defined.

(** X10: when [generator_matrix] returns (the enumeration of exponent
    tuples has an element left after the rows), every row of the matrix
    is a codeword of the polynomial encoder: row [i] is the encoding of
    the monomial with the [i]-th exponent tuple, whose total degree is at
    most the order. *)
Theorem generator_matrix_rows_encode (C : Code) (i : nat) :
  let K := base_field C in
  let m := Z.to_nat (number_of_variables C) in
  let e := nth i (exponent_vectors m
                    (Z.to_nat (Z.min (order C) (cardinality K - 1)))) [] in
  field_laws K -> constructed C -> 0 <= order C ->
  order C < number_of_variables C * Z.min (order C) (cardinality K - 1) ->
  (i < Z.to_nat (Qfloor (AbstractLinearCode.dimension C)))%nat ->
  exists G (in_M : in_ring K m [(e, fone K)] = true),
    ReedMullerVectorEncoder.generator_matrix_body C = Ok G
    /\ Z.of_nat (list_sum e) <= order C
    /\ ReedMullerPolynomialEncoder.encode
         {| ReedMullerPolynomialEncoder.code_ := C;
            ReedMullerPolynomialEncoder._polynomial_ring := m |}
         (Poly [(e, fone K)] in_M)
       = Ok (nth i G []).
Proof.
  cbv zeta. intros HK HC Hr Hleft Hi.
  assert (Hbody := generator_matrix_body_rows C HK HC Hr Hleft).
  set (K := base_field C) in *.
  set (m := Z.to_nat (number_of_variables C)) in *.
  set (c := Z.to_nat (Z.min (order C) (cardinality K - 1))) in *.
  set (e := nth i (exponent_vectors m c) []).
  pose proof (dimension_count C HC Hr) as Hk. cbv zeta in Hk.
  fold K m c in Hk.
  destruct (dimension_rows C HC Hr) as [_ Hle]. fold K m c in Hle.
  assert (He : List.length e = m).
  { apply (exponent_vectors_length m c). apply nth_In. lia. }
  assert (Hsum : (list_sum e <= Z.to_nat (order C))%nat).
  { unfold e.
    pose proof (exponent_degree_bound m c
                  (Nat.min (Z.to_nat (order C)) (m * c)) i) as Hb.
    rewrite <- Hk in Hb. specialize (Hb (Nat.le_min_r _ _) Hi). lia. }
  assert (Hring : in_ring K m [(e, fone K)] = true).
  { unfold in_ring. cbn [forallb fst]. rewrite He, Nat.eqb_refl. reflexivity. }
  eexists. exists Hring. split; [exact Hbody |].
  split; [lia |].
  rewrite (nth_indep _ []
             ((fun j => generator_row K m (nth j (exponent_vectors m c) [])) O))
    by (rewrite length_map, length_seq; exact Hi).
  rewrite (map_nth (fun j => generator_row K m (nth j (exponent_vectors m c) []))).
  rewrite seq_nth by exact Hi. cbn [Nat.add]. fold e.
  rewrite encode_element.
  cbn [ReedMullerPolynomialEncoder.code ReedMullerPolynomialEncoder.code_
       ReedMullerPolynomialEncoder.message_space
       ReedMullerPolynomialEncoder._polynomial_ring].
  fold K m.
  assert (Hdeg : mp_degree K [(e, fone K)] <= order C).
  { unfold mp_degree. cbn [fold_right fst].
    destruct (feqb K (mp_coeff K [(e, fone K)] e) (fzero K)); lia. }
  destruct (order C <? mp_degree K [(e, fone K)]) eqn:E; [lia |].
  unfold generator_row. apply mapM_ok.
  intros x Hx. unfold mp_call.
  rewrite (Tuples_elem_length _ _ _ Hx), Nat.eqb_refl. f_equal.
  cbn [mp_eval fold_right fst snd].
  pose proof (fl_field HK) as Hf. destruct Hf as [Hring' _ _ _].
  rewrite (Rmul_1_l Hring'), (Radd_comm Hring'), (Radd_0_l Hring').
  reflexivity.
Qed.

Lemma generator_matrix_rows_encode_witness :
  exists G in_M,
    ReedMullerVectorEncoder.generator_matrix_body RM_3_2_2 = Ok G
    /\ ReedMullerPolynomialEncoder.encode RM_3_2_2_encoder
         (@Poly GF3 2 [([1; 1]%nat, F3_1)] in_M)
       = Ok (nth 4 G []).
Proof.
  assert (HC : constructed RM_3_2_2).
  { left. exists GF3, (Integer 2), (Integer 2).
    split; [exact GF3_laws | reflexivity]. }
  assert (Hr : 0 <= order RM_3_2_2) by (cbn; lia).
  assert (Hleft : order RM_3_2_2
                  < number_of_variables RM_3_2_2
                    * Z.min (order RM_3_2_2) (cardinality GF3 - 1))
    by (vm_compute; reflexivity).
  assert (Hi : (4 < Z.to_nat (Qfloor (AbstractLinearCode.dimension RM_3_2_2)))%nat)
    by (vm_compute; lia).
  destruct (generator_matrix_rows_encode RM_3_2_2 4 GF3_laws HC Hr Hleft Hi)
    as [G [in_M [H1 [_ H2]]]].
  exists G, in_M. split; [exact H1 | exact H2].
Defined.

(** ** Linearity and injectivity of the polynomial encoder *)

Section EncoderFacts.

Variable K : FiniteField.
Hypothesis HK : field_laws K.

Local Abbreviation F := (carrier K).
Local Notation "0" := (fzero K) : field_scope.
Local Notation "1" := (fone K) : field_scope.
Local Infix "*" := (fmul K) : field_scope.
Local Infix "+" := (fadd K) : field_scope.
Local Open Scope field_scope.

Add Field K_field'' : (fl_field HK).

Lemma mp_eval_add (p p' : mpoly K) (x : list F) :
  mp_eval K (mp_add K p p') x = mp_eval K p x + mp_eval K p' x.
Proof.
  unfold mp_add. induction p as [|t p IH].
  - cbn [app]. unfold mp_eval at 2. cbn [fold_right]. ring.
  - cbn [app]. unfold mp_eval in *. cbn [fold_right]. rewrite IH. ring.
Qed.

Lemma mp_degree_lower (p : mpoly K) : (-1 <= mp_degree K p)%Z.
Proof.
  unfold mp_degree. generalize (mp_coeff K p). intros cf.
  induction p as [|t p IH]; cbn [fold_right]; [lia |].
  destruct (feqb K (cf (fst t)) 0); lia.
Qed.

(** The total degree is at most [r] when every monomial with a non-zero
    coefficient has degree at most [r]. *)
Lemma mp_degree_le (p : mpoly K) (r : Z) :
  (-1 <= r)%Z ->
  (forall e, mp_coeff K p e <> 0 -> (Z.of_nat (list_sum e) <= r)%Z) ->
  (mp_degree K p <= r)%Z.
Proof.
  intros Hr H. unfold mp_degree.
  assert (Hgen : forall l : mpoly K,
             (fold_right
                (fun t acc =>
                   if feqb K (mp_coeff K p (fst t)) (fzero K) then acc
                   else Z.max (Z.of_nat (list_sum (fst t))) acc)
                (-1) l <= r)%Z).
  { induction l as [|t l IH]; cbn [fold_right]; [exact Hr |].
    destruct (feqb K (mp_coeff K p (fst t)) (fzero K)) eqn:E; [exact IH |].
    apply (feqb_false K HK) in E. specialize (H _ E). lia. }
  apply Hgen.
Qed.

Lemma mp_degree_add (p p' : mpoly K) (r : Z) :
  (mp_degree K p <= r)%Z -> (mp_degree K p' <= r)%Z ->
  (mp_degree K (mp_add K p p') <= r)%Z.
Proof.
  intros Hp Hp'. apply mp_degree_le.
  - pose proof (mp_degree_lower p). lia.
  - intros e He. unfold mp_add in He. rewrite (mp_coeff_app K HK) in He.
    destruct (feqb K (mp_coeff K p e) 0) eqn:E.
    + apply (feqb_true K HK) in E.
      assert (He' : mp_coeff K p' e <> 0).
      { intros E'. apply He. rewrite E, E'. ring. }
      pose proof (mp_degree_bound K HK p' e He'). lia.
    + apply (feqb_false K HK) in E.
      pose proof (mp_degree_bound K HK p e E). lia.
Qed.

Lemma map_pointwise_add (f g : list F -> F) (l : list (list F)) :
  map (fun x => f x + g x) l
  = map (fun xy => fst xy + snd xy) (combine (map f l) (map g l)).
Proof.
  induction l as [|x l IH]; [reflexivity |].
  cbn [map combine fst snd]. rewrite IH. reflexivity.
Qed.

End EncoderFacts.

(** X11: the encoder is additive: the codeword of a sum is the
    entry-wise sum of the codewords. *)
Theorem encode_add (self : ReedMullerPolynomialEncoder.t)
    (p p' : mpoly (base_field (ReedMullerPolynomialEncoder.code self))) :
  let C := ReedMullerPolynomialEncoder.code self in
  let K := base_field C in
  let M := ReedMullerPolynomialEncoder.polynomial_ring self in
  field_laws K -> M = Z.to_nat (number_of_variables C) ->
  forall (in_M : in_ring K M p = true) (in_M' : in_ring K M p' = true),
  mp_degree K p <= order C -> mp_degree K p' <= order C ->
  exists c c' (in_M_sum : in_ring K M (mp_add K p p') = true),
    ReedMullerPolynomialEncoder.encode self (Poly p in_M) = Ok c
    /\ ReedMullerPolynomialEncoder.encode self (Poly p' in_M') = Ok c'
    /\ ReedMullerPolynomialEncoder.encode self
         (Poly (mp_add K p p') in_M_sum)
       = Ok (map (fun xy => fadd K (fst xy) (snd xy)) (combine c c')).
Proof.
  cbv zeta. intros HK HM Hp Hp' Hd Hd'.
  set (C := ReedMullerPolynomialEncoder.code self) in *.
  set (K := base_field C) in *.
  set (M := ReedMullerPolynomialEncoder.polynomial_ring self) in *.
  assert (Henc : forall f (Hf : in_ring K M f = true),
             mp_degree K f <= order C ->
             ReedMullerPolynomialEncoder.encode self (Poly f Hf)
             = Ok (map (mp_eval K f) (Tuples (elements K) M))).
  { intros f Hf Hdf. rewrite encode_element.
    change (ReedMullerPolynomialEncoder.message_space self) with M.
    fold C K.
    destruct (order C <? mp_degree K f) eqn:E; [lia |].
    rewrite <- HM. apply mapM_ok. intros x Hx. unfold mp_call.
    rewrite (Tuples_elem_length _ _ _ Hx), Nat.eqb_refl. reflexivity. }
  assert (Hsum : in_ring K M (mp_add K p p') = true).
  { unfold mp_add. rewrite (in_ring_app K), Hp, Hp'. reflexivity. }
  exists (map (mp_eval K p) (Tuples (elements K) M)),
         (map (mp_eval K p') (Tuples (elements K) M)), Hsum.
  split; [apply Henc; assumption |]. split; [apply Henc; assumption |].
  rewrite Henc.
  - f_equal. rewrite <- (map_pointwise_add K).
    apply map_ext. intros x. apply (mp_eval_add K HK).
  - apply (mp_degree_add K HK); assumption.
Qed.

Lemma encode_add_witness :
  exists c c' in_M_sum,
    ReedMullerPolynomialEncoder.encode RM_3_2_2_encoder
      (@Poly GF3 2 scenario_polynomial eq_refl)
    = Ok c
    /\ ReedMullerPolynomialEncoder.encode RM_3_2_2_encoder
         (@Poly GF3 2 [([2; 0]%nat, F3_2)] eq_refl) = Ok c'
    /\ ReedMullerPolynomialEncoder.encode RM_3_2_2_encoder
         (@Poly GF3 2 (mp_add GF3 scenario_polynomial [([2; 0]%nat, F3_2)])
            in_M_sum)
       = Ok (map (fun xy => fadd GF3 (fst xy) (snd xy)) (combine c c')).
Proof.
  apply (encode_add RM_3_2_2_encoder scenario_polynomial
           ([([2; 0]%nat, F3_2)] : mpoly GF3)).
  - exact GF3_laws.
  - reflexivity.
  - vm_compute. discriminate.
  - vm_compute. discriminate.
Defined.

(** X12: the encoder is injective on the polynomials of total degree at
    most the order that have degree less than [q] in every variable:
    equal codewords come from equal polynomials. *)
Theorem encode_injective (self : ReedMullerPolynomialEncoder.t)
    (p p' : mpoly (base_field (ReedMullerPolynomialEncoder.code self))) :
  let C := ReedMullerPolynomialEncoder.code self in
  let K := base_field C in
  let M := ReedMullerPolynomialEncoder.polynomial_ring self in
  field_laws K -> M = Z.to_nat (number_of_variables C) ->
  0 <= order C -> order C < cardinality K ->
  forall (in_M : in_ring K M p = true) (in_M' : in_ring K M p' = true),
  mp_degree K p <= order C -> mp_degree K p' <= order C ->
  forall c,
    ReedMullerPolynomialEncoder.encode self (Poly p in_M) = Ok c ->
    ReedMullerPolynomialEncoder.encode self (Poly p' in_M') = Ok c ->
    mp_eq K p p'.
Proof.
  cbv zeta. intros HK HM Hr Hq Hp Hp' Hd Hd' c Hc Hc'.
  set (C := ReedMullerPolynomialEncoder.code self) in *.
  set (K := base_field C) in *.
  set (M := ReedMullerPolynomialEncoder.polynomial_ring self) in *.
  assert (Henc : forall f (Hf : in_ring K M f = true),
             mp_degree K f <= order C ->
             ReedMullerPolynomialEncoder.encode self (Poly f Hf)
             = Ok (map (mp_eval K f) (Tuples (elements K) M))).
  { intros f Hf Hdf. rewrite encode_element.
    change (ReedMullerPolynomialEncoder.message_space self) with M.
    fold C K.
    destruct (order C <? mp_degree K f) eqn:E; [lia |].
    rewrite <- HM. apply mapM_ok. intros x Hx. unfold mp_call.
    rewrite (Tuples_elem_length _ _ _ Hx), Nat.eqb_refl. reflexivity. }
  assert (Hvar : forall f, mp_degree K f <= order C ->
                           forall e, mp_coeff K f e <> fzero K ->
                                     forall i, (nth i e O < List.length (elements K))%nat).
  { intros f Hdf e He i.
    pose proof (mp_degree_bound K HK f e He).
    pose proof (nth_le_list_sum e i). unfold cardinality in Hq. lia. }
  rewrite (Henc p Hp Hd) in Hc. rewrite (Henc p' Hp' Hd') in Hc'.
  injection Hc as Hc. injection Hc' as Hc'.
  destruct (interpolation_roundtrip K HK M (order C) p Hr Hp Hd (Hvar p Hd))
    as [v [Hv Heq]].
  destruct (interpolation_roundtrip K HK M (order C) p' Hr Hp' Hd' (Hvar p' Hd'))
    as [v' [Hv' Heq']].
  rewrite Hc in Hv. rewrite Hc' in Hv'. rewrite Hv in Hv'.
  injection Hv' as <-.
  intros e. rewrite <- Heq, <- Heq'. reflexivity.
Qed.

Lemma encode_injective_witness :
  ReedMullerPolynomialEncoder.encode RM_3_2_2_encoder
    (@Poly GF3 2 scenario_polynomial eq_refl)
  = Ok scenario_codeword
  /\ ReedMullerPolynomialEncoder.encode RM_3_2_2_encoder
       (@Poly GF3 2 (rev scenario_polynomial) eq_refl) = Ok scenario_codeword
  /\ mp_eq GF3 scenario_polynomial (rev scenario_polynomial).
Proof.
  split; [reflexivity |]. split; [reflexivity |].
  apply (encode_injective RM_3_2_2_encoder scenario_polynomial
           (rev scenario_polynomial))
    with (c := scenario_codeword) (in_M := eq_refl) (in_M' := eq_refl).
  - exact GF3_laws.
  - reflexivity.
  - cbn. lia.
  - vm_compute. reflexivity.
  - vm_compute. discriminate.
  - vm_compute. discriminate.
  - reflexivity.
  - reflexivity.
Defined.

(** ** The interpolation has no error path on vectors of the right length *)

Lemma mapM_total {A B : Type} (f : A -> result B) (P : B -> Prop) (l : list A) :
  (forall a, In a l -> exists b, f a = Ok b /\ P b) ->
  exists bs, mapM f l = Ok bs /\ Forall P bs /\ List.length bs = List.length l.
Proof.
  induction l as [|a l IH]; intros H.
  - exists []. cbn. auto.
  - destruct (H a (or_introl eq_refl)) as [b [Hb HP]].
    destruct IH as [bs [Hbs [HF Hl]]];
      [intros; apply H; right; assumption |].
    exists (b :: bs). cbn [mapM]. rewrite Hb. cbn [bind]. rewrite Hbs.
    cbn [bind List.length]. auto.
Qed.

Lemma foldM_total {A St : Type} (f : St -> A -> result St) (l : list A) :
  (forall st a, In a l -> exists st', f st a = Ok st') ->
  forall st, exists st', foldM f l st = Ok st'.
Proof.
  induction l as [|a l IH]; intros H st.
  - exists st. reflexivity.
  - destruct (H st a (or_introl eq_refl)) as [st1 H1].
    cbn [foldM]. rewrite H1. cbn [bind].
    apply IH. intros st2 b Hb. apply H. right. exact Hb.
Qed.

Lemma firstn_map_nth {A : Type} (l : list A) (d : A) (n : nat) :
  (n <= List.length l)%nat ->
  map (fun i => nth i l d) (seq 0 n) = firstn n l.
Proof.
  revert l. induction n as [|n IH]; intros l Hn; [reflexivity |].
  destruct l as [|a l]; [cbn in Hn; lia |].
  cbn [seq map nth firstn]. f_equal.
  rewrite <- seq_shift, map_map. cbn [nth]. apply IH. cbn in Hn. lia.
Qed.

Section InterpolationTotal.

Variable K : FiniteField.
Hypothesis HK : field_laws K.

Local Abbreviation F := (carrier K).

Add Field K_field_total : (fl_field HK).

Lemma slice_coefficients_total (ev : list F) (n k : Z) (dn : nat) :
  (dn <= List.length (elements K))%nat ->
  (forall i, (i < dn)%nat ->
             0 <= k + Z.of_nat i * n < Z.of_nat (List.length ev)) ->
  exists row,
    slice_coefficients K ev n (Z.of_nat dn) k = Ok row
    /\ List.length row = dn.
Proof.
  intros Hd Hidx. unfold slice_coefficients.
  set (g := fun i : nat => nth (Z.to_nat (k + Z.of_nat i * n)) ev (fzero K)).
  rewrite (gather_points_spec K HK ev k n g dn Hd).
  - cbn [bind].
    set (pts := map (fun i => (nth i (elements K) (fzero K), g i)) (seq 0 dn)).
    destruct (newton_spec K HK pts [] [] [fone K]) as [L [HL [_ HlenL]]].
    + cbn [app]. unfold pts. rewrite map_map. cbn [fst].
      rewrite firstn_map_nth by exact Hd.
      apply NoDup_firstn'. apply (fl_nodup HK).
    + intros x y [].
    + intros x. cbn [ueval map In fst]. split; [| intros []].
      intros E. apply (F_1_neq_0 (fl_field HK)). rewrite <- E. ring.
    + cbn. lia.
    + reflexivity.
    + unfold lagrange_polynomial. fold pts. rewrite HL. cbn [bind].
      cbn [app] in HlenL. unfold pts in HlenL.
      rewrite length_map, length_seq in HlenL.
      pose proof (length_coefficients K L) as Hc.
      destruct (Z.of_nat (List.length (coefficients K L)) <? Z.of_nat dn) eqn:E.
      * eexists. split; [reflexivity |].
        rewrite length_app, length_map. unfold range.
        rewrite length_map, length_seq. lia.
      * eexists. split; [reflexivity |]. lia.
  - intros i Hi. specialize (Hidx i Hi). unfold g, index.
    destruct (k + Z.of_nat i * n <? 0) eqn:E; [lia |].
    destruct (nth_error ev (Z.to_nat (k + Z.of_nat i * n))) as [a|] eqn:En.
    + f_equal. symmetry. apply nth_error_nth. exact En.
    + apply nth_error_None in En. lia.
Qed.

Lemma interpolation_total (j : nat) :
  forall (r : Z) (ev : list F) (n : nat),
    (j <= n)%nat -> 0 <= r ->
    cardinality K ^ Z.of_nat j <= Z.of_nat (List.length ev) ->
    exists v, _multivariate_polynomial_interpolation K ev j r n = Ok v.
Proof.
  pose proof (cardinality_ge_2 K HK) as Hq.
  assert (Hhead : forall (ev : list F) (i : nat),
             cardinality K ^ Z.of_nat i <= Z.of_nat (List.length ev) ->
             exists c, index ev 0 = Ok c).
  { intros ev i Hlen. exists (nth O ev (fzero K)).
    apply (index_nth ev O). 
    assert (0 < cardinality K ^ Z.of_nat i) by (apply Z.pow_pos_nonneg; lia).
    lia. }
  induction j as [|j IH]; intros r ev n Hj Hr Hlen.
  - cbn [_multivariate_polynomial_interpolation].
    destruct (Hhead ev O Hlen) as [c Hc]. rewrite Hc. eexists. reflexivity.
  - rewrite interpolation_unfold.
    destruct (r =? 0) eqn:Er.
    { destruct (Hhead ev (S j) Hlen) as [c Hc]. rewrite Hc.
      eexists. reflexivity. }
    apply Z.eqb_neq in Er.
    set (N := (cardinality K ^ Z.of_nat j)%Z) in *.
    set (d := Z.min (r + 1) (cardinality K)) in *.
    assert (HN : (0 < N)%Z) by (apply Z.pow_pos_nonneg; lia).
    assert (Hd : (0 < d)%Z) by (unfold d; lia).
    assert (HlenN : (cardinality K * N <= Z.of_nat (List.length ev))%Z).
    { rewrite Nat2Z.inj_succ, Z.pow_succ_r in Hlen by lia. exact Hlen. }
    assert (EN : N = Z.of_nat (Z.to_nat N)) by lia.
    set (dn := Z.to_nat d).
    assert (Ed : d = Z.of_nat dn) by (unfold dn; lia).
    destruct (mapM_total (slice_coefficients K ev N d)
                (fun row => List.length row = dn) (range N))
      as [mel [Hmel [Hrows Hlmel]]].
    { intros k Hk. unfold range in Hk. apply in_map_iff in Hk.
      destruct Hk as [k' [<- Hk']]. apply in_seq in Hk'.
      rewrite Ed.
      apply slice_coefficients_total.
      - unfold dn, d, cardinality. lia.
      - intros i Hi.
        assert (Z.of_nat i + 1 <= cardinality K)%Z by (unfold dn, d in *; lia).
        nia. }
    rewrite Hmel. cbn [bind].
    unfold range in Hlmel. rewrite length_map, length_seq in Hlmel.
    unfold mp_gen.
    replace ((0 <=? Z.of_nat j) && (Z.of_nat j <? Z.of_nat n)) with true
      by (symmetry; apply andb_true_intro; split;
          [apply Z.leb_le | apply Z.ltb_lt]; lia).
    cbn [bind].
    destruct (foldM_total
                (combine_step K
                   (fun column order' =>
                      _multivariate_polynomial_interpolation K column j order' n)
                   mel N r n [(unit_vector n (Z.to_nat (Z.of_nat j)), fone K)])
                (range d)) with (st := (mp_zero K, PyOne K)) as [st Hst].
    { intros [poly z] k Hk. unfold range in Hk. apply in_map_iff in Hk.
      destruct Hk as [k' [<- Hk']]. apply in_seq in Hk'.
      unfold combine_step.
      destruct (mapM_total
                  (fun i => row <- index mel i ;; index row (Z.of_nat k'))
                  (fun _ => True) (range N)) as [column [Hcol [_ Hlcol]]].
      { intros i Hi. unfold range in Hi. apply in_map_iff in Hi.
        destruct Hi as [i' [<- Hi']]. apply in_seq in Hi'.
        rewrite (index_nth mel i' []) by lia. cbn [bind].
        assert (Hrow : List.length (nth i' mel []) = dn).
        { rewrite Forall_forall in Hrows. apply Hrows.
          apply nth_In. lia. }
        exists (nth k' (nth i' mel []) (fzero K)). split; [| exact I].
        apply index_nth. lia. }
      rewrite Hcol. cbn [bind].
      unfold range in Hlcol. rewrite length_map, length_seq in Hlcol.
      destruct (IH (r - Z.of_nat k')%Z column n) as [v Hv].
      - lia.
      - unfold dn, d in *. lia.
      - fold N. lia.
      - rewrite Hv. cbn [bind]. eexists. reflexivity. }
    rewrite Hst. cbn [bind]. eexists. reflexivity.
Qed.

End InterpolationTotal.

(** X13: on a vector with at least as many entries as the grid has
    points, [unencode_nocheck] raises no exception, whether the vector is
    a codeword or not: the method has no membership test. *)
Theorem unencode_nocheck_total (self : ReedMullerPolynomialEncoder.t)
    (c : list (carrier (base_field (ReedMullerPolynomialEncoder.code self)))) :
  let C := ReedMullerPolynomialEncoder.code self in
  let K := base_field C in
  let M := ReedMullerPolynomialEncoder.polynomial_ring self in
  field_laws K ->
  M = Z.to_nat (number_of_variables C) ->
  0 <= order C ->
  cardinality K ^ Z.of_nat M <= Z.of_nat (List.length c) ->
  exists v, ReedMullerPolynomialEncoder.unencode_nocheck self c = Ok v.
Proof.
  intros C K M HK HM Hr Hlen.
  unfold ReedMullerPolynomialEncoder.unencode_nocheck.
  fold C. fold K. fold M. rewrite <- HM.
  apply (interpolation_total K HK M (order C) c M); [lia | exact Hr | exact Hlen].
Qed.

Lemma unencode_nocheck_total_witness :
  exists v,
    ReedMullerPolynomialEncoder.unencode_nocheck RM_3_2_2_encoder
      doctest_noncodeword = Ok v.
Proof.
  apply (unencode_nocheck_total RM_3_2_2_encoder doctest_noncodeword).
  - exact GF3_laws.
  - reflexivity.
  - cbn. lia.
  - vm_compute. discriminate.
Defined.

Section DecodeFacts.

Variable K : FiniteField.
Hypothesis HK : field_laws K.

Lemma mp_eval_ext (p p' : mpoly K) (x : list (carrier K)) :
  mp_eq K p p' -> mp_eval K p x = mp_eval K p' x.
Proof.
  intros Heq.
  set (l := nodup (list_eq_dec Nat.eq_dec) (map fst p ++ map fst p')).
  assert (Hnd : NoDup l) by apply NoDup_nodup.
  rewrite (mp_eval_fsum K HK p l x), (mp_eval_fsum K HK p' l x); try exact Hnd.
  - apply fsum_ext_in. intros e _. rewrite (Heq e). reflexivity.
  - intros e He. apply nodup_In. apply in_or_app. right. exact He.
  - intros e He. apply nodup_In. apply in_or_app. left. exact He.
Qed.

Lemma interpolation_empty (j : nat) (r : Z) (n : nat) :
  0 <= r ->
  _multivariate_polynomial_interpolation K [] j r n = Raise IndexError.
Proof.
  intros Hr.
  destruct j as [|j]; [reflexivity |].
  rewrite interpolation_unfold.
  destruct (r =? 0) eqn:Er; [reflexivity |].
  apply Z.eqb_neq in Er.
  pose proof (cardinality_ge_2 K HK) as Hq.
  set (N := cardinality K ^ Z.of_nat j).
  set (d := Z.min (r + 1) (cardinality K)).
  assert (HN : 0 < N) by (apply Z.pow_pos_nonneg; lia).
  assert (Hd : 0 < d) by (unfold d; lia).
  assert (Hrange : forall k, 0 < k -> exists l, range k = 0 :: l).
  { intros k Hk. unfold range.
    destruct (Z.to_nat k) as [|k'] eqn:E; [lia |].
    cbn [seq map]. eexists. reflexivity. }
  destruct (Hrange N HN) as [lN EN]. destruct (Hrange d Hd) as [ld Ed].
  rewrite EN. cbn [mapM].
  unfold slice_coefficients at 1. unfold gather_points.
  pose proof (elements_nonempty K HK) as Hne. unfold first.
  destruct (elements K) as [|a l]; [contradiction |].
  cbn [hd_error of_option bind]. rewrite Ed. cbn [foldM].
  unfold gather_step at 1. reflexivity.
Qed.

End DecodeFacts.

(** X14: the second example of [unencode_nocheck]: no polynomial of the
    ring is encoded as [(1, 2, 0, 0, 2, 1, 0, 1, 1)], the method
    nevertheless returns a polynomial for it, with the coefficients of
    [-x0*x1 - x1^2 + x0 + 1], and the encoding of that polynomial is
    another vector. *)
Theorem unencode_nocheck_noncodeword :
  (forall (p : mpoly GF3) (in_M : in_ring GF3 2 p = true),
      ReedMullerPolynomialEncoder.encode RM_3_2_2_encoder
        (@Poly GF3 2 p in_M)
      <> Ok doctest_noncodeword)
  /\ exists v c in_M,
       ReedMullerPolynomialEncoder.unencode_nocheck RM_3_2_2_encoder
         doctest_noncodeword = Ok v
       /\ mp_eq GF3 (to_poly GF3 2 v) doctest_noncodeword_polynomial
       /\ ReedMullerPolynomialEncoder.encode RM_3_2_2_encoder
            (@Poly GF3 2 (to_poly GF3 2 v) in_M) = Ok c
       /\ c <> doctest_noncodeword.
Proof.
  split.
  - intros p Hring Henc.
    rewrite encode_element in Henc.
    change (ReedMullerPolynomialEncoder.message_space RM_3_2_2_encoder)
      with 2%nat in Henc.
    change (base_field (ReedMullerPolynomialEncoder.code RM_3_2_2_encoder))
      with GF3 in *.
    change (order (ReedMullerPolynomialEncoder.code RM_3_2_2_encoder))
      with 2 in Henc.
    destruct (2 <? mp_degree GF3 p) eqn:Hdeg; [discriminate |].
    apply Z.ltb_ge in Hdeg.
    change (Z.to_nat (number_of_variables
                        (ReedMullerPolynomialEncoder.code RM_3_2_2_encoder)))
      with 2%nat in Henc.
    rewrite (mapM_ok (mp_call GF3 2 p) (mp_eval GF3 p)) in Henc.
    2:{ intros x Hx. unfold mp_call.
        rewrite (Tuples_elem_length _ _ _ Hx), Nat.eqb_refl. reflexivity. }
    apply (f_equal (fun r => match r with Ok c => c | Raise _ => [] end))
      in Henc.
    change (map (mp_eval GF3 p) (Tuples (elements GF3) 2) = doctest_noncodeword)
      in Henc.
    destruct (interpolation_roundtrip GF3 GF3_laws 2 2 p) as [v [Hv Heq]];
      [lia | exact Hring | exact Hdeg | |].
    { intros e He i.
      pose proof (mp_degree_bound GF3 GF3_laws p e He).
      pose proof (nth_le_list_sum e i). cbn. lia. }
    assert (Hv0 : exists v0,
               _multivariate_polynomial_interpolation GF3
                 doctest_noncodeword 2 2 2 = Ok v0
               /\ map (mp_eval GF3 (to_poly GF3 2 v0)) (Tuples (elements GF3) 2)
                  <> doctest_noncodeword).
    { eexists. split; [reflexivity |]. vm_compute. discriminate. }
    destruct Hv0 as [v0 [Hv0 Hne]].
    rewrite Henc, Hv0 in Hv. injection Hv as <-.
    apply Hne. rewrite <- Henc. apply map_ext. intros x.
    apply (mp_eval_ext GF3 GF3_laws). exact Heq.
  - destruct (ReedMullerPolynomialEncoder.unencode_nocheck RM_3_2_2_encoder
                doctest_noncodeword) as [v | e] eqn:Ev;
      vm_compute in Ev; [| discriminate].
    injection Ev as <-.
    match goal with
    | |- exists v0, _ => match goal with
                         | |- context [Ok ?w = Ok _] => exists w
                         end
    end.
    eexists. exists eq_refl. split; [reflexivity |].
    split; [apply (mp_eqb_sound GF3 GF3_laws); reflexivity |].
    split; [reflexivity |]. vm_compute. discriminate.
Qed.

(** X15: for a code of non-negative order, [unencode_nocheck] raises
    [IndexError] on the empty vector. *)
Theorem unencode_nocheck_empty (self : ReedMullerPolynomialEncoder.t) :
  let C := ReedMullerPolynomialEncoder.code self in
  field_laws (base_field C) ->
  0 <= order C ->
  ReedMullerPolynomialEncoder.unencode_nocheck self [] = Raise IndexError.
Proof.
  intros C HK Hr. unfold ReedMullerPolynomialEncoder.unencode_nocheck.
  apply (interpolation_empty _ HK). exact Hr.
Qed.

Lemma unencode_nocheck_empty_witness :
  ReedMullerPolynomialEncoder.unencode_nocheck RM_3_2_2_encoder []
  = Raise IndexError.
Proof.
  apply (unencode_nocheck_empty RM_3_2_2_encoder).
  - exact GF3_laws.
  - cbn. lia.
Defined.

(** ** The two classes over the field with two elements *)

(** X16: for an order [0] or [1] that is at most the number of variables,
    both constructors accept the parameters over GF(2), and the two codes
    have the same length, the same dimension and the same minimum
    distance; [==] still tells them apart. *)
Theorem binary_and_qary_agree (r m : Z) :
  0 <= r <= 1 -> r <= m ->
  exists C B,
    QAryReedMullerCode.__init__ (IsFiniteField GF2) (Integer r) (Integer m)
    = Ok C
    /\ BinaryReedMullerCode.__init__ (Integer r) (Integer m) = Ok B
    /\ AbstractLinearCode.length C = AbstractLinearCode.length B
    /\ AbstractLinearCode.dimension C = AbstractLinearCode.dimension B
    /\ minimum_distance C = minimum_distance B
    /\ code_eq C B = false
    /\ code_eq B C = false.
Proof.
  intros Hr Hm.
  assert (Hpow : sage_pow 2 m = inject_Z (2 ^ m)) by (apply sage_pow_nonneg; lia).
  assert (Hdim : inject_Z (binomial (m + r) r) = _binomial_sum m r).
  { rewrite <- (Z2Nat.id m), <- (Z2Nat.id r) by lia.
    rewrite binomial_sum_closed_form. f_equal. unfold binomial.
    destruct (Z.ltb_spec (Z.of_nat (Z.to_nat r)) 0); [lia |].
    destruct (Z.leb_spec 0 (Z.of_nat (Z.to_nat m) + Z.of_nat (Z.to_nat r)));
      [| lia].
    rewrite Nat2Z.id. f_equal.
    assert (Hcases : Z.to_nat r = 0%nat \/ Z.to_nat r = 1%nat) by lia.
    destruct Hcases as [-> | ->].
    - cbn [binomial_partial_sum]. rewrite !choose_0_r. reflexivity.
    - cbn [binomial_partial_sum]. rewrite choose_0_r.
      replace (Z.to_nat (Z.of_nat (Z.to_nat m) + Z.of_nat 1))
        with (S (Z.to_nat m)) by lia.
      generalize (Z.to_nat m) as n. intros n.
      induction n as [|n IH]; [reflexivity |].
      rewrite choose_pascal, choose_0_r, IH.
      destruct n; cbn [choose]; rewrite ?choose_0_r; lia. }
  eexists. eexists.
  split.
  { cbn [QAryReedMullerCode.__init__].
    change (cardinality GF2) with 2.
    destruct (Z.leb_spec 2 r); [lia |].
    rewrite Hpow. reflexivity. }
  split.
  { cbn [BinaryReedMullerCode.__init__].
    destruct (Z.ltb_spec m r); [lia |].
    rewrite Hpow, <- Hdim. reflexivity. }
  split; [reflexivity |]. split; [reflexivity |].
  split; [| split; reflexivity].
  unfold minimum_distance. cbn [cls].
  unfold QAryReedMullerCode.minimum_distance,
    BinaryReedMullerCode.minimum_distance, QAryReedMullerCode.order,
    BinaryReedMullerCode.order, BinaryReedMullerCode.number_of_variables,
    AbstractLinearCode.length.
  cbn [length_ _order _num_of_var base_field inject_Z Qnum].
  change (cardinality GF2) with 2.
  rewrite sage_pow_nonneg by lia.
  replace ((2 - r) * 2 ^ m) with (2 * 2 ^ (m - r)).
  - apply sage_div_exact. lia.
  - assert (Hcases : r = 0 \/ r = 1) by lia.
    destruct Hcases as [-> | ->].
    + rewrite Z.sub_0_r. reflexivity.
    + assert (E : 2 ^ m = 2 * 2 ^ (m - 1)).
      { rewrite <- Z.pow_succ_r by lia. f_equal. lia. }
      lia.
Qed.

Lemma binary_and_qary_agree_witness :
  exists C B,
    QAryReedMullerCode.__init__ (IsFiniteField GF2) (Integer 1) (Integer 3)
    = Ok C
    /\ BinaryReedMullerCode.__init__ (Integer 1) (Integer 3) = Ok B
    /\ AbstractLinearCode.length C = AbstractLinearCode.length B
    /\ AbstractLinearCode.dimension C = AbstractLinearCode.dimension B
    /\ minimum_distance C = minimum_distance B
    /\ code_eq C B = false
    /\ code_eq B C = false.
Proof.
  apply (binary_and_qary_agree 1 3); lia.
Defined.

(** ** The comparison of symmetries in [is_submodule] *)

Lemma labelled_sets_laws : disjoint_set_laws labelled_sets.
Proof.
  split.
  - reflexivity.
  - intros n i j _ _. cbn. tauto.
  - reflexivity.
  - intros [n f] a b i j _ _ _ _. cbn.
    destruct (Nat.eqb_spec (f i) (f b)), (Nat.eqb_spec (f j) (f b));
      intuition congruence.
Qed.

Lemma related_least (blocks : list (list nat)) (E : nat -> nat -> Prop) :
  (forall i, E i i) ->
  (forall i j, E i j -> E j i) ->
  (forall i j k, E i j -> E j k -> E i k) ->
  (forall b i j, In b blocks -> In i b -> In j b -> E i j) ->
  forall i j, related blocks i j -> E i j.
Proof.
  intros Hrefl Hsym Htrans Hblocks i j H.
  induction H; eauto.
Qed.

Lemma related_mono (blocks blocks' : list (list nat)) :
  (forall b i j, In b blocks -> In i b -> In j b -> related blocks' i j) ->
  forall i j, related blocks i j -> related blocks' i j.
Proof.
  intros H. apply related_least.
  - apply related_refl.
  - apply related_sym.
  - apply related_trans.
  - exact H.
Qed.

Lemma related_nil (i j : nat) : related [] i j -> i = j.
Proof.
  apply related_least; try congruence. intros b x y [].
Qed.

Lemma index_sets_cons (n : nat) (b : list nat) (blocks : list (list nat)) :
  index_sets n (b :: blocks) <->
  (b <> [] /\ forall i, In i b -> (i < n)%nat) /\ index_sets n blocks.
Proof.
  unfold index_sets. split.
  - intros H. split; [apply H; left; reflexivity |].
    intros b' Hb'. apply H. right. exact Hb'.
  - intros [Hb H] b' [<- | Hb']; [exact Hb | apply H; exact Hb'].
Qed.

Section UnionFind.

Variable D : DisjointSet.
Hypothesis HD : disjoint_set_laws D.

Lemma represents_new (n : nat) : represents D n (DisjointSet_new D n) [].
Proof.
  split; [apply (dl_new_cardinality HD) |].
  intros x y Hx Hy. rewrite (dl_new HD n x y Hx Hy). split.
  - intros ->. apply related_refl.
  - apply related_nil.
Qed.

Lemma represents_equiv (n : nat) (S : disjoint_set D)
    (blocks blocks' : list (list nat)) :
  (forall x y, related blocks x y <-> related blocks' x y) ->
  represents D n S blocks -> represents D n S blocks'.
Proof.
  intros Heq [Hc H]. split; [exact Hc |].
  intros x y Hx Hy. rewrite (H x y Hx Hy). apply Heq.
Qed.

Lemma represents_union (n : nat) (S : disjoint_set D)
    (blocks : list (list nat)) (a b : nat) :
  represents D n S blocks ->
  (forall b', In b' blocks -> forall i, In i b' -> (i < n)%nat) ->
  (a < n)%nat -> (b < n)%nat ->
  represents D n (DisjointSet_union D S a b) ([a; b] :: blocks).
Proof.
  intros [Hc H] Hrange Ha Hb.
  split; [rewrite (dl_union_cardinality HD); exact Hc |].
  assert (Hweak : forall i j, related blocks i j ->
                              related ([a; b] :: blocks) i j).
  { apply related_mono. intros b' i j Hb' Hi Hj.
    apply (related_block _ b'); [right; exact Hb' | exact Hi | exact Hj]. }
  assert (Hab : related ([a; b] :: blocks) a b).
  { apply (related_block _ [a; b]); cbn; auto. }
  intros x y Hx Hy.
  rewrite (dl_union HD S a b x y) by (rewrite Hc; assumption).
  split.
  - intros [E | [[E1 E2] | [E1 E2]]].
    + apply Hweak. apply H; assumption.
    + apply (related_trans _ x a); [apply Hweak; apply H; assumption |].
      apply (related_trans _ a b); [exact Hab |].
      apply Hweak. apply H; assumption.
    + apply (related_trans _ x b); [apply Hweak; apply H; assumption |].
      apply (related_trans _ b a); [apply related_sym; exact Hab |].
      apply Hweak. apply H; assumption.
  - set (S' := DisjointSet_union D S a b).
    assert (HS' : forall i j, (i < n)%nat -> (j < n)%nat ->
               DisjointSet_find D S i = DisjointSet_find D S j ->
               DisjointSet_find D S' i = DisjointSet_find D S' j).
    { intros i j Hi Hj E. unfold S'.
      apply (dl_union HD S a b i j); try (rewrite Hc; assumption).
      left. exact E. }
    intros Hrel.
    assert (HT : x = y \/ ((x < n)%nat /\ (y < n)%nat
                           /\ DisjointSet_find D S' x = DisjointSet_find D S' y)).
    { revert x y Hrel Hx Hy.
      assert (Hgen : forall x y, related ([a; b] :: blocks) x y ->
                 x = y \/ ((x < n)%nat /\ (y < n)%nat
                           /\ DisjointSet_find D S' x
                              = DisjointSet_find D S' y)).
      { apply related_least.
        - intros i. left. reflexivity.
        - intros i j [-> | [Hi [Hj E]]]; [left; reflexivity |].
          right. repeat split; auto.
        - intros i j k H1 H2. destruct H1 as [-> | [Hi [Hj E]]]; [exact H2 |].
          destruct H2 as [<- | [Hj' [Hk E']]]; [right; auto |].
          right. split; [exact Hi |]. split; [exact Hk |]. congruence.
        - intros b' i j [<- | Hb'] Hi Hj.
          + assert (Hi' : (i < n)%nat) by (cbn in Hi; intuition lia).
            assert (Hj' : (j < n)%nat) by (cbn in Hj; intuition lia).
            right. split; [exact Hi' |]. split; [exact Hj' |].
            unfold S'.
            apply (dl_union HD S a b i j); try (rewrite Hc; assumption).
            cbn in Hi, Hj.
            destruct Hi as [<- | [<- | []]], Hj as [<- | [<- | []]]; auto.
          + pose proof (Hrange b' Hb' i Hi) as Hi'.
            pose proof (Hrange b' Hb' j Hj) as Hj'.
            right. split; [exact Hi' |]. split; [exact Hj' |].
            apply HS'; try assumption. apply H; try assumption.
            apply (related_block _ b'); assumption. }
      intros x y Hrel _ _. apply Hgen. exact Hrel. }
    apply (dl_union HD S a b x y); try (rewrite Hc; assumption).
    destruct HT as [-> | [_ [_ E]]]; [reflexivity | exact E].
Qed.

Lemma union_fold (n i : nat) (js : list nat) :
  (i < n)%nat ->
  forall (S : disjoint_set D) (blocks : list (list nat)),
    represents D n S blocks ->
    (forall b', In b' blocks -> forall k, In k b' -> (k < n)%nat) ->
    (forall j, In j js -> (j < n)%nat) ->
    represents D n
      (fold_left (fun S j => DisjointSet_union D S i j) js S)
      (map (fun j => [i; j]) (rev js) ++ blocks).
Proof.
  intros Hi. induction js as [|j js IH]; intros S blocks HS Hrange Hjs.
  - exact HS.
  - cbn [fold_left rev]. rewrite map_app. cbn [map]. rewrite <- app_assoc.
    cbn [app]. apply IH.
    + apply represents_union; auto. apply Hjs. left. reflexivity.
    + intros b' [<- | Hb'] k Hk.
      * cbn in Hk. destruct Hk as [<- | [<- | []]]; [exact Hi |].
        apply Hjs. left. reflexivity.
      * apply (Hrange b' Hb'). exact Hk.
    + intros j' Hj'. apply Hjs. right. exact Hj'.
Qed.

Lemma related_pairs (i : nat) (js : list nat) (blocks : list (list nat)) :
  forall x y,
    related (map (fun j => [i; j]) (rev js) ++ blocks) x y
    <-> related ((i :: js) :: blocks) x y.
Proof.
  intros x y. split.
  - apply related_mono. intros b u v Hb Hu Hv.
    apply in_app_or in Hb. destruct Hb as [Hb | Hb].
    + apply in_map_iff in Hb. destruct Hb as [j [<- Hj]].
      apply in_rev in Hj.
      apply (related_block _ (i :: js)); [left; reflexivity | |].
      * cbn in Hu. destruct Hu as [<- | [<- | []]];
          [left; reflexivity | right; exact Hj].
      * cbn in Hv. destruct Hv as [<- | [<- | []]];
          [left; reflexivity | right; exact Hj].
    + apply (related_block _ b); [right; exact Hb | exact Hu | exact Hv].
  - apply related_mono. intros b u v [<- | Hb] Hu Hv.
    + assert (Hi : forall w, In w (i :: js) ->
                 related (map (fun j => [i; j]) (rev js) ++ blocks) i w).
      { intros w [<- | Hw]; [apply related_refl |].
        apply (related_block _ [i; w]); cbn; auto.
        apply in_or_app. left. apply in_map_iff. exists w.
        split; [reflexivity |]. apply in_rev in Hw. exact Hw. }
      apply (related_trans _ u i); [apply related_sym; apply Hi; exact Hu |].
      apply Hi. exact Hv.
    + apply (related_block _ b); [| exact Hu | exact Hv].
      apply in_or_app. right. exact Hb.
Qed.

Lemma union_step_spec (n : nat) (S : disjoint_set D)
    (blocks : list (list nat)) (index_set : list nat) :
  represents D n S blocks ->
  (forall b', In b' blocks -> forall k, In k b' -> (k < n)%nat) ->
  index_set <> [] -> (forall k, In k index_set -> (k < n)%nat) ->
  exists S',
    union_step D S index_set = Ok S'
    /\ represents D n S' (index_set :: blocks).
Proof.
  intros HS Hrange Hne Hk.
  destruct index_set as [|i js]; [contradiction |].
  unfold union_step. rewrite index_cons_0. cbn [bind tl].
  eexists. split; [reflexivity |].
  apply (represents_equiv n _ (map (fun j => [i; j]) (rev js) ++ blocks)).
  - apply related_pairs.
  - apply union_fold; auto.
    + apply Hk. left. reflexivity.
    + intros j Hj. apply Hk. right. exact Hj.
Qed.

Lemma union_loop (n : nat) (sym_list : list (list nat)) :
  forall (S : disjoint_set D) (blocks : list (list nat)),
    represents D n S blocks ->
    (forall b', In b' blocks -> forall k, In k b' -> (k < n)%nat) ->
    index_sets n sym_list ->
    exists S',
      foldM (union_step D) sym_list S = Ok S'
      /\ represents D n S' (rev sym_list ++ blocks).
Proof.
  induction sym_list as [|b sym_list IH]; intros S blocks HS Hrange Hsets.
  - exists S. split; [reflexivity | exact HS].
  - apply index_sets_cons in Hsets. destruct Hsets as [[Hne Hb] Hsets].
    destruct (union_step_spec n S blocks b HS Hrange Hne Hb) as [S1 [E1 H1]].
    destruct (IH S1 (b :: blocks) H1) as [S' [E' H']].
    + intros b' [<- | Hb'] k Hk; [apply Hb; exact Hk |].
      apply (Hrange b' Hb'). exact Hk.
    + exact Hsets.
    + exists S'. cbn [foldM]. rewrite E1. cbn [bind].
      split; [exact E' |].
      cbn [rev]. rewrite <- app_assoc. exact H'.
Qed.

Lemma find_loop_spec (n : nat) (S : disjoint_set D)
    (blocks other_sym_list : list (list nat)) :
  represents D n S blocks ->
  index_sets n other_sym_list ->
  exists r,
    find_loop D S other_sym_list = Ok r
    /\ (r = true <->
        forall b x y, In b other_sym_list -> In x b -> In y b ->
                      related blocks x y).
Proof.
  intros [Hc HS] Hsets.
  induction other_sym_list as [|b rest IH].
  - exists true. split; [reflexivity |].
    split; [intros _ b x y [] | reflexivity].
  - apply index_sets_cons in Hsets. destruct Hsets as [[Hne Hb] Hsets].
    destruct (IH Hsets) as [r [Er Hr]].
    destruct b as [|i js]; [contradiction |].
    cbn [find_loop]. rewrite index_cons_0. cbn [bind tl].
    assert (Hi : (i < n)%nat) by (apply Hb; left; reflexivity).
    destruct (forallb (fun j => (DisjointSet_find D S j
                                 =? DisjointSet_find D S i)%nat) js) eqn:E.
    + exists r. split; [exact Er |].
      rewrite forallb_forall in E.
      assert (Hto : forall w, In w (i :: js) -> related blocks w i).
      { intros w [<- | Hw]; [apply related_refl |].
        apply HS; [apply Hb; right; exact Hw | exact Hi |].
        apply Nat.eqb_eq. apply E. exact Hw. }
      rewrite Hr. split.
      * intros H b x y [<- | Hin] Hx Hy; [| apply (H b); assumption].
        apply (related_trans _ x i); [apply Hto; exact Hx |].
        apply related_sym. apply Hto. exact Hy.
      * intros H b x y Hin. apply H. right. exact Hin.
    + exists false. split; [reflexivity |].
      split; [discriminate |]. intros H. exfalso.
      assert (E' : forallb (fun j => (DisjointSet_find D S j
                                      =? DisjointSet_find D S i)%nat) js
                   = true).
      { apply forallb_forall. intros j Hj. apply Nat.eqb_eq.
        apply HS; [apply Hb; right; exact Hj | exact Hi |].
        apply (H (i :: js)); [left; reflexivity | right; exact Hj |
                              left; reflexivity]. }
      rewrite E' in E. discriminate.
Qed.

Lemma is_coarsening_of_related (self_tensor_type : nat * nat)
    (self_sym_list other_sym_list : list (list nat)) :
  let n := (fst self_tensor_type + snd self_tensor_type)%nat in
  index_sets n self_sym_list -> index_sets n other_sym_list ->
  exists r,
    is_coarsening_of D self_tensor_type self_sym_list other_sym_list = Ok r
    /\ (r = true <->
        forall b x y, In b other_sym_list -> In x b -> In y b ->
                      related self_sym_list x y).
Proof.
  intros n Hself Hother. unfold is_coarsening_of. fold n.
  destruct (union_loop n self_sym_list (DisjointSet_new D n) []
              (represents_new n)) as [S [ES HS]].
  - intros b' [].
  - exact Hself.
  - rewrite ES. cbn [bind].
    apply (find_loop_spec n S self_sym_list).
    + apply (represents_equiv n S (rev self_sym_list ++ [])); [| exact HS].
      intros x y. rewrite app_nil_r. split; apply related_mono;
        intros b i j Hb Hi Hj; apply (related_block _ b); auto.
      * apply in_rev. exact Hb.
      * apply in_rev in Hb. exact Hb.
    + exact Hother.
Qed.

End UnionFind.

(** X17: over a union-find structure, for index sets that are not empty
    and hold indices below the number of indices of the tensor type,
    [is_coarsening_of] raises no exception, and returns [True] exactly
    when the partition that the index sets of [self_sym_list] generate is
    coarser than the one of [other_sym_list]: indices that are in one
    class for [other_sym_list] are in one class for [self_sym_list]. *)
Theorem is_coarsening_of_spec (D : DisjointSet) (self_tensor_type : nat * nat)
    (self_sym_list other_sym_list : list (list nat)) :
  let n := (fst self_tensor_type + snd self_tensor_type)%nat in
  disjoint_set_laws D ->
  index_sets n self_sym_list -> index_sets n other_sym_list ->
  exists r,
    is_coarsening_of D self_tensor_type self_sym_list other_sym_list = Ok r
    /\ (r = true <->
        forall x y, related other_sym_list x y -> related self_sym_list x y).
Proof.
  intros n HD Hself Hother.
  destruct (is_coarsening_of_related D HD self_tensor_type self_sym_list
              other_sym_list Hself Hother) as [r [E Hr]].
  exists r. split; [exact E |]. rewrite Hr. split.
  - intros H. apply related_mono. intros b i j Hb Hi Hj.
    apply (H b); assumption.
  - intros H b x y Hb Hx Hy. apply H.
    apply (related_block _ b); assumption.
Qed.

Lemma index_sets_Sym012345 : index_sets 6 Sym012345.
Proof.
  intros b [<- | []]. split; [discriminate |].
  intros i Hi. cbn in Hi. intuition lia.
Qed.

Lemma index_sets_Sym0123x45 : index_sets 6 Sym0123x45.
Proof.
  intros b [<- | [<- | []]]; (split; [discriminate |]);
    intros i Hi; cbn in Hi; intuition lia.
Qed.

Lemma index_sets_Sym012x345 : index_sets 6 Sym012x345.
Proof.
  intros b [<- | [<- | []]]; (split; [discriminate |]);
    intros i Hi; cbn in Hi; intuition lia.
Qed.

Lemma is_coarsening_of_spec_witness :
  exists r,
    is_coarsening_of labelled_sets (6, 0)%nat Sym012345 Sym0123x45 = Ok r
    /\ (r = true <->
        forall x y, related Sym0123x45 x y -> related Sym012345 x y).
Proof.
  apply (is_coarsening_of_spec labelled_sets (6, 0)%nat Sym012345 Sym0123x45).
  - exact labelled_sets_laws.
  - exact index_sets_Sym012345.
  - exact index_sets_Sym0123x45.
Defined.

Lemma related_separated (blocks : list (list nat)) (side : nat -> bool) :
  (forall b i j, In b blocks -> In i b -> In j b -> side i = side j) ->
  forall i j, related blocks i j -> side i = side j.
Proof.
  intros H. apply related_least; try congruence. exact H.
Qed.

(** X18: the symmetries of the examples of [is_submodule], on tensors of
    type (6, 0): the fully symmetric components are coarser than the
    symmetries [(0, 1, 2, 3), (4, 5)], these are not coarser than the
    full symmetry, and the symmetries [(0, 1, 2), (3, 4, 5)] are not
    coarser than [(0, 1, 2, 3), (4, 5)]. *)
Theorem is_coarsening_of_examples (D : DisjointSet) :
  disjoint_set_laws D ->
  is_coarsening_of D (6, 0)%nat Sym012345 Sym0123x45 = Ok true
  /\ is_coarsening_of D (6, 0)%nat Sym0123x45 Sym012345 = Ok false
  /\ is_coarsening_of D (6, 0)%nat Sym012x345 Sym0123x45 = Ok false.
Proof.
  intros HD. split; [| split].
  - destruct (is_coarsening_of_related D HD (6, 0)%nat Sym012345 Sym0123x45
                index_sets_Sym012345 index_sets_Sym0123x45) as [r [E Hr]].
    rewrite E. f_equal. apply Hr.
    intros b x y Hb Hx Hy.
    apply (related_block _ [0; 1; 2; 3; 4; 5]%nat); [left; reflexivity | |].
    + destruct Hb as [<- | [<- | []]]; cbn in Hx |- *; intuition.
    + destruct Hb as [<- | [<- | []]]; cbn in Hy |- *; intuition.
  - destruct (is_coarsening_of_related D HD (6, 0)%nat Sym0123x45 Sym012345
                index_sets_Sym0123x45 index_sets_Sym012345) as [r [E Hr]].
    rewrite E. f_equal. destruct r; [| reflexivity]. exfalso.
    assert (H : related Sym0123x45 0%nat 4%nat).
    { apply (proj1 Hr eq_refl [0; 1; 2; 3; 4; 5]%nat); cbn; auto 7. }
    apply (related_separated _ (fun i => (i <? 4)%nat)) in H;
      [discriminate |].
    intros b i j [<- | [<- | []]] Hi Hj; cbn in Hi, Hj;
      repeat match goal with
             | Hd : _ \/ _ |- _ => destruct Hd
             | Hf : False |- _ => destruct Hf
             end; subst; reflexivity.
  - destruct (is_coarsening_of_related D HD (6, 0)%nat Sym012x345 Sym0123x45
                index_sets_Sym012x345 index_sets_Sym0123x45) as [r [E Hr]].
    rewrite E. f_equal. destruct r; [| reflexivity]. exfalso.
    assert (H : related Sym012x345 0%nat 3%nat).
    { apply (proj1 Hr eq_refl [0; 1; 2; 3]%nat); cbn; auto 7. }
    apply (related_separated _ (fun i => (i <? 3)%nat)) in H;
      [discriminate |].
    intros b i j [<- | [<- | []]] Hi Hj; cbn in Hi, Hj;
      repeat match goal with
             | Hd : _ \/ _ |- _ => destruct Hd
             | Hf : False |- _ => destruct Hf
             end; subst; reflexivity.
Qed.

Lemma is_coarsening_of_examples_witness :
  is_coarsening_of labelled_sets (6, 0)%nat Sym012345 Sym0123x45 = Ok true
  /\ is_coarsening_of labelled_sets (6, 0)%nat Sym0123x45 Sym012345 = Ok false
  /\ is_coarsening_of labelled_sets (6, 0)%nat Sym012x345 Sym0123x45
     = Ok false.
Proof.
  apply (is_coarsening_of_examples labelled_sets).
  exact labelled_sets_laws.
Defined.
